(** * OpenClaw Node for VS Code: gateway client, dispatcher and guards

    A shallow embedding of the TypeScript sources of the extension
    (gateway client, command registry, security guard, activity store,
    terminal and file-edit handlers) together with the properties that
    the design document states about them.

    Conventions of the embedding.
    - A JavaScript string is the list of its UTF-16 code units.
    - A function that may throw returns a [completion]; [Throw] carries
      the thrown value.  An [await]ed promise is modelled by the
      completion it settles with.
    - Objects with mutable fields become records that are passed and
      returned explicitly; callbacks registered on sockets, timers and
      child processes become events of a step function.
    - Calls of the logger are left out: they change nothing that the
      code reads.
    - [path] is Node's POSIX flavour. *)

From Stdlib Require Import ZArith NArith List Bool Lia String Ascii Sorted.
From Stdlib Require Import DecimalString.
From stdpp Require Import base option list gmap.

Import ListNotations.
Local Open Scope list_scope.
Set Warnings "-register-all".

(* ===================================================================== *)
(** * Part I: definitions *)
(* ===================================================================== *)

(** ** JavaScript strings *)

Module JStr.

Definition jsstring : Type := list N.

(** An ASCII literal as a string of code units. *)
Definition lit (s : string) : jsstring :=
  List.map N_of_ascii (list_ascii_of_string s).

Arguments lit : simpl never.

Definition eqb (a b : jsstring) : bool := bool_decide (a = b).

(** [WhiteSpace] and [LineTerminator] of ECMAScript: the characters
    removed by [String.prototype.trim] and matched by the regular
    expression class [\s]. *)
Definition is_ws (c : N) : bool :=
  ((9 <=? c) && (c <=? 13)
   || (c =? 32) || (c =? 160) || (c =? 5760)
   || ((8192 <=? c) && (c <=? 8202))
   || (c =? 8232) || (c =? 8233) || (c =? 8239) || (c =? 8287)
   || (c =? 12288) || (c =? 65279))%N.

Fixpoint dropWhile {A} (p : A -> bool) (l : list A) : list A :=
  match l with
  | [] => []
  | x :: r => if p x then dropWhile p r else l
  end.

Fixpoint takeWhile {A} (p : A -> bool) (l : list A) : list A :=
  match l with
  | [] => []
  | x :: r => if p x then x :: takeWhile p r else []
  end.

Definition trimStart (s : jsstring) : jsstring := dropWhile is_ws s.
Definition trimEnd (s : jsstring) : jsstring :=
  rev (dropWhile is_ws (rev s)).

(** [s.trim()] *)
Definition trim (s : jsstring) : jsstring := trimEnd (trimStart s).

(** [s.split(/\s+/)]: every maximal run of white space is one separator;
    a separator at either end leaves an empty string there, and the
    empty string splits into one empty string.  [insep] records that the
    previous character belonged to a separator. *)
Fixpoint split_ws_from (insep : bool) (s : jsstring) : list jsstring :=
  match s with
  | [] => [[]]
  | c :: rest =>
      if is_ws c then
        if insep then split_ws_from true rest
        else [] :: split_ws_from true rest
      else
        match split_ws_from false rest with
        | t :: ts => (c :: t) :: ts
        | [] => [[c]]
        end
  end.

Definition split_ws (s : jsstring) : list jsstring :=
  match s with
  | [] => [[]]
  | c :: rest =>
      if is_ws c then [] :: split_ws_from true rest
      else split_ws_from false s
  end.

(** [s.split(sep)] for a one-character separator. *)
Fixpoint split_on (sep : N) (s : jsstring) : list jsstring :=
  match s with
  | [] => [[]]
  | c :: rest =>
      if (c =? sep)%N then [] :: split_on sep rest
      else
        match split_on sep rest with
        | t :: ts => (c :: t) :: ts
        | [] => [[c]]
        end
  end.

(** [parts.join(sep)] *)
Fixpoint join (sep : jsstring) (parts : list jsstring) : jsstring :=
  match parts with
  | [] => []
  | [p] => p
  | p :: ps => p ++ sep ++ join sep ps
  end.

(** [s.startsWith(p)] *)
Fixpoint startsWith (s p : jsstring) {struct p} : bool :=
  match p, s with
  | [], _ => true
  | _ :: _, [] => false
  | a :: p', b :: s' => (a =? b)%N && startsWith s' p'
  end.

(** [s.indexOf(pat, from)] for [0 <= from]: the least position
    [k >= from] at which [pat] occurs; the empty pattern is found at
    [min from s.length].  [None] stands for [-1]. *)
Fixpoint indexOf_at (s pat : jsstring) (pos : nat) {struct s} : option nat :=
  match s with
  | [] => if startsWith s pat then Some pos else None
  | _ :: s' =>
      if startsWith s pat then Some pos else indexOf_at s' pat (S pos)
  end.

Definition indexOf (s pat : jsstring) (from : nat) : option nat :=
  let from' := Nat.min from (length s) in
  indexOf_at (drop from' s) pat from'.

End JStr.
Export JStr.

(** ** Completions: normal return or a thrown value *)

Inductive completion (E A : Type) : Type :=
| Normal (a : A)
| Throw (e : E).
Arguments Normal {E A} a.
Arguments Throw {E A} e.

Definition cbind {E A B} (c : completion E A) (k : A -> completion E B)
  : completion E B :=
  match c with
  | Normal a => k a
  | Throw e => Throw e
  end.

(** [try { c } catch (e) { h e }] *)
Definition try_catch {E A} (c : completion E A) (h : E -> completion E A)
  : completion E A :=
  match c with
  | Normal a => Normal a
  | Throw e => h e
  end.

Declare Scope completion_scope.
Delimit Scope completion_scope with completion.
Notation "'let*' x ':=' c 'in' k" := (cbind c (fun x => k))
  (at level 10, x name, c at level 100, k at level 200) : completion_scope.

(** ** Node's [path] module, POSIX flavour *)

Module Path.

Definition slash : N := 47.
Definition sep : jsstring := [slash].
Definition dot : jsstring := lit ".".
Definition dotdot : jsstring := lit "..".

(** [path.isAbsolute(p)] *)
Definition isAbsolute (p : jsstring) : bool :=
  match p with
  | c :: _ => (c =? slash)%N
  | [] => false
  end.

(** One segment pushed on the stack of segments kept so far (last
    segment first): empty segments and [.] are skipped, [..] removes
    the previous segment, and at the top it is dropped, or kept when
    [allowAboveRoot]. *)
Definition push_segment (allowAboveRoot : bool)
           (stack : list jsstring) (seg : jsstring) : list jsstring :=
  if eqb seg [] || eqb seg dot then stack
  else if eqb seg dotdot then
    match stack with
    | top :: below =>
        if eqb top dotdot then seg :: stack else below
    | [] => if allowAboveRoot then [seg] else []
    end
  else seg :: stack.

Definition normalizeSegments (allowAboveRoot : bool) (segs : list jsstring)
  : list jsstring :=
  rev (fold_left (push_segment allowAboveRoot) segs []).

(** [normalizeString(path, allowAboveRoot, "/", isPosixPathSeparator)] *)
Definition normalizeString (p : jsstring) (allowAboveRoot : bool) : jsstring :=
  join sep (normalizeSegments allowAboveRoot (split_on slash p)).

(** The loop of [path.resolve]: arguments are taken from the last to
    the first, and then the working directory, until an absolute one
    has been prepended; empty arguments are skipped. *)
Fixpoint resolve_loop (rev_args : list jsstring) (resolvedPath : jsstring)
  : jsstring * bool :=
  match rev_args with
  | [] => (resolvedPath, false)
  | p :: more =>
      if eqb p [] then resolve_loop more resolvedPath
      else
        let resolvedPath' := p ++ sep ++ resolvedPath in
        if isAbsolute p then (resolvedPath', true)
        else resolve_loop more resolvedPath'
  end.

(** [path.resolve(...args)] in a process whose working directory is
    [cwd]. *)
Definition resolve (cwd : jsstring) (args : list jsstring) : jsstring :=
  let '(resolvedPath, resolvedAbsolute) :=
    resolve_loop (rev args ++ [cwd]) [] in
  let normalized := normalizeString resolvedPath (negb resolvedAbsolute) in
  if resolvedAbsolute then sep ++ normalized
  else match normalized with
       | [] => dot
       | _ => normalized
       end.

(** [path.basename(p)]: trailing slashes are ignored, and what follows
    the last remaining slash is returned. *)
Definition basename (p : jsstring) : jsstring :=
  let notslash c := negb (c =? slash)%N in
  let isslash c := (c =? slash)%N in
  rev (takeWhile notslash (dropWhile isslash (rev p))).

End Path.

(** ** security.ts *)

Module Security.

Import Path.

Local Open Scope completion_scope.

(** [resolveWorkspacePath(relativePath)].  [workspaceFolders] lists the
    [fsPath] of each workspace folder ([undefined] is the empty list);
    the result stands for [vscode.Uri.file(resolved)].  A thrown
    [Error] is represented by its message. *)
Definition resolveWorkspacePath (cwd : jsstring)
           (workspaceFolders : list jsstring) (relativePath : jsstring)
  : completion jsstring jsstring :=
  match workspaceFolders with
  | [] => Throw (lit "No workspace folder open")
  | rootPath :: _ =>
      if isAbsolute relativePath then
        Throw (lit "Absolute paths not allowed: " ++ relativePath)
      else
        let resolved := resolve cwd [rootPath; relativePath] in
        let normalizedRoot := resolve cwd [rootPath] ++ sep in
        let normalizedResolved := resolve cwd [resolved] in
        if negb (eqb normalizedResolved (resolve cwd [rootPath]))
           && negb (startsWith normalizedResolved normalizedRoot)
        then Throw (lit "Path escapes workspace: " ++ relativePath)
        else Normal resolved
  end.

(** [command.trim().split(/\s+/)[0]] *)
Definition baseCmd (command : jsstring) : jsstring :=
  hd [] (split_ws (trim command)).

(** [isCommandAllowed(command, allowlist)] *)
Definition isCommandAllowed (command : jsstring) (allowlist : list jsstring)
  : bool :=
  let baseCmd := baseCmd command in
  if eqb baseCmd [] then false
  else
    let baseName := basename baseCmd in
    existsb (fun allowed =>
               eqb allowed (lit "*")
               || eqb baseName allowed
               || eqb baseName (allowed ++ lit ".exe"))
            allowlist.

(** *** The allow-list check as the design document words it *)

(** The first token of a command line delimited by white space: what
    follows the leading white space, up to the next white space. *)
Definition first_token (command : jsstring) : jsstring :=
  takeWhile (fun c => negb (is_ws c)) (dropWhile is_ws command).

(** "Accepts it only if the allow-list contains a wildcard, an exact
    match, or a platform executable-suffixed match" of that token. *)
Definition allowed_as_stated (command : jsstring) (allowlist : list jsstring)
  : bool :=
  let token := first_token command in
  existsb (fun allowed =>
             eqb allowed (lit "*")
             || eqb token allowed
             || eqb token (allowed ++ lit ".exe"))
          allowlist.

End Security.

(** ** JavaScript values *)

Module JSValue.

(** Values as they come out of [JSON.parse], plus [undefined].  The
    modelled code looks at the type and the truthiness of a number and
    converts it to a string, nothing else. *)
Inductive jsval : Type :=
| VUndefined
| VNull
| VBool (b : bool)
| VNum (n : Z)
| VStr (s : jsstring)
| VArr (items : list jsval)
| VObj (fields : list (jsstring * jsval)).

(** What a [throw] carries: an [Error] with its message, or any other
    value. *)
Inductive Thrown : Type :=
| ThrownError (message : jsstring)
| ThrownValue (v : jsval).

Definition truthy (v : jsval) : bool :=
  match v with
  | VUndefined | VNull => false
  | VBool b => b
  | VNum n => negb (n =? 0)%Z
  | VStr s => negb (eqb s [])
  | VArr _ | VObj _ => true
  end.

Fixpoint lookup_field (fields : list (jsstring * jsval)) (key : jsstring)
  : jsval :=
  match fields with
  | [] => VUndefined
  | (k, v) :: rest => if eqb k key then v else lookup_field rest key
  end.

Definition typeErrorMessage (v : jsval) (key : jsstring) : jsstring :=
  lit "Cannot read properties of "
  ++ (match v with VNull => lit "null" | _ => lit "undefined" end)
  ++ lit " (reading '" ++ key ++ lit "')".

(** [v.key]: a [TypeError] on [null] and [undefined]; none of the keys
    read by the modelled code is an own or inherited property of a
    number, a string, a boolean or an array. *)
Definition get_prop (v : jsval) (key : jsstring) : completion Thrown jsval :=
  match v with
  | VUndefined | VNull => Throw (ThrownError (typeErrorMessage v key))
  | VObj fields => Normal (lookup_field fields key)
  | _ => Normal VUndefined
  end.

(** [v?.key] *)
Definition get_prop_opt (v : jsval) (key : jsstring) : jsval :=
  match get_prop v key with
  | Normal x => x
  | Throw _ => VUndefined
  end.

(** [v === "literal"] *)
Definition is_string (v : jsval) (s : jsstring) : bool :=
  match v with
  | VStr s' => eqb s' s
  | _ => false
  end.

Definition is_undefined (v : jsval) : bool :=
  match v with
  | VUndefined => true
  | _ => false
  end.

(** An own property of that name, whatever its value. *)
Definition has_field (fields : list (jsstring * jsval)) (key : jsstring)
  : bool :=
  existsb (fun kv => eqb (fst kv) key) fields.

Definition noPrimitive : jsstring :=
  lit "Cannot convert object to primitive value".

Section Conversion.

(** [Number::toString] on the numbers that the model carries. *)
Variable Number_toString : Z -> jsstring.

(** [String(v)] and the conversion of [v] inside a template literal.
    An array is joined with commas, [null] and [undefined] elements
    giving the empty string.  For an object the conversion calls
    [toString]: without an own property of that name it is the one
    of [Object.prototype] and returns the text below; an own property
    that came out of [JSON.parse] is not callable, [valueOf] then
    returns no primitive (the inherited one returns the object, an
    own one is not callable either) and the conversion throws a
    [TypeError]. *)
Fixpoint ToString (v : jsval) : completion Thrown jsstring :=
  match v with
  | VUndefined => Normal (lit "undefined")
  | VNull => Normal (lit "null")
  | VBool b => Normal (if b then lit "true" else lit "false")
  | VNum n => Normal (Number_toString n)
  | VStr s => Normal s
  | VArr items =>
      let element x :=
        match x with
        | VUndefined | VNull => Normal []
        | _ => ToString x
        end in
      (fix joined (items : list jsval) : completion Thrown jsstring :=
         match items with
         | [] => Normal []
         | [x] => element x
         | x :: rest =>
             match element x with
             | Throw e => Throw e
             | Normal a =>
                 match joined rest with
                 | Throw e => Throw e
                 | Normal b => Normal (a ++ lit "," ++ b)
                 end
             end
         end) items
  | VObj fields =>
      if has_field fields (lit "toString")
      then Throw (ThrownError noPrimitive)
      else Normal (lit "[object Object]")
  end.

End Conversion.

End JSValue.
Export JSValue.

(** ** activity-store.ts *)

Module ActivityStore.

Inductive Status := status_running | status_ok | status_error.

Record Activity := {
  id : N;
  command : jsstring;
  category : jsstring;
  intent : jsstring;
  params : jsval;
  status : Status;
  startedAt : Z;
  finishedAt : option Z;
  durationMs : option Z;
  payload : option jsval;
  error : option jsstring
}.

(** The fields of the [ActivityStore] object.  [nextId] is a counter
    that the code only ever increments by one from [1]; it is exact as
    a JavaScript number for the first [2^53] activities. *)
Record Store := {
  activities : list Activity;
  nextId : N
}.

Definition maxEntries : nat := 200.

(** [new ActivityStore()] *)
Definition empty : Store := {| activities := []; nextId := 1 |}.

(** What a call emits on the [EventEmitter]. *)
Inductive Emitted := change.

Section Labels.

(** The two labelling helpers of the audit view.  [describeIntent]
    converts fields of the parameters to strings and throws when such
    a conversion does. *)
Variable getCategory : jsstring -> jsstring.
Variable describeIntent : jsstring -> jsval -> completion Thrown jsstring.

(** [start(command, params)] when [Date.now()] reads [now].  The
    counter is incremented first; when [describeIntent] throws, the
    exception leaves [start] before a record is inserted or [change]
    emitted. *)
Definition start (now : Z) (s : Store) (command : jsstring) (params : jsval)
  : completion Thrown N * Store * list Emitted :=
  let id := nextId s in
  let category := getCategory command in
  match describeIntent command params with
  | Throw e =>
      (Throw e, {| activities := activities s; nextId := (id + 1)%N |}, [])
  | Normal intent =>
      let activity := {|
        id := id;
        command := command;
        category := category;
        intent := intent;
        params := params;
        status := status_running;
        startedAt := now;
        finishedAt := None;
        durationMs := None;
        payload := None;
        error := None
      |} in
      let unshifted := activity :: activities s in
      let truncated :=
        if (maxEntries <? length unshifted)%nat
        then take maxEntries unshifted
        else unshifted in
      (Normal id, {| activities := truncated; nextId := (id + 1)%N |},
       [change])
  end.

End Labels.

(** The assignments of [finish] on the record that was found. *)
Definition finished (now : Z) (ok : bool) (result : jsval)
           (err : option jsstring) (a : Activity) : Activity :=
  {| id := id a;
     command := command a;
     category := category a;
     intent := intent a;
     params := params a;
     status := if ok then status_ok else status_error;
     startedAt := startedAt a;
     finishedAt := Some now;
     durationMs := Some (now - startedAt a)%Z;
     payload := if ok then Some result else payload a;
     error := match err with
              | Some e => if eqb e [] then error a else Some e
              | None => error a
              end |}.

(** The first element satisfying [p] is replaced by its image under
    [f]: the record returned by [Array.prototype.find] is mutated in
    place. *)
Fixpoint update_first {A} (p : A -> bool) (f : A -> A) (l : list A) : list A :=
  match l with
  | [] => []
  | x :: r => if p x then f x :: r else x :: update_first p f r
  end.

(** [finish(id, ok, result, error)] when [Date.now()] reads [now]. *)
Definition finish (now : Z) (s : Store) (i : N) (ok : bool)
           (result : jsval) (err : option jsstring)
  : Store * list Emitted :=
  match List.find (fun a => (id a =? i)%N) (activities s) with
  | None => (s, [])
  | Some _ =>
      ({| activities :=
            update_first (fun a => (id a =? i)%N)
                         (finished now ok result err) (activities s);
          nextId := nextId s |},
       [change])
  end.

(** [getAll()] *)
Definition getAll (s : Store) : list Activity := activities s.

(** [clear()] *)
Definition clear (s : Store) : Store * list Emitted :=
  ({| activities := []; nextId := nextId s |}, [change]).

(** The calls that mutate the store. *)
Inductive Call :=
| CallStart (now : Z) (command : jsstring) (params : jsval)
| CallFinish (now : Z) (i : N) (ok : bool) (result : jsval)
             (err : option jsstring)
| CallClear.

Section Run.

Variable getCategory : jsstring -> jsstring.
Variable describeIntent : jsstring -> jsval -> completion Thrown jsstring.

Definition call (s : Store) (c : Call) : Store :=
  match c with
  | CallStart now command params =>
      snd (fst (start getCategory describeIntent now s command params))
  | CallFinish now i ok result err => fst (finish now s i ok result err)
  | CallClear => fst (clear s)
  end.

Definition run (s : Store) (calls : list Call) : Store :=
  fold_left call calls s.

End Run.

End ActivityStore.

(** ** commands/registry.ts *)

Module Registry.

(** The result envelope
    [{ok: true, payload} | {ok: false, error: {code, message}}]. *)
Inductive Envelope :=
| Success (payload : jsval)
| Failure (code message : jsstring).

Definition envelope_value (e : Envelope) : jsval :=
  match e with
  | Success payload =>
      VObj [(lit "ok", VBool true); (lit "payload", payload)]
  | Failure code message =>
      VObj [(lit "ok", VBool false);
            (lit "error", VObj [(lit "code", VStr code);
                                (lit "message", VStr message)])]
  end.

(** A handler applied to its parameters and awaited: it fulfils with a
    value, or it throws before returning a promise or its promise
    rejects. *)
Abbreviation CommandHandler := (jsval -> completion Thrown jsval).

Section Dispatch.

Variable getCategory : jsstring -> jsstring.
Variable describeIntent : jsstring -> jsval -> completion Thrown jsstring.
Variable Number_toString : Z -> jsstring.
(** The [handlers] map. *)
Variable handlers : gmap jsstring CommandHandler.

(** [err instanceof Error ? err.message : String(err)] *)
Definition error_message (err : Thrown) : completion Thrown jsstring :=
  match err with
  | ThrownError message => Normal message
  | ThrownValue v => ToString Number_toString v
  end.

(** [dispatchCommand(command, params)].  [now_start] and [now_finish]
    are the two readings of the clock; [meanwhile] is what other
    tasks did to the shared activity store while the handler was
    awaited.  [activityStore.start] is called before the [try], and
    the message is computed first in the [catch]: an exception of
    either leaves [dispatchCommand], whose promise is then rejected. *)
Definition dispatchCommand (now_start now_finish : Z)
           (meanwhile : ActivityStore.Store -> ActivityStore.Store)
           (store : ActivityStore.Store)
           (command : jsstring) (params : jsval)
  : completion Thrown Envelope * ActivityStore.Store :=
  match handlers !! command with
  | None =>
      (Normal (Failure (lit "UNKNOWN_COMMAND")
                       (lit "Unknown command: " ++ command)),
       store)
  | Some handler =>
      let '(started, store1, _) :=
        ActivityStore.start getCategory describeIntent
                            now_start store command params in
      match started with
      | Throw e => (Throw e, store1)
      | Normal activityId =>
          let awaited := handler params in
          let store2 := meanwhile store1 in
          match awaited with
          | Normal payload =>
              (Normal (Success payload),
               fst (ActivityStore.finish now_finish store2 activityId
                                         true payload None))
          | Throw err =>
              match error_message err with
              | Throw e => (Throw e, store2)
              | Normal message =>
                  (Normal (Failure (lit "COMMAND_ERROR") message),
                   fst (ActivityStore.finish now_finish store2 activityId
                                             false VUndefined
                                             (Some message)))
              end
          end
      end
  end.

End Dispatch.

End Registry.

(** ** gateway-client.ts *)

Module Gateway.

Local Open Scope completion_scope.

(** [readyState] of a socket. *)
Inductive ReadyState := CONNECTING | OPEN | CLOSING | CLOSED.

(** A socket that the client created: its rank among them.  The
    listeners that [connect] registers on a socket act on the client,
    not on that socket; the socket that [this.ws] holds may be another
    one. *)
Abbreviation Socket := nat (only parsing).

Inductive ConnectionState := disconnected | connecting | connected.

(** What waits for the response to a request: the [then]/[catch] pair
    of [sendConnect], or the [await] of [sendInvokeResult]. *)
Inductive Continuation := OnConnect | OnInvokeResult.

Record InvokeRequestPayload := {
  id : jsstring;
  nodeId : jsstring;
  command : jsstring;
  paramsJSON : option jsstring;
  timeoutMs : option Z
}.

(** The [params] object built by [sendInvokeResult].  A property that
    is absent or [undefined] is [None]: both are left out of the
    serialized frame. *)
Record InvokeResultParams := {
  result_id : jsstring;
  result_nodeId : jsstring;
  result_ok : jsval;
  result_payloadJSON : option jsstring;
  result_error : option jsval
}.

Inductive SignatureVersion := v1 | v2.

(** The parameters of a request.  Of the handshake parameters only
    what depends on the state of the client is kept: the version of
    the signed payload, the nonce and the token. *)
Inductive RequestParams :=
| ConnectParams (version : SignatureVersion) (nonce : option jsstring)
                (token : option jsstring)
| InvokeResult (p : InvokeResultParams).

(** [{type: "req", id, method, params}] *)
Record Frame := {
  frame_id : jsstring;
  frame_method : jsstring;
  frame_params : RequestParams
}.

(** What a callback does to the outside.  [Send] and [WsClose] name
    the socket they are called on; [NewWebSocket] creates the socket
    of the next rank. *)
Inductive Action :=
| Send (socket : Socket) (f : Frame)
| OnInvoke (frame : InvokeRequestPayload) (command : jsstring) (params : jsval)
| OnStateChange (s : ConnectionState)
| NewWebSocket
| WsClose (socket : Socket) (code : option Z)
| SetConnectTimer (ms : Z)
| ClearConnectTimer
| SetReconnectTimer (delay : Z).

(** The mutable fields of a [GatewayClient], and the sockets it has
    created, each with its [readyState]; [uuids] counts the
    identifiers drawn from [randomUUID] so far. *)
Record Client := {
  ws : option Socket;
  sockets : list ReadyState;
  pending : gmap jsstring Continuation;
  closed : bool;
  backoffMs : Z;
  state : ConnectionState;
  connectNonce : option jsstring;
  connectSent : bool;
  connectTimer : bool;
  uuids : nat
}.

(** [new GatewayClient(opts)] *)
Definition init : Client := {|
  ws := None;
  sockets := [];
  pending := ∅;
  closed := false;
  backoffMs := 1000;
  state := disconnected;
  connectNonce := None;
  connectSent := false;
  connectTimer := false;
  uuids := 0
|}.

Definition set_ws (w : option Socket) (c : Client) : Client :=
  {| ws := w; sockets := sockets c; pending := pending c;
     closed := closed c;
     backoffMs := backoffMs c; state := state c;
     connectNonce := connectNonce c; connectSent := connectSent c;
     connectTimer := connectTimer c; uuids := uuids c |}.

Definition set_sockets (l : list ReadyState) (c : Client) : Client :=
  {| ws := ws c; sockets := l; pending := pending c;
     closed := closed c;
     backoffMs := backoffMs c; state := state c;
     connectNonce := connectNonce c; connectSent := connectSent c;
     connectTimer := connectTimer c; uuids := uuids c |}.

Definition set_pending (p : gmap jsstring Continuation) (c : Client) : Client :=
  {| ws := ws c; sockets := sockets c; pending := p;
     closed := closed c;
     backoffMs := backoffMs c; state := state c;
     connectNonce := connectNonce c; connectSent := connectSent c;
     connectTimer := connectTimer c; uuids := uuids c |}.

Definition set_closed (b : bool) (c : Client) : Client :=
  {| ws := ws c; sockets := sockets c; pending := pending c;
     closed := b;
     backoffMs := backoffMs c; state := state c;
     connectNonce := connectNonce c; connectSent := connectSent c;
     connectTimer := connectTimer c; uuids := uuids c |}.

Definition set_backoffMs (b : Z) (c : Client) : Client :=
  {| ws := ws c; sockets := sockets c; pending := pending c;
     closed := closed c;
     backoffMs := b; state := state c;
     connectNonce := connectNonce c; connectSent := connectSent c;
     connectTimer := connectTimer c; uuids := uuids c |}.

Definition set_connectNonce (n : option jsstring) (c : Client) : Client :=
  {| ws := ws c; sockets := sockets c; pending := pending c;
     closed := closed c;
     backoffMs := backoffMs c; state := state c;
     connectNonce := n; connectSent := connectSent c;
     connectTimer := connectTimer c; uuids := uuids c |}.

Definition set_connectSent (b : bool) (c : Client) : Client :=
  {| ws := ws c; sockets := sockets c; pending := pending c;
     closed := closed c;
     backoffMs := backoffMs c; state := state c;
     connectNonce := connectNonce c; connectSent := b;
     connectTimer := connectTimer c; uuids := uuids c |}.

Definition set_connectTimer (b : bool) (c : Client) : Client :=
  {| ws := ws c; sockets := sockets c; pending := pending c;
     closed := closed c;
     backoffMs := backoffMs c; state := state c;
     connectNonce := connectNonce c; connectSent := connectSent c;
     connectTimer := b; uuids := uuids c |}.

Definition set_uuids (n : nat) (c : Client) : Client :=
  {| ws := ws c; sockets := sockets c; pending := pending c;
     closed := closed c;
     backoffMs := backoffMs c; state := state c;
     connectNonce := connectNonce c; connectSent := connectSent c;
     connectTimer := connectTimer c; uuids := n |}.

(** [this.ws.readyState], when [this.ws] is a socket. *)
Definition readyState (c : Client) : option ReadyState :=
  match ws c with
  | Some k => sockets c !! k
  | None => None
  end.

(** [setState(state)] *)
Definition setState (s : ConnectionState) (c : Client)
  : Client * list Action :=
  ({| ws := ws c; sockets := sockets c; pending := pending c;
      closed := closed c;
      backoffMs := backoffMs c; state := s;
      connectNonce := connectNonce c; connectSent := connectSent c;
      connectTimer := connectTimer c; uuids := uuids c |},
   [OnStateChange s]).

(** [if (this.connectTimer) { clearTimeout(this.connectTimer);
    this.connectTimer = null; }] *)
Definition clearConnectTimer (c : Client) : Client * list Action :=
  if connectTimer c then (set_connectTimer false c, [ClearConnectTimer])
  else (c, []).

(** What [close()] does to the [readyState] of the socket it is
    called on: a socket that is not closed is closing. *)
Definition closing (r : ReadyState) : ReadyState :=
  match r with
  | CLOSED => CLOSED
  | _ => CLOSING
  end.

(** What the completion of the opening handshake does to the
    [readyState] of a socket, before [open] is emitted. *)
Definition opened (r : ReadyState) : ReadyState :=
  match r with
  | CONNECTING => OPEN
  | _ => r
  end.

(** [this.ws?.close(code, ...)] *)
Definition close_ws (code : option Z) (c : Client) : Client * list Action :=
  match ws c with
  | Some k => (set_sockets (alter closing k (sockets c)) c, [WsClose k code])
  | None => (c, [])
  end.

(** [obj.key] read as a trimmed string:
    [typeof obj.key === "string" ? obj.key.trim() : ""] *)
Definition trimmed_string (v : jsval) : jsstring :=
  match v with
  | VStr s => trim s
  | _ => []
  end.

(** The value of the [params] that [sendInvokeResult] builds, and of
    the frame that [request] builds around it. *)
Definition result_value (p : InvokeResultParams) : jsval :=
  VObj ([(lit "id", VStr (result_id p));
         (lit "nodeId", VStr (result_nodeId p));
         (lit "ok", result_ok p)]
        ++ match result_payloadJSON p with
           | Some j => [(lit "payloadJSON", VStr j)]
           | None => []
           end
        ++ match result_error p with
           | Some e => [(lit "error", e)]
           | None => []
           end).

Definition frame_value (id method : jsstring) (params : jsval) : jsval :=
  VObj [(lit "type", VStr (lit "req")); (lit "id", VStr id);
        (lit "method", VStr method); (lit "params", params)].

(** An exception leaves a function with the client as it is then. *)
Definition leaving {A} (c : Client) (x : completion Thrown A)
  : completion (Thrown * Client) A :=
  match x with
  | Normal a => Normal a
  | Throw e => Throw (e, c)
  end.

Section Client.

(** [randomUUID()], by the number of identifiers drawn before. *)
Variable randomUUID : nat -> jsstring.
Variable JSON_parse : jsstring -> completion Thrown jsval.
(** [JSON.stringify(v)]: a string, [undefined], or an exception, which
    for a value without functions is an [Error] of the engine (a
    [TypeError], a [RangeError]); [Throw] carries its message. *)
Variable JSON_stringify : jsval -> completion jsstring (option jsstring).
Variable Number_toString : Z -> jsstring.
(** [opts.token] *)
Variable opts_token : option jsstring.
(** What [opts.onInvoke(command, params)] throws before it returns,
    if it does. *)
Variable onInvoke_throws : jsstring -> jsval -> option Thrown.

(** The reaction to a settled request; a rejection is an [Error],
    [Throw] carries its message.  The [then] of the handshake
    serializes the result for the log before it resets the backoff and
    reports [connected]; an exception there, like a rejection, reaches
    the [catch], which runs [this.ws?.close(1008, "connect failed")].
    The outcome of sending a result is only logged. *)
Definition settle (k : Continuation) (outcome : completion jsstring jsval)
           (c : Client) : Client * list Action :=
  match k, outcome with
  | OnConnect, Normal result =>
      match JSON_stringify result with
      | Normal _ => setState connected (set_backoffMs 1000 c)
      | Throw _ => close_ws (Some 1008%Z) c
      end
  | OnConnect, Throw _ => close_ws (Some 1008%Z) c
  | OnInvokeResult, _ => (c, [])
  end.

(** [JSON.stringify(frame)] in [request].  The parameters of the
    handshake hold strings, numbers and arrays of strings, on which
    it does not throw. *)
Definition serialize (f : Frame) : completion jsstring (option jsstring) :=
  match frame_params f with
  | ConnectParams _ _ _ => Normal (Some [])
  | InvokeResult p =>
      JSON_stringify (frame_value (frame_id f) (frame_method f)
                                  (result_value p))
  end.

(** [request(method, params)], with the continuation that the caller
    attaches to the returned promise.  An exception of
    [JSON.stringify(frame)] rejects the promise after the entry has
    been added to [pending], and nothing is sent. *)
Definition request (method : jsstring) (params : RequestParams)
           (k : Continuation) (c : Client) : Client * list Action :=
  match ws c, readyState c with
  | Some socket, Some OPEN =>
      let id := randomUUID (uuids c) in
      let frame := {| frame_id := id; frame_method := method;
                      frame_params := params |} in
      let c1 :=
        set_uuids (S (uuids c)) (set_pending (<[id := k]> (pending c)) c) in
      match serialize frame with
      | Normal _ => (c1, [Send socket frame])
      | Throw message => settle k (Throw message) c1
      end
  | _, _ => settle k (Throw (lit "not connected")) c
  end.

(** [flushPending(err)].  Every pending request is rejected and the
    map is cleared; the rejections are observed after the calling
    callback has set [this.ws] to [null], where neither continuation
    has an effect. *)
Definition flushPending (c : Client) : Client := set_pending ∅ c.

(** [scheduleReconnect()] *)
Definition scheduleReconnect (c : Client) : Client * list Action :=
  if closed c then (c, [])
  else
    let delay := backoffMs c in
    (set_backoffMs (Z.min (backoffMs c * 2) 30000) c,
     [SetReconnectTimer delay]).

(** [connect()]: the new socket is held in [this.ws]; a socket held
    before is neither closed nor forgotten by its listeners. *)
Definition connect (c : Client) : Client * list Action :=
  if closed c then (c, [])
  else
    let '(c1, a1) := setState connecting c in
    (set_ws (Some (length (sockets c1)))
            (set_sockets (sockets c1 ++ [CONNECTING]) c1),
     a1 ++ [NewWebSocket]).

(** [start()] *)
Definition start (c : Client) : Client * list Action :=
  connect (set_closed false c).

(** [stop()] *)
Definition stop (c : Client) : Client * list Action :=
  let c1 := set_closed true c in
  let '(c2, a2) := clearConnectTimer c1 in
  let '(c3, a3) := close_ws None c2 in
  let c4 := flushPending (set_ws None c3) in
  let '(c5, a5) := setState disconnected c4 in
  (c5, a2 ++ a3 ++ a5).

(** [queueConnect()] *)
Definition queueConnect (c : Client) : Client * list Action :=
  let c1 := set_connectSent false (set_connectNonce None c) in
  let a1 := if connectTimer c1 then [ClearConnectTimer] else [] in
  (set_connectTimer true c1, a1 ++ [SetConnectTimer 750]).

(** [this.opts.token?.trim() || undefined] *)
Definition token : option jsstring :=
  match opts_token with
  | Some t => if eqb (trim t) [] then None else Some (trim t)
  | None => None
  end.

(** [sendConnect()].  The device identity and the signature are
    computed by another module and only enter the parameters of the
    request. *)
Definition sendConnect (c : Client) : Client * list Action :=
  if connectSent c then (c, [])
  else
    let c1 := set_connectSent true c in
    let '(c2, a2) := clearConnectTimer c1 in
    let nonce := connectNonce c2 in
    let version :=
      match nonce with
      | Some s => if eqb s [] then v1 else v2
      | None => v1
      end in
    let '(c3, a3) :=
      request (lit "connect") (ConnectParams version nonce token)
              OnConnect c2 in
    (c3, a2 ++ a3).

(** [JSON.stringify(v)] where its exception is thrown on. *)
Definition stringify (v : jsval) : completion Thrown (option jsstring) :=
  match JSON_stringify v with
  | Normal j => Normal j
  | Throw message => Throw (ThrownError message)
  end.

(** [coerceInvokePayload(payload)] *)
Definition coerceInvokePayload (payload : jsval)
  : completion Thrown (option InvokeRequestPayload) :=
  match payload with
  | VObj _ | VArr _ =>
      let id := trimmed_string (get_prop_opt payload (lit "id")) in
      let nodeId := trimmed_string (get_prop_opt payload (lit "nodeId")) in
      let command := trimmed_string (get_prop_opt payload (lit "command")) in
      if eqb id [] || eqb nodeId [] || eqb command [] then Normal None
      else
        let* paramsJSON :=
          (match get_prop_opt payload (lit "paramsJSON") with
           | VStr s => Normal (Some s)
           | _ =>
               match get_prop_opt payload (lit "params") with
               | VUndefined => Normal None
               | params => stringify params
               end
           end) in
        Normal
          (Some {| id := id; nodeId := nodeId; command := command;
                   paramsJSON := paramsJSON;
                   timeoutMs :=
                     match get_prop_opt payload (lit "timeoutMs") with
                     | VNum n => Some n
                     | _ => None
                     end |})
  | _ => Normal None
  end.

(** [err instanceof Error ? err.message : String(err)] *)
Definition error_message (err : Thrown) : completion Thrown jsstring :=
  Registry.error_message Number_toString err.

(** [sendInvokeResult(frame, result)], up to the end of its [await].
    Reading [result.ok] and serializing the payload may throw; a
    failure of [request] is caught and logged. *)
Definition sendInvokeResult (frame : InvokeRequestPayload) (result : jsval)
           (c : Client) : completion Thrown (Client * list Action) :=
  let* ok := get_prop result (lit "ok") in
  let params payloadJSON error := {|
    result_id := id frame;
    result_nodeId := nodeId frame;
    result_ok := ok;
    result_payloadJSON := payloadJSON;
    result_error := error
  |} in
  let* params :=
    (if truthy ok
        && negb (is_undefined (get_prop_opt result (lit "payload")))
     then
       let* payloadJSON :=
         stringify (get_prop_opt result (lit "payload")) in
       Normal (params payloadJSON None)
     else if negb (truthy ok) then
       Normal (params None
                 (match get_prop_opt result (lit "error") with
                  | VUndefined => None
                  | error => Some error
                  end))
     else Normal (params None None)) in
  Normal (request (lit "node.invoke.result") (InvokeResult params)
                  OnInvokeResult c).

(** The envelope sent from the [catch] of [handleInvoke]. *)
Definition internal_error (message : jsstring) : jsval :=
  Registry.envelope_value
    (Registry.Failure (lit "INTERNAL_ERROR") message).

(** The [catch] block of [handleInvoke]: the message is computed
    first, and its conversion may throw. *)
Definition handleInvoke_catch (frame : InvokeRequestPayload) (err : Thrown)
           (c : Client) : completion Thrown (Client * list Action) :=
  let* message := error_message err in
  sendInvokeResult frame (internal_error message) c.

(** The parameters handed to the handler: [{}], unless
    [frame.paramsJSON] is a non-empty string that parses. *)
Definition invoke_params (frame : InvokeRequestPayload) : jsval :=
  match paramsJSON frame with
  | Some j =>
      if eqb j [] then VObj []
      else match JSON_parse j with
           | Normal v => v
           | Throw _ => VObj []
           end
  | None => VObj []
  end.

(** [handleInvoke(frame)] from its beginning to the [await] of the
    handler: the parameters are parsed and the handler is called; if
    the call itself throws, the [catch] block runs at once.  The
    result is the call of the handler, and what follows it: [Throw]
    is a rejection of the promise of [handleInvoke]. *)
Definition handleInvoke_call (frame : InvokeRequestPayload) (c : Client)
  : Action * completion Thrown (Client * list Action) :=
  let params := invoke_params frame in
  (OnInvoke frame (command frame) params,
   match onInvoke_throws (command frame) params with
   | Some err => handleInvoke_catch frame err c
   | None => Normal (c, [])
   end).

(** [void this.handleInvoke(payload)]: a rejection is not observed. *)
Definition invoke (frame : InvokeRequestPayload) (c : Client)
  : Client * list Action :=
  let '(called, rest) := handleInvoke_call frame c in
  match rest with
  | Normal r => (fst r, called :: snd r)
  | Throw _ => (c, [called])
  end.

(** [handleInvoke(frame)] from the moment the promise returned by the
    handler settles. *)
Definition handleInvoke_resume (frame : InvokeRequestPayload)
           (awaited : completion Thrown jsval) (c : Client)
  : completion Thrown (Client * list Action) :=
  match awaited with
  | Normal result =>
      try_catch (sendInvokeResult frame result c)
                (fun err => handleInvoke_catch frame err c)
  | Throw err => handleInvoke_catch frame err c
  end.

(** [handleMessage(raw)].  An exception leaves it with the client
    unchanged, but for the one of [new Error(...)], which is thrown
    after the entry has been deleted from [pending]. *)
Definition handleMessage (raw : jsstring) (c : Client)
  : completion (Thrown * Client) (Client * list Action) :=
  let* parsed := leaving c (JSON_parse raw) in
  let* type := leaving c (get_prop parsed (lit "type")) in
  let* event := leaving c (get_prop parsed (lit "event")) in
  if is_string type (lit "event") || truthy event then
    if is_string event (lit "connect.challenge") then
      let* payload := leaving c (get_prop parsed (lit "payload")) in
      let nonce :=
        if truthy payload then
          match get_prop_opt payload (lit "nonce") with
          | VStr s => Some s
          | _ => None
          end
        else None in
      match nonce with
      | Some s =>
          if eqb s [] then Normal (c, [])
          else Normal (sendConnect (set_connectNonce (Some s) c))
      | None => Normal (c, [])
      end
    else if is_string event (lit "node.invoke.request") then
      let* payload := leaving c (get_prop parsed (lit "payload")) in
      let* coerced := leaving c (coerceInvokePayload payload) in
      match coerced with
      | Some frame => Normal (invoke frame c)
      | None => Normal (c, [])
      end
    else Normal (c, [])
  else
    let* id := leaving c (get_prop parsed (lit "id")) in
    if is_string type (lit "res") || truthy id then
      match
        match id with
        | VStr s => option_map (fun k => (s, k)) (pending c !! s)
        | _ => None
        end
      with
      | None => Normal (c, [])
      | Some (s, k) =>
          let* payload := leaving c (get_prop parsed (lit "payload")) in
          if is_string (get_prop_opt payload (lit "status")) (lit "accepted")
          then Normal (c, [])
          else
            let c1 := set_pending (delete s (pending c)) c in
            let* ok := leaving c1 (get_prop parsed (lit "ok")) in
            if truthy ok then Normal (settle k (Normal payload) c1)
            else
              let* error := leaving c1 (get_prop parsed (lit "error")) in
              (* new Error(parsed.error?.message ?? "unknown error") *)
              let* message :=
                leaving c1
                  (match get_prop_opt error (lit "message") with
                   | VUndefined | VNull => Normal (lit "unknown error")
                   | v => ToString Number_toString v
                   end) in
              Normal (settle k (Throw message) c1)
      end
    else Normal (c, []).

(** The callbacks that the client registers, and its two public
    methods.  An event of a socket names the socket that emits it; its
    listener runs whichever socket the client holds by then.
    [ConnectTimerFired] runs the callback of the 750 ms timer whether
    or not the timer has been cleared: a run in which a cleared timer
    stays silent is one of the runs considered.  [InvokeSettled] is
    the settlement of the promise that [opts.onInvoke] returned for
    [frame]. *)
Inductive Event :=
| Start
| Stop
| WsOpen (socket : Socket)
| WsMessage (socket : Socket) (raw : jsstring)
| WsCloseEvent (socket : Socket) (code : Z)
| WsError (socket : Socket)
| ConnectTimerFired
| ReconnectTimerFired
| InvokeSettled (frame : InvokeRequestPayload)
                (awaited : completion Thrown jsval).

Definition step (c : Client) (e : Event) : Client * list Action :=
  match e with
  | Start => start c
  | Stop => stop c
  | WsOpen socket =>
      queueConnect (set_sockets (alter opened socket (sockets c)) c)
  | WsMessage _ raw =>
      (* try { this.handleMessage(...) } catch (err) { logError(...) } *)
      match handleMessage raw c with
      | Normal r => r
      | Throw (_, c1) => (c1, [])
      end
  | WsCloseEvent socket code =>
      let c0 := set_sockets (<[socket := CLOSED]> (sockets c)) c in
      let c1 := flushPending (set_ws None c0) in
      let '(c2, a2) := setState disconnected c1 in
      let '(c3, a3) := scheduleReconnect c2 in
      (c3, a2 ++ a3)
  | WsError _ => (c, [])
  | ConnectTimerFired => sendConnect c
  | ReconnectTimerFired => connect c
  | InvokeSettled frame awaited =>
      match handleInvoke_resume frame awaited c with
      | Normal r => r
      | Throw _ => (c, [])
      end
  end.

(** The client after a sequence of events, with everything it did. *)
Fixpoint run (c : Client) (events : list Event) : Client * list Action :=
  match events with
  | [] => (c, [])
  | e :: rest =>
      let '(c1, a1) := step c e in
      let '(c2, a2) := run c1 rest in
      (c2, a1 ++ a2)
  end.

End Client.

(** Projections of a log of actions. *)
Definition sent_frames (actions : list Action) : list Frame :=
  omap (fun a => match a with Send _ f => Some f | _ => None end) actions.

Definition handshakes (actions : list Action) : list Frame :=
  List.filter (fun f => eqb (frame_method f) (lit "connect"))
              (sent_frames actions).

Definition invoke_results (actions : list Action) : list InvokeResultParams :=
  omap (fun f => match frame_params f with
                 | InvokeResult p =>
                     if eqb (frame_method f) (lit "node.invoke.result")
                     then Some p else None
                 | _ => None
                 end)
       (sent_frames actions).

Definition invocations (actions : list Action)
  : list (InvokeRequestPayload * jsstring * jsval) :=
  omap (fun a => match a with
                 | OnInvoke frame command params => Some (frame, command, params)
                 | _ => None
                 end) actions.

Definition reconnect_delays (actions : list Action) : list Z :=
  omap (fun a => match a with SetReconnectTimer d => Some d | _ => None end)
       actions.

Definition handshake_completions (actions : list Action) : nat :=
  length (List.filter (fun a => match a with
                                | OnStateChange connected => true
                                | _ => false
                                end) actions).

End Gateway.

(** ** commands/terminal.ts: the working directory of the child *)

Module TerminalCwd.

(** The working directory passed to [spawn]: [None] is [undefined],
    with which the child inherits the directory of the process.
    [workspaceFolders] is [None] when no workspace is open, and
    otherwise lists the [fsPath] of each folder.  With a workspace
    without a folder, reading [folders[0].uri] throws a [TypeError],
    whose message [Throw] carries, and the promise of [terminalRun]
    is rejected. *)
Definition spawnCwd (processCwd : jsstring)
           (workspaceFolders : option (list jsstring))
           (cwd : option jsstring) : completion jsstring (option jsstring) :=
  let given :=
    match cwd with
    | Some p => if eqb p [] then None else Some p
    | None => None
    end in
  match given with
  | Some p =>
      match workspaceFolders with
      | Some (root :: _) => Normal (Some (Path.resolve processCwd [root; p]))
      | Some [] =>
          Throw (typeErrorMessage VUndefined (lit "uri"))
      | None => Normal None
      end
  | None =>
      match workspaceFolders with
      | Some (root :: _) => Normal (Some root)
      | _ => Normal None
      end
  end.

End TerminalCwd.

(** ** commands/terminal.ts *)

Module Terminal.

Record Config := {
  terminalEnabled : bool;
  readOnly : bool;
  terminalAllowlist : list jsstring;
  confirmWrites : bool
}.

Record TerminalRunParams := {
  command : jsstring;
  cwd : option jsstring;
  timeoutMs : option Z
}.

Record TerminalRunResult := {
  exitCode : option Z;
  stdout : jsstring;
  stderr : jsstring;
  timedOut : bool
}.

Definition MAX_OUTPUT : nat := Z.to_nat 100000.

(** The answer to the confirmation prompt. *)
Inductive Choice := Allow | Deny | Dismissed.

(** The part of [terminalRun] before the child is spawned: it throws,
    or it goes on with the delay of the timer,
    [params.timeoutMs ?? 60_000]. *)
Definition precheck (cfg : Config) (choice : Choice)
           (params : TerminalRunParams) : completion jsstring Z :=
  if negb (terminalEnabled cfg) then
    Throw (lit "Terminal execution is disabled. Enable openclaw.terminal.enabled to use this.")
  else if readOnly cfg then Throw (lit "Read-only mode is enabled")
  else if negb (Security.isCommandAllowed (command params)
                                          (terminalAllowlist cfg)) then
    Throw (lit "Command not in allowlist. Allowed: "
           ++ join (lit ", ") (terminalAllowlist cfg))
  else if confirmWrites cfg
          && negb (match choice with Allow => true | _ => false end) then
    Throw (lit "Command denied by user")
  else
    Normal (match timeoutMs params with
            | Some t => t
            | None => 60000%Z
            end).

(** The variables captured by the callbacks inside the promise:
    [timer] tells whether the timeout is still armed, [resolved] holds
    the value the promise was resolved with.  The executor is never
    given [reject]. *)
Record Run := {
  run_stdout : jsstring;
  run_stderr : jsstring;
  run_timedOut : bool;
  settled : bool;
  timer : bool;
  resolved : option TerminalRunResult
}.

(** The state when the executor returns: the child is spawned and the
    timer armed. *)
Definition spawned : Run := {|
  run_stdout := []; run_stderr := [];
  run_timedOut := false; settled := false;
  timer := true; resolved := None
|}.

Inductive ChildEvent :=
| StdoutData (chunk : jsstring)
| StderrData (chunk : jsstring)
| TimeoutFired
| ChildClose (code : option Z)
| ChildError (message : jsstring).

Inductive Effect := Kill.

(** [if (out.length < MAX_OUTPUT) out += chunk.slice(0, MAX_OUTPUT - out.length)] *)
Definition capture (out chunk : jsstring) : jsstring :=
  if (length out <? MAX_OUTPUT)%nat
  then out ++ take (MAX_OUTPUT - length out) chunk
  else out.

(** [finalize(exitCode)] *)
Definition finalize (code : option Z) (r : Run) : Run :=
  if settled r then r
  else {| run_stdout := run_stdout r; run_stderr := run_stderr r;
          run_timedOut := run_timedOut r;
          settled := true;
          timer := false;
          resolved := Some {| exitCode := code;
                              stdout := run_stdout r;
                              stderr := run_stderr r;
                              timedOut := run_timedOut r |} |}.

Definition step (r : Run) (e : ChildEvent) : Run * list Effect :=
  match e with
  | StdoutData chunk =>
      ({| run_stdout := capture (run_stdout r) chunk;
          run_stderr := run_stderr r; run_timedOut := run_timedOut r;
          settled := settled r; timer := timer r;
          resolved := resolved r |}, [])
  | StderrData chunk =>
      ({| run_stdout := run_stdout r;
          run_stderr := capture (run_stderr r) chunk;
          run_timedOut := run_timedOut r;
          settled := settled r; timer := timer r;
          resolved := resolved r |}, [])
  | TimeoutFired =>
      (* a cleared timer does not fire *)
      if timer r then
        ({| run_stdout := run_stdout r; run_stderr := run_stderr r;
            run_timedOut := true;
            settled := settled r; timer := false;
            resolved := resolved r |}, [Kill])
      else (r, [])
  | ChildClose code => (finalize code r, [])
  | ChildError _ => (finalize None r, [])
  end.

Definition run (r : Run) (events : list ChildEvent) : Run :=
  fold_left (fun r e => fst (step r e)) events r.

(** What the two data callbacks have captured after [events]. *)
Definition captured_stdout (out : jsstring) (events : list ChildEvent)
  : jsstring :=
  fold_left (fun out e => match e with
                          | StdoutData chunk => capture out chunk
                          | _ => out
                          end) events out.

Definition captured_stderr (out : jsstring) (events : list ChildEvent)
  : jsstring :=
  fold_left (fun out e => match e with
                          | StderrData chunk => capture out chunk
                          | _ => out
                          end) events out.

(** The arguments of [spawn] and of [setTimeout]. *)
Record SpawnArgs := {
  spawn_command : jsstring;
  spawn_cwd : option jsstring;
  spawn_timeout : Z
}.

(** [terminalRun(params)] up to the executor of the promise: the
    guards, then the working directory, then the delay.  [processCwd]
    is the working directory of the process and [workspaceFolders] the
    folders of the workspace, if one is open. *)
Definition spawnArgs (processCwd : jsstring)
           (workspaceFolders : option (list jsstring))
           (cfg : Config) (choice : Choice) (params : TerminalRunParams)
  : completion jsstring SpawnArgs :=
  match precheck cfg choice params with
  | Throw e => Throw e
  | Normal delay =>
      match TerminalCwd.spawnCwd processCwd workspaceFolders (cwd params) with
      | Throw e => Throw e
      | Normal dir =>
          Normal {| spawn_command := command params;
                    spawn_cwd := dir;
                    spawn_timeout := delay |}
      end
  end.

(** [terminalRun(params)] as far as [events] have been delivered:
    [Throw] is a rejected promise, [Normal None] a pending one and
    [Normal (Some r)] one resolved with [r]. *)
Definition terminalRun (processCwd : jsstring)
           (workspaceFolders : option (list jsstring))
           (cfg : Config) (choice : Choice)
           (params : TerminalRunParams) (events : list ChildEvent)
  : completion jsstring (option TerminalRunResult) :=
  match spawnArgs processCwd workspaceFolders cfg choice params with
  | Throw e => Throw e
  | Normal _ => Normal (resolved (run spawned events))
  end.

Definition is_data (e : ChildEvent) : bool :=
  match e with
  | StdoutData _ | StderrData _ => true
  | _ => false
  end.

Definition is_exit (e : ChildEvent) : bool :=
  match e with
  | ChildClose _ | ChildError _ => true
  | _ => false
  end.

Definition exit_code (e : ChildEvent) : option Z :=
  match e with
  | ChildClose code => code
  | _ => None
  end.

End Terminal.

(** ** commands/file.ts: [fileEdit] *)

Module FileEdit.

Record Config := {
  readOnly : bool;
  confirmWrites : bool
}.

Record FileEditParams := {
  path : jsstring;
  oldText : jsstring;
  newText : jsstring
}.

Record FileEditResult := {
  ok : bool;
  replacements : nat
}.

Inductive Choice := Allow | Deny | Dismissed.

(** A range of the document, by the offsets of its two ends (the
    arguments of [doc.positionAt]). *)
Definition Range : Type := nat * nat.

(** The loop that collects the occurrences.  One unit of [fuel] pays
    for one iteration; [None] means that the loop is still running
    when the fuel is spent. *)
Fixpoint findRanges (fuel : nat) (fullText oldText : jsstring)
         (searchStart : nat) (ranges : list Range) : option (list Range) :=
  match fuel with
  | O => None
  | S fuel' =>
      match indexOf fullText oldText searchStart with
      | None => Some ranges
      | Some idx =>
          findRanges fuel' fullText oldText (idx + length oldText)
                     (ranges ++ [(idx, idx + length oldText)])
      end
  end.

(** A [WorkspaceEdit] that replaces each of [ranges] (increasing and
    disjoint, in offsets of the unedited text) by [newText]; [pos] is
    the offset up to which [text] has been consumed. *)
Fixpoint replaceRanges (text : jsstring) (pos : nat) (ranges : list Range)
         (newText : jsstring) : jsstring :=
  match ranges with
  | [] => drop pos text
  | (s, e) :: rest =>
      take (s - pos) (drop pos text) ++ newText
      ++ replaceRanges text e rest newText
  end.

(** The files of the workspace, by resolved path. *)
Definition Files : Type := gmap jsstring jsstring.

(** [fileEdit(params)].  [applies] is the answer of
    [vscode.workspace.applyEdit]; an edit that applies is saved.  The
    outer [option] is [None] when the search loop does not finish
    within [fuel] iterations. *)
Definition fileEdit (fuel : nat) (cwd : jsstring)
           (workspaceFolders : list jsstring) (cfg : Config)
           (choice : Choice) (applies : bool) (files : Files)
           (params : FileEditParams)
  : option (completion jsstring FileEditResult * Files) :=
  if readOnly cfg then Some (Throw (lit "Read-only mode is enabled"), files)
  else if confirmWrites cfg
          && negb (match choice with Allow => true | _ => false end)
  then Some (Throw (lit "Edit denied by user"), files)
  else
    match Security.resolveWorkspacePath cwd workspaceFolders (path params) with
    | Throw e => Some (Throw e, files)
    | Normal uri =>
        match files !! uri with
        | None =>
            (* openTextDocument rejects; the message is the editor's *)
            Some (Throw (lit "cannot open " ++ uri), files)
        | Some fullText =>
            match findRanges fuel fullText (oldText params) 0 [] with
            | None => None
            | Some [] =>
                Some (Throw (lit "oldText not found in " ++ path params),
                      files)
            | Some ranges =>
                let files' :=
                  if applies
                  then <[uri := replaceRanges fullText 0 ranges
                                              (newText params)]> files
                  else files in
                Some (Normal {| ok := applies;
                                replacements := length ranges |},
                      files')
            end
        end
    end.

End FileEdit.

(** ** Vocabulary for the properties of paths *)

Module PathTerms.

Import Path.

Definition noslash (seg : jsstring) : Prop := ~ In slash seg.

(** A segment of a normalized path. *)
Definition clean (seg : jsstring) : Prop :=
  seg <> [] /\ seg <> dot /\ seg <> dotdot /\ noslash seg.

(** The absolute string on which [resolve] works for one root
    argument. *)
Definition base (cwd root : jsstring) : jsstring :=
  if eqb root [] then cwd
  else if isAbsolute root then root
       else cwd ++ sep ++ root.

(** The stack of segments of the normalized root. *)
Definition root_stack (cwd root : jsstring) : list jsstring :=
  fold_left (push_segment false) (split_on slash (base cwd root)) [].

End PathTerms.

(** ** Vocabulary for the properties of the activity store *)

Module ActivityStoreTerms.

Import ActivityStore.

Definition ids (s : Store) : list N := List.map id (activities s).

(** Newest first: along the list the identifiers decrease strictly. *)
Definition newest_first (l : list N) : Prop :=
  StronglySorted (fun a b => (b < a)%N) l.

(** What every reachable store satisfies. *)
Record invariant (s : Store) : Prop := {
  inv_bound : length (activities s) <= maxEntries;
  inv_order : newest_first (ids s);
  inv_fresh : Forall (fun i => (i < nextId s)%N) (ids s)
}.

End ActivityStoreTerms.

(** ** Vocabulary for the properties of the gateway client *)

Module GatewayTerms.

Import Gateway.

(** A challenge that carries a nonce: the nonce found in the parsed
    frame. *)
Definition challenge_nonce (parsed : completion Thrown jsval)
  : option jsstring :=
  match parsed with
  | Normal (VObj fields) =>
      if is_string (lookup_field fields (lit "event"))
                   (lit "connect.challenge")
      then match lookup_field fields (lit "payload") with
           | VObj payload =>
               match lookup_field payload (lit "nonce") with
               | VStr s => if eqb s [] then None else Some s
               | _ => None
               end
           | _ => None
           end
      else None
  | _ => None
  end.

(** An operation is quiet when it leaves the backoff alone, schedules no
    reconnection and completes no handshake. *)
Definition quiet (c : Client) (r : Client * list Action) : Prop :=
  backoffMs (fst r) = backoffMs c
  /\ reconnect_delays (snd r) = []
  /\ handshake_completions (snd r) = 0.



(** An operation is silent when it sends no handshake and leaves the
    flag [connectSent] alone. *)
Definition silent (c : Client) (r : Client * list Action) : Prop :=
  connectSent (fst r) = connectSent c /\ handshakes (snd r) = [].

(** One event sends at most one handshake, and only by raising the
    flag. *)
Definition sent_effect (c : Client) (r : Client * list Action) : Prop :=
  silent c r
  \/ (connectSent c = false /\ connectSent (fst r) = true
      /\ length (handshakes (snd r)) <= 1).

Definition is_open (e : Event) : bool :=
  match e with
  | WsOpen _ => true
  | _ => false
  end.

(** The state of a connection attempt whose socket is the one the
    client holds, is open, and whose handshake is still to be sent. *)
Record waiting (c : Client) : Prop := {
  waiting_unsent : connectSent c = false;
  waiting_open : readyState c = Some OPEN;
  waiting_nonce : connectNonce c = None;
  waiting_pending : forall s, pending c !! s <> Some OnConnect
}.

(** The events that leave the socket of an attempt held and open:
    frames and errors of any socket, the timer of the handshake and
    the settlement of a handler. *)
Definition in_attempt (e : Event) : bool :=
  match e with
  | WsMessage _ _ | WsError _ | ConnectTimerFired | InvokeSettled _ _ => true
  | _ => false
  end.

(** A field that normalizes to the empty string: not a string, or a
    string of white space only. *)
Definition blank (v : jsval) : Prop :=
  match v with
  | VStr s => forallb is_ws s = true
  | _ => True
  end.

(** An invocation payload without an identifier, a node or a command. *)
Definition malformed (payload : jsval) : Prop :=
  blank (get_prop_opt payload (lit "id"))
  \/ blank (get_prop_opt payload (lit "nodeId"))
  \/ blank (get_prop_opt payload (lit "command")).

(** The client holds a socket that is open. *)
Definition is_OPEN (c : Client) : bool :=
  match readyState c with
  | Some OPEN => true
  | _ => false
  end.

(** The message of the rejection of a request whose response is not
    [ok]: [new Error(parsed.error?.message ?? "unknown error")], where
    the conversion of the message to a string may throw. *)
Definition rejection (Number_toString : Z -> jsstring) (error : jsval)
  : completion Thrown jsstring :=
  match get_prop_opt error (lit "message") with
  | VUndefined | VNull => Normal (lit "unknown error")
  | v => ToString Number_toString v
  end.

Section Platform.

Variable randomUUID : nat -> jsstring.
Variable JSON_parse : jsstring -> completion Thrown jsval.
Variable JSON_stringify : jsval -> completion jsstring (option jsstring).
Variable opts_token : option jsstring.

(** The frame of the handshake. *)
Definition connect_frame (id : jsstring) (nonce : option jsstring) : Frame :=
  {| frame_id := id;
     frame_method := lit "connect";
     frame_params :=
       ConnectParams (match nonce with
                      | Some s => if eqb s [] then v1 else v2
                      | None => v1
                      end)
                     nonce (token opts_token) |}.

(** The events that send the handshake, with the nonce they supply. *)
Definition trigger (e : Event) : option (option jsstring) :=
  match e with
  | ConnectTimerFired => Some None
  | WsMessage _ raw =>
      match challenge_nonce (JSON_parse raw) with
      | Some s => Some (Some s)
      | None => None
      end
  | _ => None
  end.

(** The parameters can be handed over as text: they come as text, or
    not at all, or their serialization does not throw. *)
Definition serializable (pfields : list (jsstring * jsval)) : Prop :=
  match lookup_field pfields (lit "paramsJSON") with
  | VStr _ => True
  | _ =>
      match lookup_field pfields (lit "params") with
      | VUndefined => True
      | params => exists j, JSON_stringify params = Normal j
      end
  end.

(** The value sent for an exception that reaches the [catch] of
    [handleInvoke], by its message. *)
Definition internal_error_params (frame : InvokeRequestPayload)
           (message : jsstring) : InvokeResultParams :=
  {| result_id := id frame;
     result_nodeId := nodeId frame;
     result_ok := VBool false;
     result_payloadJSON := None;
     result_error :=
       Some (VObj [(lit "code", VStr (lit "INTERNAL_ERROR"));
                   (lit "message", VStr message)]) |}.

(** [request("node.invoke.result", params)] as [sendInvokeResult]
    awaits it. *)
Definition send_result (p : InvokeResultParams) (c : Client)
  : Client * list Action :=
  request randomUUID JSON_stringify (lit "node.invoke.result")
          (InvokeResult p) OnInvokeResult c.

(** The frame that [request] builds for a result on the client [c],
    and whether it is sent: the client holds an open socket and the
    frame serializes. *)
Definition result_frame (p : InvokeResultParams) (c : Client) : Frame :=
  {| frame_id := randomUUID (uuids c);
     frame_method := lit "node.invoke.result";
     frame_params := InvokeResult p |}.

Definition goes_out (p : InvokeResultParams) (c : Client) : bool :=
  is_OPEN c
  && match serialize JSON_stringify (result_frame p c) with
     | Normal _ => true
     | Throw _ => false
     end.

(** The frame of a result serializes: [JSON.stringify(frame)] does not
    throw in [request], whatever identifier the frame gets. *)
Definition sendable (p : InvokeResultParams) : Prop :=
  forall id,
    exists text,
      JSON_stringify
        (frame_value id (lit "node.invoke.result") (result_value p))
      = Normal text.

End Platform.

End GatewayTerms.

(** ** Vocabulary for the properties of [fileEdit] *)

Module FileEditTerms.

Import FileEdit.

(** [pat] occurs in [text] at offset [k]. *)
Definition occurs_at (text pat : jsstring) (k : nat) : Prop :=
  startsWith (drop k text) pat = true.

(** The occurrences of [pat] in [text] found from left to right, each
    search resuming where the previous match ends: the first occurrence
    at or after [start], then the same from its end. *)
Inductive scanned (text pat : jsstring) : nat -> list Range -> Prop :=
| scanned_done (start : nat) :
    (forall j, start <= j -> ~ occurs_at text pat j) ->
    scanned text pat start []
| scanned_match (start k : nat) (rest : list Range) :
    start <= k ->
    occurs_at text pat k ->
    (forall j, start <= j < k -> ~ occurs_at text pat j) ->
    scanned text pat (k + length pat) rest ->
    scanned text pat start ((k, k + length pat) :: rest).

End FileEditTerms.

(** ** activity-store.ts: the text helpers and the counters *)

Module ActivityLabels.

(** The one-character ellipsis U+2026. *)
Definition ellipsis : jsstring := [8230%N].

(** [truncStr(s, max)], for a bound that is a non-negative integer, as
    it is at its four call sites. *)
Definition truncStr (s : jsstring) (max : nat) : jsstring :=
  if (max <? length s)%nat then take max s ++ ellipsis else s.

(** [shortPath(p)] for an argument of any type.  [parts.slice(-2)]
    keeps the last two parts. *)
Definition shortPath (p : jsval) : jsstring :=
  match p with
  | VStr s =>
      if eqb s [] then []
      else
        let parts := split_on Path.slash s in
        if (3 <? length parts)%nat
        then ellipsis ++ Path.sep
             ++ join Path.sep (drop (length parts - 2) parts)
        else s
  | _ => []
  end.

(** [s.replace(pat, "")] for a pattern that is a string: its first
    occurrence is removed. *)
Definition removeFirst (pat s : jsstring) : jsstring :=
  match indexOf s pat 0 with
  | Some k => take k s ++ drop (k + length pat) s
  | None => s
  end.

(** [a || b] *)
Definition or_else (a b : jsval) : jsval := if truthy a then a else b.

Definition dquote : jsstring := [34%N].
Definition arrow : jsstring := [8594%N].

Section Intent.

Variable Number_toString : Z -> jsstring.

(** A template literal that ends in a converted value, and one that
    goes on after it. *)
Definition template (before : jsstring) (v : jsval)
  : completion Thrown jsstring :=
  match ToString Number_toString v with
  | Normal s => Normal (before ++ s)
  | Throw e => Throw e
  end.

Definition template_in (before : jsstring) (v : jsval) (after : jsstring)
  : completion Thrown jsstring :=
  match ToString Number_toString v with
  | Normal s => Normal (before ++ s ++ after)
  | Throw e => Throw e
  end.

(** [truncStr(String(v || ""), max)] after [before]. *)
Definition template_trunc (before : jsstring) (v : jsval) (max : nat)
  : completion Thrown jsstring :=
  match ToString Number_toString (or_else v (VStr [])) with
  | Normal s => Normal (before ++ truncStr s max)
  | Throw e => Throw e
  end.

(** The cases of the [switch] of [describeIntent], in the order of the
    source; each is given [p], the parameters or [{}]. *)
Definition cases
  : list (jsstring * (jsval -> completion Thrown jsstring)) :=
  let path p := get_prop_opt p (lit "path") in
  let line p := get_prop_opt p (lit "line") in
  let at_line before p :=
    template (before ++ shortPath (path p) ++ lit ":") (line p) in
  let or_text s alt := if eqb s [] then alt else s in
  [ (lit "vscode.file.read",
     fun p => Normal (lit "Read " ++ shortPath (path p)));
    (lit "vscode.file.write",
     fun p => Normal (lit "Write " ++ shortPath (path p)));
    (lit "vscode.file.edit",
     fun p => Normal (lit "Edit " ++ shortPath (path p)));
    (lit "vscode.file.delete",
     fun p => Normal (lit "Delete " ++ shortPath (path p)));
    (lit "vscode.dir.list",
     fun p => Normal (lit "List " ++ or_text (shortPath (path p)) (lit "/")));
    (lit "vscode.editor.active", fun _ => Normal (lit "Get active editor"));
    (lit "vscode.editor.openFiles", fun _ => Normal (lit "List open files"));
    (lit "vscode.editor.selections", fun _ => Normal (lit "Get selections"));
    (lit "vscode.diagnostics.get",
     fun p => Normal (if truthy (path p)
                      then lit "Diagnostics " ++ shortPath (path p)
                      else lit "Get diagnostics"));
    (lit "vscode.workspace.info", fun _ => Normal (lit "Workspace info"));
    (lit "vscode.lang.definition", at_line (lit "Go to definition "));
    (lit "vscode.lang.references", at_line (lit "Find references "));
    (lit "vscode.lang.hover", at_line (lit "Hover info "));
    (lit "vscode.lang.symbols",
     fun p => if truthy (path p)
              then Normal (lit "Symbols in " ++ shortPath (path p))
              else template_in (lit "Search symbols " ++ dquote)
                               (get_prop_opt p (lit "query")) dquote);
    (lit "vscode.lang.rename",
     fun p => template (lit "Rename " ++ arrow ++ lit " ")
                       (get_prop_opt p (lit "newName")));
    (lit "vscode.lang.codeActions", at_line (lit "Code actions "));
    (lit "vscode.lang.applyCodeAction",
     fun _ => Normal (lit "Apply code action"));
    (lit "vscode.code.format",
     fun p => Normal (lit "Format " ++ shortPath (path p)));
    (lit "vscode.git.status", fun _ => Normal (lit "Git status"));
    (lit "vscode.git.diff",
     fun p => Normal (if truthy (path p)
                      then lit "Diff " ++ shortPath (path p)
                      else lit "Diff all"));
    (lit "vscode.git.log",
     fun p => let count := get_prop_opt p (lit "count") in
              if truthy count
              then template_in (lit "Git log (") count (lit ")")
              else Normal (lit "Git log"));
    (lit "vscode.git.blame",
     fun p => Normal (lit "Blame " ++ shortPath (path p)));
    (lit "vscode.git.stage",
     fun p => Normal (lit "Stage "
                      ++ or_text (shortPath (path p)) (lit "all")));
    (lit "vscode.git.unstage",
     fun p => Normal (lit "Unstage "
                      ++ or_text (shortPath (path p)) (lit "all")));
    (lit "vscode.git.commit",
     fun p => template_trunc (lit "Commit: ")
                             (get_prop_opt p (lit "message")) 40);
    (lit "vscode.git.stash",
     fun p => template (lit "Stash ")
                       (or_else (get_prop_opt p (lit "action"))
                                (VStr (lit "push"))));
    (lit "vscode.test.list", fun _ => Normal (lit "List tests"));
    (lit "vscode.test.run",
     fun p => template (lit "Run tests ")
                       (or_else (get_prop_opt p (lit "pattern")) (VStr [])));
    (lit "vscode.test.results", fun _ => Normal (lit "Test results"));
    (lit "vscode.debug.launch",
     fun p => template (lit "Launch debug ")
                       (or_else (get_prop_opt p (lit "config")) (VStr [])));
    (lit "vscode.debug.stop", fun _ => Normal (lit "Stop debug"));
    (lit "vscode.debug.breakpoint", at_line (lit "Breakpoint "));
    (lit "vscode.debug.evaluate",
     fun p => template_trunc (lit "Eval: ")
                             (get_prop_opt p (lit "expression")) 30);
    (lit "vscode.debug.stackTrace", fun _ => Normal (lit "Stack trace"));
    (lit "vscode.debug.variables", fun _ => Normal (lit "Variables"));
    (lit "vscode.debug.status", fun _ => Normal (lit "Debug status"));
    (lit "vscode.terminal.run",
     fun p => template_trunc (lit "Run: ")
                             (get_prop_opt p (lit "command")) 60);
    (lit "vscode.agent.run",
     fun p => template_trunc (lit "Agent: ")
                             (get_prop_opt p (lit "prompt")) 50);
    (lit "vscode.agent.status", fun _ => Normal (lit "Agent status"));
    (lit "vscode.agent.setup", fun _ => Normal (lit "Agent setup")) ].

(** [describeIntent(command, params)].  None of the keys read is a
    property of a number, a string, a boolean or an array, so that
    [p.key] is [undefined] on them. *)
Definition describeIntent (command : jsstring) (params : jsval)
  : completion Thrown jsstring :=
  let p := or_else params (VObj []) in
  match List.find (fun c => eqb (fst c) command) cases with
  | Some c => snd c p
  | None => Normal (removeFirst (lit "vscode.") command)
  end.

End Intent.

End ActivityLabels.

Module ActivityStats.

Import ActivityStore.

Record Stats := {
  total : nat;
  ok : nat;
  errors : nat;
  running : nat
}.

Definition has_status (st : Status) (a : Activity) : bool :=
  match st, status a with
  | status_running, status_running => true
  | status_ok, status_ok => true
  | status_error, status_error => true
  | _, _ => false
  end.

(** [getStats()] *)
Definition getStats (s : Store) : Stats :=
  {| total := length (activities s);
     ok := length (List.filter (has_status status_ok) (activities s));
     errors := length (List.filter (has_status status_error) (activities s));
     running :=
       length (List.filter (has_status status_running) (activities s)) |}.

End ActivityStats.

(** ** setup-wizard.ts: escaping and the allow-list field *)

Module SetupWizard.

(** [s.replace(/c/g, rep)] for a pattern that is one literal character
    and a replacement without [$]. *)
Definition replaceAll (c : N) (rep : jsstring) (s : jsstring) : jsstring :=
  flat_map (fun x => if (x =? c)%N then rep else [x]) s.

Definition amp : N := 38.
Definition lt : N := 60.
Definition gt : N := 62.
Definition quot : N := 34.
Definition comma : N := 44.

(** [esc(s)] *)
Definition esc (s : jsstring) : jsstring :=
  replaceAll quot (lit "&quot;")
    (replaceAll gt (lit "&gt;")
       (replaceAll lt (lit "&lt;")
          (replaceAll amp (lit "&amp;") s))).

(** The text of the allow-list field: [allowlist.join(", ")]. *)
Definition allowlistText (allowlist : list jsstring) : jsstring :=
  join (lit ", ") allowlist.

(** What is saved from the field:
    [text.split(",").map((s) => s.trim()).filter(Boolean)]. *)
Definition parseAllowlist (text : jsstring) : list jsstring :=
  List.filter (fun s => negb (eqb s []))
              (List.map trim (split_on comma text)).

End SetupWizard.

(** ** Vocabulary for the escaping and the allow-list field *)

Module SetupWizardTerms.

Import SetupWizard.

(** What [esc] writes for one character. *)
Definition esc_char (x : N) : jsstring :=
  if (x =? amp)%N then lit "&amp;"
  else if (x =? lt)%N then lit "&lt;"
  else if (x =? gt)%N then lit "&gt;"
  else if (x =? quot)%N then lit "&quot;"
  else [x].

(** An entry as the allow-list is meant to hold it: not empty, without
    white space at its ends and without a comma. *)
Definition entry (e : jsstring) : Prop :=
  e <> [] /\ trim e = e /\ ~ In comma e.

End SetupWizardTerms.

(** ** Vocabulary for the history of the activity store *)

Module ActivityHistory.

Import ActivityStore.

(** How many of [calls] are calls of [start]. *)
Definition starts (calls : list Call) : nat :=
  length (List.filter (fun c => match c with
                                | CallStart _ _ _ => true
                                | _ => false
                                end) calls).

Definition is_clear (c : Call) : bool :=
  match c with
  | CallClear => true
  | _ => false
  end.

Section Labels.

Variable describeIntent : jsstring -> jsval -> completion Thrown jsstring.

(** The calls that insert a record: the calls of [start] in which
    [describeIntent] returns. *)
Definition inserts (c : Call) : bool :=
  match c with
  | CallStart _ command params =>
      match describeIntent command params with
      | Normal _ => true
      | Throw _ => false
      end
  | _ => false
  end.

(** How many of [calls] insert a record. *)
Definition inserted (calls : list Call) : nat :=
  length (List.filter inserts calls).

(** The identifiers of the records inserted and not cleared since,
    newest first: [n] is the counter before [calls] and [acc] are the
    identifiers inserted before them.  Every call of [start] takes the
    next identifier, also a call that inserts nothing; [clear] forgets
    the identifiers inserted so far. *)
Fixpoint issued (n : N) (acc : list N) (calls : list Call) : list N :=
  match calls with
  | [] => acc
  | CallClear :: rest => issued n [] rest
  | CallFinish _ _ _ _ _ :: rest => issued n acc rest
  | CallStart now command params :: rest =>
      issued (n + 1)%N
             (if inserts (CallStart now command params)
              then n :: acc else acc)
             rest
  end.

End Labels.

End ActivityHistory.

(** ** commands/registry.ts: the table of handlers *)

Module RegistryTable.

Import Registry.

(** The names passed to [handlers.set], in the order of the calls. *)
Definition names : list jsstring :=
  [lit "vscode.file.read";
   lit "vscode.file.write";
   lit "vscode.file.edit";
   lit "vscode.file.delete";
   lit "vscode.dir.list";
   lit "vscode.editor.active";
   lit "vscode.diagnostics.get";
   lit "vscode.workspace.info";
   lit "vscode.lang.definition";
   lit "vscode.lang.references";
   lit "vscode.lang.hover";
   lit "vscode.lang.symbols";
   lit "vscode.lang.rename";
   lit "vscode.lang.codeActions";
   lit "vscode.lang.applyCodeAction";
   lit "vscode.code.format";
   lit "vscode.editor.openFiles";
   lit "vscode.editor.selections";
   lit "vscode.test.list";
   lit "vscode.test.run";
   lit "vscode.test.results";
   lit "vscode.git.status";
   lit "vscode.git.diff";
   lit "vscode.git.log";
   lit "vscode.git.blame";
   lit "vscode.git.stage";
   lit "vscode.git.unstage";
   lit "vscode.git.commit";
   lit "vscode.git.stash";
   lit "vscode.debug.launch";
   lit "vscode.debug.stop";
   lit "vscode.debug.breakpoint";
   lit "vscode.debug.evaluate";
   lit "vscode.debug.stackTrace";
   lit "vscode.debug.variables";
   lit "vscode.debug.status";
   lit "vscode.terminal.run";
   lit "vscode.agent.run";
   lit "vscode.agent.setup";
   lit "vscode.agent.status"].

(** The keys of a [Map] come in the order of their first insertion. *)
Fixpoint first_insertions (seen names : list jsstring) : list jsstring :=
  match names with
  | [] => []
  | name :: rest =>
      if existsb (eqb name) seen then first_insertions seen rest
      else name :: first_insertions (name :: seen) rest
  end.

(** [getRegisteredCommands()]: [[...handlers.keys()]] *)
Definition getRegisteredCommands : list jsstring :=
  first_insertions [] names.

Section Handlers.

(** The function that the module registers under a name. *)
Variable handler_of : jsstring -> CommandHandler.

(** The map [handlers] once the module is loaded: each call of
    [handlers.set] adds or replaces one entry. *)
Definition handlers : gmap jsstring CommandHandler :=
  fold_left (fun m name => <[name := handler_of name]> m) names ∅.

End Handlers.

End RegistryTable.

(** ** Vocabulary for the audit trail *)

Module AuditTerms.

Import ActivityStore ActivityStats.

(** The number of records with a given status. *)
Definition count (st : Status) (l : list Activity) : nat :=
  length (List.filter (has_status st) l).

(** A record with the identifier [i] is the one that was started for
    [command] and [params] at the time [t]. *)
Definition tracked (i : N) (command : jsstring) (params : jsval) (t : Z)
           (a : Activity) : Prop :=
  id a = i ->
  ActivityStore.command a = command
  /\ ActivityStore.params a = params
  /\ startedAt a = t.

End AuditTerms.

(** ** Vocabulary for the state of the gateway client *)

Module GatewayInvariants.

Import Gateway.

(** The states reported through [opts.onStateChange]. *)
Definition reported (actions : list Action) : list ConnectionState :=
  omap (fun a => match a with OnStateChange s => Some s | _ => None end)
       actions.

(** The last of the states reported after [s], or [s] itself. *)
Definition last_state (s : ConnectionState) (states : list ConnectionState)
  : ConnectionState :=
  fold_left (fun _ s' => s') states s.

(** An action that sends nothing, opens no socket, schedules no
    reconnection and reports no state. *)
Definition inert (a : Action) : bool :=
  match a with
  | Send _ _ | NewWebSocket | SetReconnectTimer _ | OnStateChange _ => false
  | _ => true
  end.

Definition is_connected (s : ConnectionState) : bool :=
  match s with
  | connected => true
  | _ => false
  end.

(** What the operations inside one attempt may do: they leave [closed]
    alone and change the state only by reporting it; without a socket
    and without a pending request they leave both absent and do
    nothing that shows; with a socket they keep one and report nothing
    but [connected]. *)
Record tame (c : Client) (r : Client * list Action) : Prop := {
  tame_closed : closed (fst r) = closed c;
  tame_state : state (fst r) = last_state (state c) (reported (snd r));
  tame_dead : ws c = None -> pending c = ∅ ->
              ws (fst r) = None /\ pending (fst r) = ∅
              /\ forallb inert (snd r) = true;
  tame_live : ws c <> None ->
              ws (fst r) <> None
              /\ forallb is_connected (reported (snd r)) = true
}.

(** The socket and the state agree, and nothing is pending without a
    socket. *)
Record coherent (c : Client) : Prop := {
  coh_state : ws c = None <-> state c = disconnected;
  coh_pending : ws c = None -> pending c = ∅
}.

(** A client that has been stopped and not started again. *)
Record stopped (c : Client) : Prop := {
  stopped_closed : closed c = true;
  stopped_ws : ws c = None;
  stopped_pending : pending c = ∅;
  stopped_state : state c = disconnected
}.

(** What a stopped client may still do: no frame, no socket, no
    reconnection, and no state but [disconnected]. *)
Definition after_stop (a : Action) : bool :=
  match a with
  | Send _ _ | NewWebSocket | SetReconnectTimer _ => false
  | OnStateChange s =>
      match s with
      | disconnected => true
      | _ => false
      end
  | _ => true
  end.

Definition is_start (e : Event) : bool :=
  match e with
  | Start => true
  | _ => false
  end.

End GatewayInvariants.

(** ** Vocabulary for the events of a child process *)

Module TerminalTerms.

Import Terminal.

Definition is_timeout (e : ChildEvent) : bool :=
  match e with
  | TimeoutFired => true
  | _ => false
  end.

(** The events delivered before the child closes or fails. *)
Definition before_exit (events : list ChildEvent) : list ChildEvent :=
  takeWhile (fun e => negb (is_exit e)) events.

(** The event with which the child closes or fails. *)
Definition first_exit (events : list ChildEvent) : option ChildEvent :=
  List.find is_exit events.

(** Everything written to a stream. *)
Definition stdout_text (events : list ChildEvent) : jsstring :=
  flat_map (fun e => match e with StdoutData chunk => chunk | _ => [] end)
           events.

Definition stderr_text (events : list ChildEvent) : jsstring :=
  flat_map (fun e => match e with StderrData chunk => chunk | _ => [] end)
           events.

(** What the callbacks do to the child along a sequence of events. *)
Fixpoint effects (r : Run) (events : list ChildEvent) : list Effect :=
  match events with
  | [] => []
  | e :: rest => snd (step r e) ++ effects (fst (step r e)) rest
  end.

(** A run that has not settled: the timer is armed exactly as long as
    it has not fired, and no more than [MAX_OUTPUT] code units are
    kept of either stream. *)
Record unsettled (r : Run) : Prop := {
  uns_settled : settled r = false;
  uns_resolved : resolved r = None;
  uns_timer : timer r = negb (run_timedOut r);
  uns_stdout : length (run_stdout r) <= MAX_OUTPUT;
  uns_stderr : length (run_stderr r) <= MAX_OUTPUT
}.

End TerminalTerms.

(** ** commands/file.ts: [fileWrite] and [fileDelete] *)

Module FileOps.

Import FileEdit.

Local Open Scope completion_scope.

(** What the two handlers ask of the editor, in the order of the
    calls: the confirmation prompt with its message, and the calls of
    [vscode.workspace.fs]. *)
Inductive Effect :=
| ShowWarning (message : jsstring)
| Stat (uri : jsstring)
| WriteFile (uri content : jsstring)
| Delete (uri : jsstring) (useTrash : bool).

Record FileWriteParams := {
  write_path : jsstring;
  content : jsstring
}.

Record FileWriteResult := {
  write_ok : bool;
  created : bool
}.

Definition allowed (choice : Choice) : bool :=
  match choice with
  | Allow => true
  | _ => false
  end.

(** [fileWrite(params)].  [choice] is the answer to the prompt, if it
    is shown; [found] tells whether [fs.stat] finds the file;
    [written] is the outcome of [fs.writeFile].  The content is
    recorded as the text that is encoded. *)
Definition fileWrite (cwd : jsstring) (workspaceFolders : list jsstring)
           (cfg : Config) (choice : Choice) (found : bool)
           (written : completion jsstring unit) (params : FileWriteParams)
  : completion jsstring FileWriteResult * list Effect :=
  if readOnly cfg then (Throw (lit "Read-only mode is enabled"), [])
  else
    match Security.resolveWorkspacePath cwd workspaceFolders
                                        (write_path params) with
    | Throw e => (Throw e, [])
    | Normal uri =>
        let prompt :=
          if confirmWrites cfg
          then [ShowWarning (lit "OpenClaw wants to write to: "
                             ++ write_path params)]
          else [] in
        if confirmWrites cfg && negb (allowed choice)
        then (Throw (lit "Write denied by user"), prompt)
        else
          let created := negb found in
          let calls := prompt ++ [Stat uri; WriteFile uri (content params)] in
          match written with
          | Throw e => (Throw e, calls)
          | Normal _ =>
              (Normal {| write_ok := true; created := created |}, calls)
          end
    end.

Record FileDeleteParams := {
  delete_path : jsstring;
  useTrash : jsval
}.

(** [fileDelete(params)]; [deleted] is the outcome of [fs.delete].
    The result [{ok: true}] is its field. *)
Definition fileDelete (cwd : jsstring) (workspaceFolders : list jsstring)
           (cfg : Config) (choice : Choice)
           (deleted : completion jsstring unit) (params : FileDeleteParams)
  : completion jsstring bool * list Effect :=
  if readOnly cfg then (Throw (lit "Read-only mode is enabled"), [])
  else
    let prompt :=
      if confirmWrites cfg
      then [ShowWarning (lit "OpenClaw wants to delete: "
                         ++ delete_path params)]
      else [] in
    if confirmWrites cfg && negb (allowed choice)
    then (Throw (lit "Delete denied by user"), prompt)
    else
      match Security.resolveWorkspacePath cwd workspaceFolders
                                          (delete_path params) with
      | Throw e => (Throw e, prompt)
      | Normal uri =>
          (* params.useTrash !== false *)
          let useTrash :=
            match useTrash params with
            | VBool false => false
            | _ => true
            end in
          let calls := prompt ++ [Delete uri useTrash] in
          match deleted with
          | Throw e => (Throw e, calls)
          | Normal _ => (Normal true, calls)
          end
      end.

End FileOps.

(** ** Vocabulary for the file handlers *)

Module FileTerms.

Import FileEdit FileEditTerms.

(** A path inside the first workspace folder: the resolved folder
    itself, or what follows it and a separator. *)
Definition inside (cwd : jsstring) (workspaceFolders : list jsstring)
           (uri : jsstring) : Prop :=
  exists root rest,
    workspaceFolders = root :: rest
    /\ (uri = Path.resolve cwd [root]
        \/ exists t, t <> []
                     /\ uri = Path.resolve cwd [root] ++ Path.sep ++ t).

(** The user has let the handler go on: nothing is to be confirmed, or
    the answer was [Allow]. *)
Definition confirmed (cfg : Config) (choice : Choice) : Prop :=
  confirmWrites cfg = true -> choice = Allow.

(** [text] cut at the occurrences of [pat] found from left to right,
    each search resuming where the previous occurrence ends: the
    pieces between the occurrences.  In a piece followed by an
    occurrence, [pat] occurs nowhere before that occurrence; in the
    last piece it occurs nowhere. *)
Inductive cut (pat : jsstring) : jsstring -> list jsstring -> Prop :=
| cut_last (text : jsstring) :
    (forall j, ~ occurs_at text pat j) ->
    cut pat text [text]
| cut_piece (piece text : jsstring) (pieces : list jsstring) :
    (forall j, j < length piece -> ~ occurs_at (piece ++ pat ++ text) pat j) ->
    cut pat text pieces ->
    cut pat (piece ++ pat ++ text) (piece :: pieces).

End FileTerms.

(** ** A concrete gateway, for examples *)

Module Example.

Definition randomUUID (n : nat) : jsstring := lit "uuid-" ++ [N.of_nat n].

Definition challenge : jsval :=
  VObj [(lit "type", VStr (lit "event"));
        (lit "event", VStr (lit "connect.challenge"));
        (lit "payload", VObj [(lit "nonce", VStr (lit "abc"))])].

Definition connected_response : jsval :=
  VObj [(lit "type", VStr (lit "res"));
        (lit "id", VStr (randomUUID 0));
        (lit "ok", VBool true);
        (lit "payload", VObj [])].

Definition invoke (id : jsstring) : jsval :=
  VObj [(lit "type", VStr (lit "event"));
        (lit "event", VStr (lit "node.invoke.request"));
        (lit "payload",
         VObj [(lit "id", VStr id);
               (lit "nodeId", VStr (lit "node-1"));
               (lit "command", VStr (lit "vscode.git.status"));
               (lit "paramsJSON", VStr (lit "{}"))])].

(** The frames that the examples receive, by their text. *)
Definition JSON_parse (raw : jsstring) : completion Thrown jsval :=
  if eqb raw (lit "challenge") then Normal challenge
  else if eqb raw (lit "connected") then Normal connected_response
  else if eqb raw (lit "invoke") then Normal (invoke (lit "inv-1"))
  else if eqb raw (lit "invoke-blank") then Normal (invoke (lit "  "))
  else if eqb raw (lit "{}") then Normal (VObj [])
  else Throw (ThrownError (lit "Unexpected token")).

Definition JSON_stringify (v : jsval) : completion jsstring (option jsstring) :=
  Normal (Some (lit "{}")).

(** The decimal digits of an integer. *)
Definition Number_toString (n : Z) : jsstring :=
  lit (NilZero.string_of_int (Z.to_int n)).

Definition opts_token : option jsstring := None.

Definition onInvoke_throws (command : jsstring) (params : jsval)
  : option Thrown := None.

Definition step :=
  Gateway.step randomUUID JSON_parse JSON_stringify Number_toString
               opts_token onInvoke_throws.

Definition run :=
  Gateway.run randomUUID JSON_parse JSON_stringify Number_toString
              opts_token onInvoke_throws.

(** The frame that [invoke] is coerced to. *)
Definition frame : Gateway.InvokeRequestPayload :=
  {| Gateway.id := lit "inv-1";
     Gateway.nodeId := lit "node-1";
     Gateway.command := lit "vscode.git.status";
     Gateway.paramsJSON := Some (lit "{}");
     Gateway.timeoutMs := None |}.

(** A client that has just created the socket of a new attempt. *)
Definition connecting : Gateway.Client := fst (step Gateway.init Gateway.Start).

End Example.

(* ===================================================================== *)
(** * Part II: properties *)
(* ===================================================================== *)

(** ** Strings *)

Module JStrFacts.

Lemma eqb_eq (a b : jsstring) : eqb a b = true <-> a = b.
Proof. unfold eqb. apply bool_decide_eq_true. Qed.

Lemma eqb_neq (a b : jsstring) : eqb a b = false <-> a <> b.
Proof. unfold eqb. apply bool_decide_eq_false. Qed.

Lemma eqb_refl (a : jsstring) : eqb a a = true.
Proof. apply eqb_eq. reflexivity. Qed.

Lemma eqb_nil_r (a : jsstring) :
  eqb a [] = match a with [] => true | _ => false end.
Proof.
  destruct a; [apply eqb_refl | apply eqb_neq; discriminate].
Qed.

Lemma startsWith_spec (s p : jsstring) :
  startsWith s p = true <-> exists t, s = p ++ t.
Proof.
  revert s. induction p as [|a p IH]; intros s; simpl.
  - split; [intros _; exists s; reflexivity | reflexivity].
  - destruct s as [|b s].
    + split; [discriminate | intros [t Ht]; discriminate].
    + rewrite andb_true_iff, N.eqb_eq, IH. split.
      * intros [-> [t ->]]. exists t. reflexivity.
      * intros [t Ht]. injection Ht as -> ->. split; [reflexivity | eauto].
Qed.

Lemma startsWith_app (p a b : jsstring) :
  startsWith (p ++ a) (p ++ b) = startsWith a b.
Proof.
  induction p as [|c p IH]; simpl; [reflexivity|].
  rewrite N.eqb_refl. exact IH.
Qed.

Lemma startsWith_length (s p : jsstring) :
  startsWith s p = true -> length p <= length s.
Proof.
  intros H. apply startsWith_spec in H as [t ->].
  rewrite length_app. lia.
Qed.

Lemma startsWith_refl_app (p t : jsstring) : startsWith (p ++ t) p = true.
Proof. apply startsWith_spec. eauto. Qed.

(** *** Dropping and taking while a test holds *)

Lemma takeWhile_dropWhile {A} (p : A -> bool) (l : list A) :
  takeWhile p l ++ dropWhile p l = l.
Proof.
  induction l as [|x l IH]; simpl; [reflexivity|].
  destruct (p x); simpl; [rewrite IH|]; reflexivity.
Qed.

Lemma takeWhile_all {A} (p : A -> bool) (l : list A) :
  forallb p (takeWhile p l) = true.
Proof.
  induction l as [|x l IH]; simpl; [reflexivity|].
  destruct (p x) eqn:E; simpl; [rewrite E; exact IH | reflexivity].
Qed.

Lemma dropWhile_head {A} (p : A -> bool) (l : list A) x r :
  dropWhile p l = x :: r -> p x = false.
Proof.
  induction l as [|y l IH]; simpl; [discriminate|].
  destruct (p y) eqn:E; [exact IH|].
  intros H. injection H as -> _. exact E.
Qed.

Lemma dropWhile_app_all {A} (p : A -> bool) (l r : list A) :
  forallb p l = true -> dropWhile p (l ++ r) = dropWhile p r.
Proof.
  induction l as [|x l IH]; simpl; [reflexivity|].
  intros H. apply andb_true_iff in H as [-> H]. auto.
Qed.

Lemma dropWhile_stop {A} (p : A -> bool) (x : A) (r : list A) :
  p x = false -> dropWhile p (x :: r) = x :: r.
Proof. intros H. simpl. rewrite H. reflexivity. Qed.

Lemma dropWhile_nil_iff {A} (p : A -> bool) (l : list A) :
  dropWhile p l = [] <-> forallb p l = true.
Proof.
  induction l as [|x l IH]; simpl; [tauto|].
  destruct (p x); simpl; [exact IH | split; discriminate].
Qed.

Lemma forallb_rev {A} (p : A -> bool) (l : list A) :
  forallb p (rev l) = forallb p l.
Proof.
  induction l as [|x l IH]; simpl; [reflexivity|].
  rewrite forallb_app, IH. simpl. rewrite andb_true_r. apply andb_comm.
Qed.

(** *** [trim] *)

(** A string trims to the empty string exactly when it consists of
    white space only. *)
Lemma trim_nil_iff (s : jsstring) :
  trim s = [] <-> forallb is_ws s = true.
Proof.
  unfold trim, trimEnd, trimStart. split.
  - intros H.
    assert (H' : dropWhile is_ws (rev (dropWhile is_ws s)) = []).
    { rewrite <- (rev_involutive (dropWhile is_ws (rev (dropWhile is_ws s)))).
      rewrite H. reflexivity. }
    apply dropWhile_nil_iff in H'. rewrite forallb_rev in H'.
    destruct (dropWhile is_ws s) as [|x r] eqn:E.
    + apply dropWhile_nil_iff. exact E.
    + apply dropWhile_head in E as Hx. simpl in H'. rewrite Hx in H'.
      discriminate.
  - intros H. apply dropWhile_nil_iff in H. rewrite H. reflexivity.
Qed.

(** Trimming white space, a core with no white space at its ends and
    white space again leaves the core. *)
Lemma trim_sandwich (l core r : jsstring) :
  forallb is_ws l = true -> forallb is_ws r = true ->
  (forall x t, core = x :: t -> is_ws x = false) ->
  (forall x t, rev core = x :: t -> is_ws x = false) ->
  trim (l ++ core ++ r) = core.
Proof.
  intros Hl Hr Hfirst Hlast. unfold trim, trimEnd, trimStart.
  rewrite dropWhile_app_all by exact Hl.
  destruct core as [|x t].
  - simpl. apply dropWhile_nil_iff in Hr as Hr'. rewrite Hr'. simpl.
    reflexivity.
  - rewrite <- app_comm_cons, dropWhile_stop by eauto.
    rewrite app_comm_cons, rev_app_distr.
    rewrite dropWhile_app_all by (rewrite forallb_rev; exact Hr).
    destruct (rev (x :: t)) as [|y u] eqn:E.
    + apply (f_equal (@length _)) in E. rewrite length_rev in E.
      discriminate.
    + rewrite dropWhile_stop by eauto. rewrite <- E.
      apply rev_involutive.
Qed.

End JStrFacts.

(** ** The security guard *)

Module SecurityFacts.

Import JStrFacts Path Security.

Lemma split_ws_from_hd (b : bool) (s : jsstring) :
  split_ws_from b s <> [].
Proof.
  revert b. induction s as [|c s IH]; intros b; simpl; [discriminate|].
  destruct (is_ws c).
  - destruct b; [apply IH | discriminate].
  - destruct (split_ws_from false s); discriminate.
Qed.

Lemma hd_split_ws_from (s : jsstring) :
  hd [] (split_ws_from false s) = takeWhile (fun c => negb (is_ws c)) s.
Proof.
  induction s as [|c s IH]; simpl; [reflexivity|].
  destruct (is_ws c); simpl; [reflexivity|].
  destruct (split_ws_from false s) as [|t ts] eqn:E.
  - exfalso. exact (split_ws_from_hd _ _ E).
  - simpl in *. rewrite IH. reflexivity.
Qed.

Lemma hd_split_ws (s : jsstring) :
  hd [] (split_ws s) = takeWhile (fun c => negb (is_ws c)) s.
Proof.
  destruct s as [|c s]; [reflexivity|].
  unfold split_ws. destruct (is_ws c) eqn:E.
  - simpl. rewrite E. reflexivity.
  - apply hd_split_ws_from.
Qed.

Lemma takeWhile_app_stop {A} (p : A -> bool) (a w : list A) :
  (forall x t, w = x :: t -> p x = false) ->
  takeWhile p (a ++ w) = takeWhile p a.
Proof.
  intros Hw. induction a as [|x a IH]; simpl.
  - destruct w as [|y t]; [reflexivity|]. simpl.
    rewrite (Hw y t eq_refl). reflexivity.
  - destruct (p x); [rewrite IH|]; reflexivity.
Qed.

(** [trimEnd] only removes a white-space suffix. *)
Lemma trimEnd_decompose (s : jsstring) :
  exists w, s = trimEnd s ++ w /\ forallb is_ws w = true.
Proof.
  unfold trimEnd. exists (rev (takeWhile is_ws (rev s))). split.
  - rewrite <- rev_app_distr, takeWhile_dropWhile, rev_involutive.
    reflexivity.
  - rewrite forallb_rev. apply takeWhile_all.
Qed.

(** The token computed by the code is the first token of the line. *)
Lemma baseCmd_first_token (command : jsstring) :
  baseCmd command = first_token command.
Proof.
  unfold baseCmd, first_token. rewrite hd_split_ws.
  unfold trim, trimStart.
  destruct (trimEnd_decompose (dropWhile is_ws command)) as [w [Hs Hw]].
  rewrite Hs at 2. symmetry. apply takeWhile_app_stop.
  intros x t ->. simpl in Hw. apply andb_true_iff in Hw as [-> _].
  reflexivity.
Qed.

End SecurityFacts.

(** C6, as stated, fails: the allow-list is compared with the base name
    of the first token and not with the token, so a command given by
    its path is accepted although the token matches no entry; and a
    blank command line is refused even by the wildcard. *)
Lemma isCommandAllowed_differs_from_statement :
  Security.isCommandAllowed (lit "/usr/bin/npm test") [lit "npm"] = true
  /\ Security.allowed_as_stated (lit "/usr/bin/npm test") [lit "npm"] = false
  /\ Security.isCommandAllowed (lit "   ") [lit "*"] = false
  /\ Security.allowed_as_stated (lit "   ") [lit "*"] = true.
Proof. vm_compute. repeat split. Qed.

(** C6 (amended): [isCommandAllowed] takes the first token of the
    command line delimited by white space and refuses a line without
    one; otherwise it accepts exactly when the allow-list holds the
    wildcard, the base name of the token, or an entry that followed by
    [.exe] is that base name.  The three examples of the design
    document hold. *)
Theorem isCommandAllowed_characterization :
  (forall command allowlist,
      Security.isCommandAllowed command allowlist = true <->
      Security.first_token command <> []
      /\ exists allowed,
          In allowed allowlist
          /\ (allowed = lit "*"
              \/ Path.basename (Security.first_token command) = allowed
              \/ Path.basename (Security.first_token command)
                 = allowed ++ lit ".exe"))
  /\ Security.isCommandAllowed (lit "npm test") [lit "npm"] = true
  /\ Security.isCommandAllowed (lit "rm -rf /") [lit "npm"] = false
  /\ Security.isCommandAllowed (lit "anything") [lit "*"] = true.
Proof.
  split; [|vm_compute; repeat split].
  intros command allowlist. unfold Security.isCommandAllowed.
  rewrite SecurityFacts.baseCmd_first_token.
  destruct (eqb (Security.first_token command) []) eqn:E.
  - apply JStrFacts.eqb_eq in E. split; [discriminate|].
    intros [H _]. contradiction.
  - apply JStrFacts.eqb_neq in E. rewrite existsb_exists. split.
    + intros [allowed [Hin H]]. split; [exact E|]. exists allowed.
      split; [exact Hin|].
      apply orb_true_iff in H as [H|H];
        [apply orb_true_iff in H as [H|H]|];
        apply JStrFacts.eqb_eq in H; auto.
    + intros [_ [allowed [Hin H]]]. exists allowed. split; [exact Hin|].
      destruct H as [H|[H|H]]; rewrite H, ?JStrFacts.eqb_refl, ?orb_true_r;
        reflexivity.
Qed.

(** ** Paths *)

Module PathFacts.

Import JStrFacts Path PathTerms.

Lemma split_on_not_nil (c : N) (s : jsstring) : split_on c s <> [].
Proof.
  destruct s as [|x s]; simpl; [discriminate|].
  destruct (x =? c)%N; [discriminate|].
  destruct (split_on c s); discriminate.
Qed.

Lemma split_on_app (c : N) (a b : jsstring) :
  split_on c (a ++ c :: b) = split_on c a ++ split_on c b.
Proof.
  induction a as [|x a IH]; simpl.
  - rewrite N.eqb_refl. reflexivity.
  - destruct (x =? c)%N; [rewrite IH; reflexivity|].
    rewrite IH. destruct (split_on c a) as [|t ts] eqn:E.
    + exfalso. exact (split_on_not_nil _ _ E).
    + reflexivity.
Qed.

Lemma split_on_nosep (c : N) (s : jsstring) :
  ~ In c s -> split_on c s = [s].
Proof.
  induction s as [|x s IH]; simpl; [reflexivity|].
  intros H. destruct (x =? c)%N eqn:E.
  - apply N.eqb_eq in E. exfalso. apply H. left. exact E.
  - rewrite IH by (intros Hin; apply H; right; exact Hin). reflexivity.
Qed.

Lemma split_on_pieces (c : N) (s : jsstring) :
  Forall (fun seg => ~ In c seg) (split_on c s).
Proof.
  induction s as [|x s IH]; simpl.
  - constructor; [intros []|constructor].
  - destruct (x =? c)%N eqn:E.
    + constructor; [intros []|exact IH].
    + destruct (split_on c s) as [|t ts].
      * constructor; [|constructor]. intros [H|[]].
        apply N.eqb_neq in E. congruence.
      * inversion IH as [|? ? Ht Hts]; subst. constructor; [|exact Hts].
        intros [H|H]; [apply N.eqb_neq in E; congruence | exact (Ht H)].
Qed.

Lemma join_cons (p : jsstring) (ps : list jsstring) :
  ps <> [] -> join sep (p :: ps) = p ++ sep ++ join sep ps.
Proof. destruct ps; [congruence | reflexivity]. Qed.

Lemma join_app (l1 l2 : list jsstring) :
  l1 <> [] -> l2 <> [] ->
  join sep (l1 ++ l2) = join sep l1 ++ sep ++ join sep l2.
Proof.
  intros H1 H2. induction l1 as [|p l1 IH]; [congruence|].
  destruct l1 as [|q l1].
  - simpl app at 1. rewrite join_cons by exact H2. reflexivity.
  - rewrite <- app_comm_cons, join_cons by discriminate.
    rewrite IH by discriminate.
    rewrite (join_cons p (q :: l1)) by discriminate.
    rewrite <- !app_assoc. reflexivity.
Qed.

Lemma join_not_nil (l : list jsstring) :
  l <> [] -> Forall clean l -> join sep l <> [].
Proof.
  destruct l as [|p l]; [congruence|]. intros _ H.
  inversion H as [|? ? [Hp _] _]; subst.
  destruct l; simpl; [exact Hp|]. destruct p; [congruence | discriminate].
Qed.

Lemma split_join (l : list jsstring) :
  l <> [] -> Forall noslash l -> split_on slash (join sep l) = l.
Proof.
  induction l as [|p l IH]; [congruence|]. intros _ H.
  inversion H as [|? ? Hp Hl]; subst. destruct l as [|q l].
  - simpl. apply split_on_nosep. exact Hp.
  - rewrite join_cons by discriminate.
    change (p ++ sep ++ join sep (q :: l))
      with (p ++ slash :: join sep (q :: l)).
    rewrite split_on_app, (split_on_nosep slash p) by exact Hp.
    rewrite IH by (discriminate || exact Hl). reflexivity.
Qed.

Lemma clean_noslash (l : list jsstring) : Forall clean l -> Forall noslash l.
Proof.
  intros H. eapply Forall_impl; [exact H|].
  intros seg [_ [_ [_ Hs]]]. exact Hs.
Qed.

(** *** Normalization of segments *)

Lemma push_clean (seg : jsstring) (stack : list jsstring) :
  clean seg -> push_segment false stack seg = seg :: stack.
Proof.
  intros [H1 [H2 [H3 _]]]. unfold push_segment.
  apply eqb_neq in H1, H2, H3. rewrite H1, H2, H3. reflexivity.
Qed.

Lemma push_skip_nil (b : bool) (stack : list jsstring) :
  push_segment b stack [] = stack.
Proof. reflexivity. Qed.

Lemma push_skip_dot (b : bool) (stack : list jsstring) :
  push_segment b stack dot = stack.
Proof. reflexivity. Qed.

Lemma push_dotdot (top : jsstring) (below : list jsstring) :
  clean top -> push_segment false (top :: below) dotdot = below.
Proof.
  intros [_ [_ [H _]]]. unfold push_segment. apply eqb_neq in H.
  rewrite H. reflexivity.
Qed.

Lemma push_preserves_clean (stack : list jsstring) (seg : jsstring) :
  noslash seg -> Forall clean stack ->
  Forall clean (push_segment false stack seg).
Proof.
  intros Hseg Hst. unfold push_segment.
  destruct (eqb seg []) eqn:E1; [exact Hst|].
  destruct (eqb seg dot) eqn:E2; [exact Hst|]. simpl.
  destruct (eqb seg dotdot) eqn:E3.
  - destruct stack as [|top below]; [constructor|].
    inversion Hst as [|? ? Htop Hbelow]; subst.
    destruct Htop as [_ [_ [Htop _]]]. apply eqb_neq in Htop.
    rewrite Htop. exact Hbelow.
  - constructor; [|exact Hst].
    apply eqb_neq in E1, E2, E3. repeat split; assumption.
Qed.

Lemma fold_push_clean (segs stack : list jsstring) :
  Forall noslash segs -> Forall clean stack ->
  Forall clean (fold_left (push_segment false) segs stack).
Proof.
  revert stack. induction segs as [|seg segs IH]; intros stack Hs Hst;
    simpl; [exact Hst|].
  inversion Hs; subst. apply IH; [assumption|].
  apply push_preserves_clean; assumption.
Qed.

Lemma fold_push_clean_segs (segs stack : list jsstring) :
  Forall clean segs ->
  fold_left (push_segment false) segs stack = rev segs ++ stack.
Proof.
  revert stack. induction segs as [|seg segs IH]; intros stack H; simpl;
    [reflexivity|].
  inversion H; subst. rewrite push_clean by assumption.
  rewrite IH by assumption. rewrite <- app_assoc. reflexivity.
Qed.

Lemma Forall_rev' {A} (P : A -> Prop) (l : list A) :
  Forall P l -> Forall P (rev l).
Proof. apply List.Forall_rev. Qed.

(** *** [path.resolve] *)

Lemma isAbsolute_not_nil (p : jsstring) : isAbsolute p = true -> p <> [].
Proof. destruct p; [discriminate | discriminate]. Qed.

Lemma resolve_loop_base (cwd root acc : jsstring) :
  isAbsolute cwd = true ->
  resolve_loop [root; cwd] acc = (base cwd root ++ sep ++ acc, true).
Proof.
  intros Hcwd. unfold base. simpl.
  assert (Hc : eqb cwd [] = false)
    by (apply eqb_neq, isAbsolute_not_nil, Hcwd).
  destruct (eqb root []) eqn:E.
  - rewrite Hc, Hcwd. reflexivity.
  - destruct (isAbsolute root); [reflexivity|].
    rewrite Hc, Hcwd. rewrite <- !app_assoc. reflexivity.
Qed.

Lemma root_stack_clean (cwd root : jsstring) :
  Forall clean (root_stack cwd root).
Proof.
  apply fold_push_clean; [|constructor].
  apply (split_on_pieces slash).
Qed.

Lemma resolve_root (cwd root : jsstring) :
  isAbsolute cwd = true ->
  resolve cwd [root] = sep ++ join sep (rev (root_stack cwd root)).
Proof.
  intros Hcwd. unfold resolve.
  change (rev [root] ++ [cwd]) with [root; cwd].
  rewrite resolve_loop_base by exact Hcwd. simpl negb. cbv iota.
  unfold normalizeString, normalizeSegments, root_stack.
  change (base cwd root ++ sep ++ []) with (base cwd root ++ slash :: []).
  rewrite split_on_app, fold_left_app. reflexivity.
Qed.

Lemma resolve_loop_skip (more : list jsstring) (acc : jsstring) :
  resolve_loop ([] :: more) acc = resolve_loop more acc.
Proof. reflexivity. Qed.

Lemma resolve_loop_relative (p : jsstring) (more : list jsstring)
      (acc : jsstring) :
  p <> [] -> isAbsolute p = false ->
  resolve_loop (p :: more) acc = resolve_loop more (p ++ sep ++ acc).
Proof.
  intros Hp Ha. apply eqb_neq in Hp. cbn [resolve_loop].
  rewrite Hp, Ha. reflexivity.
Qed.

Lemma resolve_root_rel (cwd root rel : jsstring) :
  isAbsolute cwd = true -> isAbsolute rel = false ->
  resolve cwd [root; rel]
  = sep ++ join sep (rev (fold_left (push_segment false)
                                    (split_on slash rel)
                                    (root_stack cwd root))).
Proof.
  intros Hcwd Hrel. unfold resolve.
  change (rev [root; rel] ++ [cwd]) with [rel; root; cwd].
  destruct rel as [|c rel].
  - rewrite resolve_loop_skip, resolve_loop_base by exact Hcwd.
    simpl negb. cbv iota.
    unfold normalizeString, normalizeSegments, root_stack.
    change (base cwd root ++ sep ++ []) with (base cwd root ++ slash :: []).
    rewrite split_on_app, fold_left_app. reflexivity.
  - rewrite resolve_loop_relative by (discriminate || exact Hrel).
    rewrite resolve_loop_base by exact Hcwd.
    simpl negb. cbv iota.
    unfold normalizeString, normalizeSegments, root_stack.
    rewrite app_nil_r.
    change (base cwd root ++ sep ++ (c :: rel) ++ sep)
      with (base cwd root ++ slash :: ((c :: rel) ++ slash :: [])).
    rewrite !split_on_app, !fold_left_app.
    change (split_on slash []) with [@nil N].
    cbn [fold_left]. rewrite push_skip_nil. reflexivity.
Qed.

(** An absolute normalized path resolves to itself. *)
Lemma resolve_normalized (cwd : jsstring) (segs : list jsstring) :
  Forall clean segs ->
  resolve cwd [sep ++ join sep segs] = sep ++ join sep segs.
Proof.
  intros H. unfold resolve.
  change (rev [sep ++ join sep segs] ++ [cwd])
    with [slash :: join sep segs; cwd].
  cbn [resolve_loop].
  replace (eqb (slash :: join sep segs) []) with false
    by (symmetry; apply eqb_neq; discriminate).
  change (isAbsolute (slash :: join sep segs)) with true. cbv iota.
  simpl negb. cbv iota. f_equal.
  unfold normalizeString, normalizeSegments. rewrite app_nil_r.
  change ((slash :: join sep segs) ++ sep)
    with ([] ++ slash :: (join sep segs ++ slash :: [])).
  rewrite !split_on_app, !fold_left_app.
  change (split_on slash []) with [@nil N].
  cbn [fold_left]. rewrite !push_skip_nil.
  destruct segs as [|p ps].
  - reflexivity.
  - rewrite split_join by (discriminate || apply clean_noslash, H).
    rewrite fold_push_clean_segs by exact H.
    rewrite app_nil_r, rev_involutive. reflexivity.
Qed.

End PathFacts.

(** ** [resolveWorkspacePath] *)

Module WorkspacePathFacts.

Import JStrFacts Path PathTerms PathFacts Security.

Lemma join_snoc (l : list jsstring) (y : jsstring) :
  join sep (l ++ [y])
  = match l with [] => [] | _ => join sep l ++ sep end ++ y.
Proof.
  destruct l as [|p l]; [reflexivity|].
  rewrite join_app by discriminate. rewrite <- app_assoc. reflexivity.
Qed.

Lemma takeWhile_all_id {A} (p : A -> bool) (l : list A) :
  forallb p l = true -> takeWhile p l = l.
Proof.
  induction l as [|x l IH]; simpl; [reflexivity|].
  intros H. apply andb_true_iff in H as [-> H]. rewrite IH by exact H.
  reflexivity.
Qed.

Lemma noslash_forallb (y : jsstring) :
  noslash y -> forallb (fun c => negb (c =? slash)%N) y = true.
Proof.
  unfold noslash. induction y as [|c y IH]; simpl; [reflexivity|].
  intros H. apply andb_true_iff. split.
  - apply negb_true_iff, N.eqb_neq. intros ->. apply H. left. reflexivity.
  - apply IH. intros Hin. apply H. right. exact Hin.
Qed.

(** The base name of a path that ends in a clean segment after a
    slash is that segment. *)
Lemma basename_snoc (q y : jsstring) :
  clean y -> basename ((q ++ [slash]) ++ y) = y.
Proof.
  intros [Hne [_ [_ Hns]]]. unfold basename.
  rewrite !rev_app_distr. simpl rev at 2. simpl app at 2.
  apply noslash_forallb in Hns.
  assert (Hr : forallb (fun c => negb (c =? slash)%N) (rev y) = true)
    by (rewrite forallb_rev; exact Hns).
  destruct (rev y) as [|c r] eqn:E.
  - exfalso. apply Hne. rewrite <- (rev_involutive y), E. reflexivity.
  - rewrite <- app_comm_cons.
    assert (Hc : (c =? slash)%N = false).
    { simpl in Hr. apply andb_true_iff in Hr as [Hc _].
      apply negb_true_iff in Hc. exact Hc. }
    rewrite dropWhile_stop by exact Hc.
    rewrite app_comm_cons.
    rewrite SecurityFacts.takeWhile_app_stop.
    + rewrite takeWhile_all_id by exact Hr.
      rewrite <- E. apply rev_involutive.
    + intros x t Hx. injection Hx as <- _. reflexivity.
Qed.

Lemma basename_normalized (S : list jsstring) :
  Forall clean S -> basename (sep ++ join sep (rev S)) = hd [] S.
Proof.
  intros H. destruct S as [|y T]; [reflexivity|].
  inversion H as [|? ? Hy HT]; subst. simpl rev. rewrite join_snoc.
  simpl hd. destruct (rev T) as [|p l].
  - apply (basename_snoc [] y Hy).
  - rewrite app_assoc. unfold sep at 3.
    rewrite (app_assoc sep). apply basename_snoc. exact Hy.
Qed.

Section Resolved.

Variable cwd : jsstring.
Hypothesis cwd_absolute : isAbsolute cwd = true.

(** What [resolveWorkspacePath] does for a relative argument, in
    terms of the two resolved paths. *)
Lemma resolveWorkspacePath_relative (root : jsstring)
      (rest : list jsstring) (rel : jsstring) :
  isAbsolute rel = false ->
  resolveWorkspacePath cwd (root :: rest) rel
  = if negb (eqb (resolve cwd [root; rel]) (resolve cwd [root]))
       && negb (startsWith (resolve cwd [root; rel])
                           (resolve cwd [root] ++ sep))
    then Throw (lit "Path escapes workspace: " ++ rel)
    else Normal (resolve cwd [root; rel]).
Proof.
  intros Hrel. unfold resolveWorkspacePath. rewrite Hrel.
  rewrite (resolve_root_rel cwd root rel cwd_absolute Hrel).
  rewrite resolve_normalized; [reflexivity|].
  apply Forall_rev', fold_push_clean.
  - apply (split_on_pieces slash).
  - apply root_stack_clean.
Qed.

Lemma absolute_rejected (folders : list jsstring) (p : jsstring) :
  isAbsolute p = true ->
  exists e, resolveWorkspacePath cwd folders p = Throw e.
Proof.
  intros Hp. unfold resolveWorkspacePath.
  destruct folders as [|root rest]; [eauto|]. rewrite Hp. eauto.
Qed.

Lemma dot_accepted (root : jsstring) (rest : list jsstring) :
  resolveWorkspacePath cwd (root :: rest) (lit ".")
  = Normal (resolve cwd [root]).
Proof.
  rewrite resolveWorkspacePath_relative by reflexivity.
  rewrite (resolve_root_rel cwd root (lit ".") cwd_absolute eq_refl).
  rewrite (resolve_root cwd root cwd_absolute).
  change (split_on slash (lit ".")) with [dot]. cbn [fold_left].
  rewrite push_skip_dot, eqb_refl. reflexivity.
Qed.

Lemma stack_dotdot_x (S : list jsstring) :
  Forall clean S ->
  fold_left (push_segment false) (split_on slash (lit "../x")) S
  = lit "x" :: tl S.
Proof.
  intros H. change (split_on slash (lit "../x")) with [dotdot; lit "x"].
  cbn [fold_left]. destruct S as [|y T].
  - reflexivity.
  - inversion H; subst. rewrite push_dotdot by assumption. reflexivity.
Qed.

Lemma dotdot_x (root : jsstring) (rest : list jsstring) :
  resolveWorkspacePath cwd (root :: rest) (lit "../x")
  = if eqb (basename (resolve cwd [root])) (lit "x")
    then Normal (resolve cwd [root])
    else Throw (lit "Path escapes workspace: ../x").
Proof.
  rewrite resolveWorkspacePath_relative by reflexivity.
  rewrite (resolve_root_rel cwd root (lit "../x") cwd_absolute eq_refl).
  rewrite (resolve_root cwd root cwd_absolute).
  pose proof (root_stack_clean cwd root) as Hclean.
  rewrite stack_dotdot_x by exact Hclean.
  rewrite basename_normalized by exact Hclean.
  destruct (root_stack cwd root) as [|y T]; [reflexivity|].
  inversion Hclean as [|? ? Hy HT]; subst.
  simpl tl. simpl hd. simpl rev. rewrite !join_snoc.
  set (pre := match rev T with [] => [] | _ => join sep (rev T) ++ sep end).
  replace ((sep ++ pre ++ y) ++ sep) with (sep ++ pre ++ y ++ sep)
    by (rewrite <- !app_assoc; reflexivity).
  rewrite !startsWith_app.
  assert (Hsw : startsWith (lit "x") (y ++ sep) = false).
  { destruct (startsWith (lit "x") (y ++ sep)) eqn:E; [|reflexivity].
    apply startsWith_length in E. rewrite length_app in E.
    destruct Hy as [Hne _]. destruct y; [congruence|]. simpl in E. lia. }
  rewrite Hsw.
  destruct (eqb y (lit "x")) eqn:E.
  - apply eqb_eq in E. subst y. rewrite eqb_refl. reflexivity.
  - assert (Hne : eqb (sep ++ pre ++ lit "x") (sep ++ pre ++ y) = false).
    { apply eqb_neq. intros Heq.
      apply app_inv_head, app_inv_head in Heq.
      apply eqb_neq in E. congruence. }
    rewrite Hne. reflexivity.
Qed.

Lemma a_b_accepted (root : jsstring) (rest : list jsstring) :
  resolve cwd [root] <> sep ->
  resolveWorkspacePath cwd (root :: rest) (lit "a/b")
  = Normal (resolve cwd [root] ++ lit "/a/b").
Proof.
  intros Hroot.
  rewrite resolveWorkspacePath_relative by reflexivity.
  rewrite (resolve_root_rel cwd root (lit "a/b") cwd_absolute eq_refl).
  rewrite (resolve_root cwd root cwd_absolute) in *.
  pose proof (root_stack_clean cwd root) as Hclean.
  change (split_on slash (lit "a/b")) with [lit "a"; lit "b"].
  cbn [fold_left].
  rewrite !push_clean by (repeat split; try discriminate;
                          intros [H|[]]; discriminate).
  destruct (root_stack cwd root) as [|y T] eqn:E;
    [exfalso; apply Hroot; reflexivity|].
  change (lit "b" :: lit "a" :: y :: T)
    with ([lit "b"; lit "a"] ++ (y :: T)).
  rewrite rev_app_distr.
  rewrite join_app;
    [ | intros H; apply (f_equal (@length _)) in H;
        rewrite length_rev in H; discriminate
      | discriminate ].
  change (join sep (rev [lit "b"; lit "a"])) with (lit "a/b").
  set (R := join sep (rev (y :: T))).
  replace (sep ++ R ++ sep ++ lit "a/b")
    with (((sep ++ R) ++ sep) ++ lit "a/b")
    by (rewrite <- !app_assoc; reflexivity).
  rewrite startsWith_refl_app, andb_false_r.
  rewrite <- !app_assoc. reflexivity.
Qed.

(** An accepted path is the root or has the root, followed by a
    slash, as a proper prefix; the segments of the root are then the
    first segments of the path. *)
Lemma accepted_inside (folders : list jsstring) (rel p : jsstring) :
  resolveWorkspacePath cwd folders rel = Normal p ->
  exists root rest rootSegs more,
    folders = root :: rest
    /\ isAbsolute rel = false
    /\ p = resolve cwd [root; rel]
    /\ Forall clean (rootSegs ++ more)
    /\ resolve cwd [root] = sep ++ join sep rootSegs
    /\ p = sep ++ join sep (rootSegs ++ more)
    /\ (p = resolve cwd [root]
        \/ exists t, t <> [] /\ p = resolve cwd [root] ++ sep ++ t).
Proof.
  intros H. destruct folders as [|root rest]; [discriminate|].
  destruct (isAbsolute rel) eqn:Hrel;
    [unfold resolveWorkspacePath in H; rewrite Hrel in H; discriminate|].
  rewrite resolveWorkspacePath_relative in H by exact Hrel.
  rewrite (resolve_root_rel cwd root rel cwd_absolute Hrel) in *.
  rewrite (resolve_root cwd root cwd_absolute) in *.
  pose proof (root_stack_clean cwd root) as HS.
  set (S := root_stack cwd root) in *.
  assert (HS' : Forall clean
                  (fold_left (push_segment false) (split_on slash rel) S))
    by (apply fold_push_clean;
        [apply (split_on_pieces slash) | exact HS]).
  set (S' := fold_left (push_segment false) (split_on slash rel) S) in *.
  exists root, rest, (rev S).
  rewrite (resolve_root_rel cwd root rel cwd_absolute Hrel).
  rewrite (resolve_root cwd root cwd_absolute).
  fold S. fold S'.
  destruct (eqb (sep ++ join sep (rev S')) (sep ++ join sep (rev S)))
    eqn:Eeq.
  - cbn [negb andb] in H. injection H as <-. apply eqb_eq in Eeq.
    exists []. rewrite app_nil_r.
    repeat split; try reflexivity; try assumption.
    + apply Forall_rev'. exact HS.
    + left. exact Eeq.
  - cbn [negb andb] in H.
    destruct (startsWith (sep ++ join sep (rev S'))
                         ((sep ++ join sep (rev S)) ++ sep)) eqn:Esw;
      [|discriminate].
    cbn [negb] in H. injection H as <-.
    apply startsWith_spec in Esw as [t Ht].
    rewrite <- !app_assoc in Ht. apply app_inv_head in Ht.
    destruct (rev S) as [|r0 rs] eqn:ES.
    + (* the root is "/": nothing starts with "//" *)
      exfalso. simpl in Ht.
      destruct (rev S') as [|q0 qs] eqn:ES'; [discriminate|].
      assert (Hq : clean q0).
      { apply Forall_rev' in HS'. rewrite ES' in HS'.
        inversion HS'; assumption. }
      destruct Hq as [Hne [_ [_ Hns]]].
      destruct q0 as [|c q0]; [congruence|].
      assert (Hc : c = slash).
      { destruct qs; simpl in Ht; injection Ht as Hc _; exact Hc. }
      apply Hns. left. exact Hc.
    + assert (Hne' : rev S' <> []).
      { intros E. rewrite E in Ht. simpl in Ht.
        destruct rs; destruct r0; discriminate. }
      assert (Hsplit : rev S' = (r0 :: rs) ++ split_on slash t).
      { rewrite <- (split_join (rev S') Hne')
          by (apply clean_noslash, Forall_rev', HS').
        rewrite Ht.
        change (join sep (r0 :: rs) ++ sep ++ t)
          with (join sep (r0 :: rs) ++ slash :: t).
        rewrite split_on_app. f_equal.
        apply split_join; [discriminate|].
        apply clean_noslash. rewrite <- ES. apply Forall_rev', HS. }
      exists (split_on slash t).
      repeat split; try reflexivity; try assumption.
      * rewrite <- Hsplit. apply Forall_rev', HS'.
      * rewrite <- Hsplit. reflexivity.
      * right. exists t. split.
        -- intros ->. apply Forall_rev' in HS'. rewrite Hsplit in HS'.
           apply Forall_app in HS' as [_ HS'].
           inversion HS' as [|? ? [Hx _] _]; subst. congruence.
        -- rewrite Ht, <- !app_assoc. reflexivity.
Qed.

End Resolved.

End WorkspacePathFacts.

(** C5, as stated, fails: in a workspace whose root folder is named
    [x], the input [../x] denotes the root itself and is accepted. *)
Lemma resolveWorkspacePath_accepts_dotdot_x :
  Security.resolveWorkspacePath (lit "/") [lit "/home/x"] (lit "../x")
  = Normal (lit "/home/x").
Proof. vm_compute. reflexivity. Qed.

(** C5 (amended): in a process with an absolute working directory,
    [resolveWorkspacePath] rejects every absolute path, whether or not
    it lies inside the workspace; with a workspace folder open it
    rejects [../x] unless the root folder is named [x], in which case
    [../x] resolves to the root and is accepted; it accepts [a/b] when
    the root is not the root of the file system; it accepts [.], which
    resolves to the workspace root; and every accepted input is a
    relative path whose resolved path is the root, or is the root
    followed by a slash and more, its segments extending those of the
    root. *)
Theorem resolveWorkspacePath_contract (cwd : jsstring) :
  Path.isAbsolute cwd = true ->
  (forall folders p,
      Path.isAbsolute p = true ->
      exists e, Security.resolveWorkspacePath cwd folders p = Throw e)
  /\ (forall root rest,
         Path.basename (Path.resolve cwd [root]) <> lit "x" ->
         Security.resolveWorkspacePath cwd (root :: rest) (lit "../x")
         = Throw (lit "Path escapes workspace: ../x"))
  /\ (forall root rest,
         Path.basename (Path.resolve cwd [root]) = lit "x" ->
         Security.resolveWorkspacePath cwd (root :: rest) (lit "../x")
         = Normal (Path.resolve cwd [root]))
  /\ (forall root rest,
         Path.resolve cwd [root] <> Path.sep ->
         Security.resolveWorkspacePath cwd (root :: rest) (lit "a/b")
         = Normal (Path.resolve cwd [root] ++ lit "/a/b"))
  /\ (forall root rest,
         Security.resolveWorkspacePath cwd (root :: rest) (lit ".")
         = Normal (Path.resolve cwd [root]))
  /\ (forall folders rel p,
         Security.resolveWorkspacePath cwd folders rel = Normal p ->
         exists root rest rootSegs more,
           folders = root :: rest
           /\ Path.isAbsolute rel = false
           /\ p = Path.resolve cwd [root; rel]
           /\ Forall PathTerms.clean (rootSegs ++ more)
           /\ Path.resolve cwd [root] = Path.sep ++ join Path.sep rootSegs
           /\ p = Path.sep ++ join Path.sep (rootSegs ++ more)
           /\ (p = Path.resolve cwd [root]
               \/ exists t,
                   t <> [] /\ p = Path.resolve cwd [root] ++ Path.sep ++ t)).
Proof.
  intros Hcwd. repeat apply conj.
  - intros folders p. apply WorkspacePathFacts.absolute_rejected.
  - intros root rest H.
    rewrite (WorkspacePathFacts.dotdot_x cwd Hcwd).
    apply JStrFacts.eqb_neq in H. rewrite H. reflexivity.
  - intros root rest H.
    rewrite (WorkspacePathFacts.dotdot_x cwd Hcwd).
    apply JStrFacts.eqb_eq in H. rewrite H. reflexivity.
  - intros root rest. apply (WorkspacePathFacts.a_b_accepted cwd Hcwd).
  - intros root rest. apply (WorkspacePathFacts.dot_accepted cwd Hcwd).
  - intros folders rel p.
    apply (WorkspacePathFacts.accepted_inside cwd Hcwd).
Qed.

Lemma resolveWorkspacePath_contract_witness :
  Path.isAbsolute (lit "/home/u") = true
  /\ (exists e, Security.resolveWorkspacePath
                  (lit "/home/u") [lit "/w"] (lit "/w/a") = Throw e)
  /\ Security.resolveWorkspacePath (lit "/home/u") [lit "/w"] (lit "../x")
     = Throw (lit "Path escapes workspace: ../x")
  /\ Security.resolveWorkspacePath (lit "/home/u") [lit "/x"] (lit "../x")
     = Normal (Path.resolve (lit "/home/u") [lit "/x"])
  /\ Security.resolveWorkspacePath (lit "/home/u") [lit "/w"] (lit "a/b")
     = Normal (Path.resolve (lit "/home/u") [lit "/w"] ++ lit "/a/b")
  /\ Security.resolveWorkspacePath (lit "/home/u") [lit "/w"] (lit ".")
     = Normal (Path.resolve (lit "/home/u") [lit "/w"]).
Proof.
  destruct (resolveWorkspacePath_contract (lit "/home/u") eq_refl)
    as [Habs [Hrej [Hacc [Hab [Hdot _]]]]].
  split; [reflexivity|].
  split; [apply Habs; reflexivity|].
  split; [apply Hrej; vm_compute; discriminate|].
  split; [apply Hacc; vm_compute; reflexivity|].
  split; [apply Hab; vm_compute; discriminate|].
  apply Hdot.
Defined.

(** ** The activity store *)

Module ActivityStoreFacts.

Import ActivityStore ActivityStoreTerms.

Lemma newest_first_take (n : nat) (l : list N) :
  newest_first l -> newest_first (take n l).
Proof.
  unfold newest_first. intros H. revert n.
  induction H as [|a l Hl IH Ha]; intros n.
  - rewrite take_nil. constructor.
  - destruct n as [|n]; simpl; constructor.
    + apply IH.
    + apply Forall_take. exact Ha.
Qed.

Lemma map_update_first_id (p : Activity -> bool) (f : Activity -> Activity)
      (l : list Activity) :
  (forall a, id (f a) = id a) ->
  List.map id (update_first p f l) = List.map id l.
Proof.
  intros Hf. induction l as [|x l IH]; simpl; [reflexivity|].
  destruct (p x); simpl; [rewrite Hf | rewrite IH]; reflexivity.
Qed.

Lemma length_update_first {A} (p : A -> bool) (f : A -> A) (l : list A) :
  length (update_first p f l) = length l.
Proof.
  induction l as [|x l IH]; simpl; [reflexivity|].
  destruct (p x); simpl; [|rewrite IH]; reflexivity.
Qed.

Lemma find_none_of_absent (i : N) (l : list Activity) :
  ~ In i (List.map id l) ->
  List.find (fun a => (id a =? i)%N) l = None.
Proof.
  induction l as [|x l IH]; simpl; [reflexivity|].
  intros H. destruct (id x =? i)%N eqn:E.
  - apply N.eqb_eq in E. exfalso. apply H. left. exact E.
  - apply IH. intros Hin. apply H. right. exact Hin.
Qed.

Section Labels.

Variable getCategory : jsstring -> jsstring.
Variable describeIntent : jsstring -> jsval -> completion Thrown jsstring.

Let start := start getCategory describeIntent.
Let run := run getCategory describeIntent.
Let call := call getCategory describeIntent.

(** Whatever [describeIntent] does, [start] increments the counter. *)
Lemma start_nextId (now : Z) (s : Store) (command : jsstring)
      (params : jsval) :
  nextId (snd (fst (start now s command params))) = (nextId s + 1)%N.
Proof.
  unfold start, ActivityStore.start.
  destruct (describeIntent command params); reflexivity.
Qed.

(** A [start] whose [describeIntent] throws: the exception is the
    result, and nothing is inserted or emitted. *)
Lemma start_throws (now : Z) (s : Store) (command : jsstring)
      (params : jsval) (e : Thrown) :
  describeIntent command params = Throw e ->
  start now s command params
  = (Throw e, {| activities := activities s;
                 nextId := (nextId s + 1)%N |}, []).
Proof.
  intros H. unfold start, ActivityStore.start. rewrite H. reflexivity.
Qed.

Lemma start_activities (now : Z) (s : Store) (command : jsstring)
      (params : jsval) (text : jsstring) :
  describeIntent command params = Normal text ->
  fst (fst (start now s command params)) = Normal (nextId s)
  /\ snd (start now s command params) = [change]
  /\ exists a,
      id a = nextId s
      /\ ActivityStore.command a = command
      /\ ActivityStore.params a = params
      /\ status a = status_running
      /\ startedAt a = now
      /\ intent a = text
      /\ activities (snd (fst (start now s command params)))
         = take maxEntries (a :: activities s).
Proof.
  intros H. unfold start, ActivityStore.start. rewrite H.
  split; [reflexivity|]. split; [reflexivity|].
  exists {| id := nextId s; ActivityStore.command := command;
            category := getCategory command;
            intent := text;
            ActivityStore.params := params; status := status_running;
            startedAt := now; finishedAt := None; durationMs := None;
            payload := None; error := None |}.
  repeat split.
  cbn [fst snd activities length].
  destruct (Nat.ltb_spec maxEntries (S (length (activities s))))
    as [Hlt|Hge].
  - reflexivity.
  - symmetry. apply take_ge. cbn [length]. lia.
Qed.

Lemma start_preserves (now : Z) (s : Store) (command : jsstring)
      (params : jsval) :
  invariant s -> invariant (snd (fst (start now s command params))).
Proof.
  intros [Hb Ho Hf].
  pose proof (start_nextId now s command params) as Hn.
  destruct (describeIntent command params) as [text|e] eqn:Hd.
  - destruct (start_activities now s command params text Hd)
      as [_ [_ [a [Hid [_ [_ [_ [_ [_ Hacts]]]]]]]]].
    constructor.
    + rewrite Hacts, length_take. lia.
    + unfold ids. rewrite Hacts. rewrite <- firstn_map.
      apply newest_first_take. simpl. constructor; [exact Ho|].
      rewrite Hid. exact Hf.
    + unfold ids. rewrite Hacts, Hn, <- firstn_map. apply Forall_take.
      simpl. constructor; [lia|].
      eapply Forall_impl; [exact Hf|]. simpl. intros; lia.
  - rewrite (start_throws now s command params e Hd) in *.
    cbn [fst snd] in *. constructor; cbn [activities nextId].
    + exact Hb.
    + exact Ho.
    + unfold ids. cbn [activities].
      eapply Forall_impl; [exact Hf|]. simpl. intros; lia.
Qed.

Lemma finish_preserves (now : Z) (s : Store) (i : N) (ok : bool)
      (result : jsval) (err : option jsstring) :
  invariant s -> invariant (fst (finish now s i ok result err)).
Proof.
  intros [Hb Ho Hf]. unfold finish.
  destruct (List.find _ (activities s)); [|constructor; assumption].
  constructor; unfold ids; simpl.
  - rewrite length_update_first. exact Hb.
  - rewrite map_update_first_id by reflexivity. exact Ho.
  - rewrite map_update_first_id by reflexivity. exact Hf.
Qed.

Lemma call_preserves (s : Store) (c : Call) :
  invariant s -> invariant (call s c).
Proof.
  destruct c; simpl.
  - apply start_preserves.
  - apply finish_preserves.
  - intros [Hb Ho Hf]. constructor; simpl;
      [unfold maxEntries; lia | constructor | constructor].
Qed.

Lemma empty_invariant : invariant empty.
Proof.
  constructor; simpl; [unfold maxEntries; lia | constructor | constructor].
Qed.

Lemma run_invariant (s : Store) (calls : list Call) :
  invariant s -> invariant (run s calls).
Proof.
  revert s. induction calls as [|c calls IH]; intros s H; simpl;
    [exact H|].
  apply IH, call_preserves, H.
Qed.

(** The counter never decreases, so an identifier is never handed
    out twice. *)
Lemma call_nextId (s : Store) (c : Call) :
  (nextId s <= nextId (call s c))%N.
Proof.
  destruct c as [now cmd prm|now i ok result err|]; cbn [call ActivityStore.call].
  - pose proof (start_nextId now s cmd prm) as H. unfold start in H.
    rewrite H. lia.
  - unfold finish. destruct (List.find _ _); simpl; lia.
  - simpl. lia.
Qed.


End Labels.

End ActivityStoreFacts.


(** ** The dispatcher *)

Module RegistryFacts.

Import Registry.

Section Dispatch.

Variable getCategory : jsstring -> jsstring.
Variable describeIntent : jsstring -> jsval -> completion Thrown jsstring.
Variable Number_toString : Z -> jsstring.
Variable handlers : gmap jsstring CommandHandler.

Let dispatch :=
  dispatchCommand getCategory describeIntent Number_toString handlers.

Lemma dispatch_unknown now_start now_finish meanwhile store command params :
  handlers !! command = None ->
  dispatch now_start now_finish meanwhile store command params
  = (Normal (Failure (lit "UNKNOWN_COMMAND")
                     (lit "Unknown command: " ++ command)), store).
Proof.
  intros H. unfold dispatch, dispatchCommand.
  rewrite H. reflexivity.
Qed.

(** An exception of [activityStore.start] leaves [dispatchCommand]
    before the handler is called. *)
Lemma dispatch_start_throws now_start now_finish meanwhile store command
      params handler e :
  handlers !! command = Some handler ->
  describeIntent command params = Throw e ->
  dispatch now_start now_finish meanwhile store command params
  = (Throw e,
     {| ActivityStore.activities := ActivityStore.activities store;
        ActivityStore.nextId := (ActivityStore.nextId store + 1)%N |}).
Proof.
  intros H Hd. unfold dispatch, dispatchCommand. rewrite H.
  rewrite (ActivityStoreFacts.start_throws
             getCategory describeIntent now_start store command params e Hd).
  reflexivity.
Qed.

Lemma dispatch_known now_start now_finish meanwhile store command params
      handler text :
  handlers !! command = Some handler ->
  describeIntent command params = Normal text ->
  fst (dispatch now_start now_finish meanwhile store command params)
  = match handler params with
    | Normal payload => Normal (Success payload)
    | Throw err =>
        match error_message Number_toString err with
        | Normal message => Normal (Failure (lit "COMMAND_ERROR") message)
        | Throw e => Throw e
        end
    end.
Proof.
  intros H Hd. unfold dispatch, dispatchCommand. rewrite H.
  unfold ActivityStore.start. rewrite Hd.
  destruct (handler params) as [payload|err]; [reflexivity|].
  destruct (error_message Number_toString err); reflexivity.
Qed.

End Dispatch.

(** The two shapes of an envelope as a value. *)
Lemma envelope_shape (e : Envelope) :
  (exists payload,
      e = Success payload
      /\ envelope_value e
         = VObj [(lit "ok", VBool true); (lit "payload", payload)])
  \/ (exists code message,
         e = Failure code message
         /\ envelope_value e
            = VObj [(lit "ok", VBool false);
                    (lit "error", VObj [(lit "code", VStr code);
                                        (lit "message", VStr message)])]).
Proof. destruct e; [left | right]; eauto. Qed.

End RegistryFacts.

(** ** The table of handlers *)

Module RegistryTableFacts.

Import JStrFacts Registry RegistryTable.

Lemma In_existsb (k : jsstring) (l : list jsstring) :
  existsb (eqb k) l = true <-> In k l.
Proof.
  rewrite existsb_exists. split.
  - intros [x [Hx E]]. apply eqb_eq in E. subst x. exact Hx.
  - intros H. exists k. split; [exact H | apply eqb_refl].
Qed.

Section Handlers.

Variable handler_of : jsstring -> CommandHandler.

Let set (m : gmap jsstring CommandHandler) (name : jsstring) :=
  <[name := handler_of name]> m.

Lemma lookup_set_absent (l : list jsstring) : forall m k,
  ~ In k l -> fold_left set l m !! k = m !! k.
Proof.
  induction l as [|n l IH]; intros m k H; [reflexivity|].
  cbn [fold_left]. rewrite IH by (intros Hin; apply H; right; exact Hin).
  unfold set. apply lookup_insert_ne. intros ->. apply H. left. reflexivity.
Qed.

Lemma lookup_set_present (l : list jsstring) : forall m k,
  In k l -> fold_left set l m !! k = Some (handler_of k).
Proof.
  induction l as [|n l IH]; intros m k H; [destruct H|].
  cbn [fold_left].
  destruct (existsb (eqb k) l) eqn:E;
    [apply IH, In_existsb, E|].
  assert (Hl : ~ In k l)
    by (intros Hin; apply In_existsb in Hin; congruence).
  rewrite lookup_set_absent by exact Hl.
  destruct H as [->|H]; [|contradiction].
  unfold set. apply lookup_insert_eq.
Qed.

Lemma handlers_lookup (k : jsstring) :
  handlers handler_of !! k
  = if existsb (eqb k) names then Some (handler_of k) else None.
Proof.
  unfold handlers. fold set.
  destruct (existsb (eqb k) names) eqn:E.
  - apply lookup_set_present. apply existsb_exists in E as [x [Hx E]].
    apply eqb_eq in E. subst x. exact Hx.
  - rewrite lookup_set_absent; [apply lookup_empty|].
    intros Hin. apply not_true_iff_false in E. apply E.
    apply existsb_exists. exists k. split; [exact Hin | apply eqb_refl].
Qed.

End Handlers.

Lemma registered_names : getRegisteredCommands = names.
Proof. vm_compute. reflexivity. Qed.

Lemma names_NoDup : NoDup names.
Proof. apply (bool_decide_unpack (NoDup names)). vm_compute. exact I. Qed.

End RegistryTableFacts.

(** C7: [dispatchCommand] can throw.  For the registered command
    [vscode.lang.definition] and the parameters
    [{"path": "a.ts", "line": {"toString": 1}}], [describeIntent]
    converts [p.line] to a string inside a template literal; the
    object has an own property [toString] that is not callable, so the
    conversion throws a [TypeError].  [activityStore.start] is called
    before the [try]: the exception leaves [dispatchCommand], whatever
    the handler is, with the counter of the store incremented and no
    record inserted.  On every input the result is as follows: the
    failure [UNKNOWN_COMMAND] without a handler; with a handler, the
    exception of [describeIntent] if it throws, and otherwise
    [{ok: true, payload}] when the handler fulfils and the failure
    [COMMAND_ERROR] with the message of the exception when it throws or
    rejects, unless that exception is not an [Error] and its conversion
    to a string throws. *)
Theorem dispatchCommand_start_outside_try
        (getCategory : jsstring -> jsstring)
        (Number_toString : Z -> jsstring) :
  (forall (handler_of : jsstring -> Registry.CommandHandler)
          now_start now_finish meanwhile store,
      Registry.dispatchCommand
        getCategory (ActivityLabels.describeIntent Number_toString)
        Number_toString (RegistryTable.handlers handler_of)
        now_start now_finish meanwhile store
        (lit "vscode.lang.definition")
        (VObj [(lit "path", VStr (lit "a.ts"));
               (lit "line", VObj [(lit "toString", VNum 1)])])
      = (Throw (ThrownError noPrimitive),
         {| ActivityStore.activities := ActivityStore.activities store;
            ActivityStore.nextId := (ActivityStore.nextId store + 1)%N |}))
  /\ (forall (describeIntent : jsstring -> jsval
                               -> completion Thrown jsstring)
             (handlers : gmap jsstring Registry.CommandHandler)
             now_start now_finish meanwhile store command params,
         let r := fst (Registry.dispatchCommand
                         getCategory describeIntent Number_toString handlers
                         now_start now_finish meanwhile store
                         command params) in
         match handlers !! command with
         | None =>
             r = Normal (Registry.Failure
                           (lit "UNKNOWN_COMMAND")
                           (lit "Unknown command: " ++ command))
         | Some handler =>
             match describeIntent command params with
             | Throw e => r = Throw e
             | Normal _ =>
                 match handler params with
                 | Normal payload => r = Normal (Registry.Success payload)
                 | Throw (ThrownError message) =>
                     r = Normal (Registry.Failure (lit "COMMAND_ERROR")
                                                  message)
                 | Throw (ThrownValue v) =>
                     match ToString Number_toString v with
                     | Normal message =>
                         r = Normal (Registry.Failure
                                       (lit "COMMAND_ERROR") message)
                     | Throw e => r = Throw e
                     end
                 end
             end
         end).
Proof.
  split.
  - intros handler_of now_start now_finish meanwhile store.
    apply RegistryFacts.dispatch_start_throws
      with (handler := handler_of (lit "vscode.lang.definition")).
    + rewrite RegistryTableFacts.handlers_lookup.
      replace (existsb (eqb (lit "vscode.lang.definition"))
                       RegistryTable.names) with true
        by (vm_compute; reflexivity).
      reflexivity.
    + vm_compute. reflexivity.
  - intros describeIntent handlers now_start now_finish meanwhile store
           command params r. subst r.
    destruct (handlers !! command) as [handler|] eqn:H.
    + destruct (describeIntent command params) as [text|e] eqn:Hd.
      * rewrite (RegistryFacts.dispatch_known
                   getCategory describeIntent Number_toString handlers
                   now_start now_finish meanwhile store command params
                   handler text H Hd).
        destruct (handler params) as [payload|[message|v]];
          try reflexivity.
        cbn [Registry.error_message].
        destruct (ToString Number_toString v); reflexivity.
      * rewrite (RegistryFacts.dispatch_start_throws
                   getCategory describeIntent Number_toString handlers
                   now_start now_finish meanwhile store command params
                   handler e H Hd).
        reflexivity.
    + rewrite RegistryFacts.dispatch_unknown by exact H. reflexivity.
Qed.

(** ** The gateway client *)

Module GatewayFacts.

Import JStrFacts Gateway GatewayTerms.

(** Projections of a log distribute over concatenation. *)
Lemma sent_frames_app (a b : list Action) :
  sent_frames (a ++ b) = sent_frames a ++ sent_frames b.
Proof. unfold sent_frames. apply omap_app. Qed.

Lemma handshakes_app (a b : list Action) :
  handshakes (a ++ b) = handshakes a ++ handshakes b.
Proof. unfold handshakes. rewrite sent_frames_app. apply List.filter_app. Qed.

Lemma invoke_results_app (a b : list Action) :
  invoke_results (a ++ b) = invoke_results a ++ invoke_results b.
Proof. unfold invoke_results. rewrite sent_frames_app. apply omap_app. Qed.

Lemma invocations_app (a b : list Action) :
  invocations (a ++ b) = invocations a ++ invocations b.
Proof. unfold invocations. apply omap_app. Qed.



(** *** The held socket *)

Lemma readyState_spec c r :
  readyState c = Some r <-> exists k, ws c = Some k /\ sockets c !! k = Some r.
Proof.
  unfold readyState. destruct (ws c) as [k|]; split.
  - intros H. exists k. split; [reflexivity | exact H].
  - intros [k' [E H]]. injection E as <-. exact H.
  - discriminate.
  - intros [k' [E _]]. discriminate.
Qed.

Lemma is_OPEN_true c : is_OPEN c = true <-> readyState c = Some OPEN.
Proof.
  unfold is_OPEN. destruct (readyState c) as [[]|]; split;
    congruence.
Qed.

Section Client.

Variable randomUUID : nat -> jsstring.
Variable JSON_parse : jsstring -> completion Thrown jsval.
Variable JSON_stringify : jsval -> completion jsstring (option jsstring).
Variable Number_toString : Z -> jsstring.
Variable opts_token : option jsstring.
Variable onInvoke_throws : jsstring -> jsval -> option Thrown.

Let settle := settle JSON_stringify.
Let request := request randomUUID JSON_stringify.
Let sendConnect := sendConnect randomUUID JSON_stringify opts_token.
Let sendInvokeResult := sendInvokeResult randomUUID JSON_stringify.
Let handleInvoke_catch :=
  handleInvoke_catch randomUUID JSON_stringify Number_toString.
Let invoke :=
  invoke randomUUID JSON_parse JSON_stringify Number_toString
         onInvoke_throws.
Let handleInvoke_resume :=
  handleInvoke_resume randomUUID JSON_stringify Number_toString.
Let coerceInvokePayload := coerceInvokePayload JSON_stringify.
Let handleMessage :=
  handleMessage randomUUID JSON_parse JSON_stringify Number_toString
                opts_token onInvoke_throws.
Let step :=
  step randomUUID JSON_parse JSON_stringify Number_toString opts_token
       onInvoke_throws.
Let run :=
  run randomUUID JSON_parse JSON_stringify Number_toString opts_token
      onInvoke_throws.
Let connect_frame := connect_frame opts_token.
Let trigger := trigger JSON_parse.
Let serializable := serializable JSON_stringify.
Let send_result := send_result randomUUID JSON_stringify.
Let sendable := sendable JSON_stringify.

(** What the listener of [message] makes of a frame: the result of
    [handleMessage], or the client as an exception left it. *)
Let on_message (raw : jsstring) (c : Client) : Client * list Action :=
  match handleMessage raw c with
  | Normal r => r
  | Throw (_, c1) => (c1, [])
  end.

Lemma step_message socket raw c :
  step c (WsMessage socket raw) = on_message raw c.
Proof. reflexivity. Qed.

(** *** [request] *)

(** On a socket that is held and open, [request] adds the entry to
    [pending] and sends the frame, unless the frame does not
    serialize: the promise is then rejected at once. *)
Lemma request_open method params k c socket :
  ws c = Some socket -> sockets c !! socket = Some OPEN ->
  let id := randomUUID (uuids c) in
  let frame := {| frame_id := id; frame_method := method;
                  frame_params := params |} in
  let c1 := set_uuids (S (uuids c))
                      (set_pending (<[id := k]> (pending c)) c) in
  request method params k c
  = match serialize JSON_stringify frame with
    | Normal _ => (c1, [Send socket frame])
    | Throw message => settle k (Throw message) c1
    end.
Proof.
  intros Hw Hs. unfold request, Gateway.request, readyState.
  rewrite Hw, Hs. reflexivity.
Qed.

Lemma request_not_open method params k c :
  readyState c <> Some OPEN ->
  request method params k c = settle k (Throw (lit "not connected")) c.
Proof.
  intros H. unfold request, Gateway.request.
  destruct (ws c) as [socket|] eqn:Hw; [|reflexivity].
  destruct (readyState c) as [[]|]; try reflexivity. congruence.
Qed.

(** *** The ways a message is handled *)

(** Whatever a frame holds, the listener does one of five things:
    nothing; the handshake, after a challenge that carries a nonce; the
    call of the handler, for an invocation whose payload is accepted;
    the settlement of a pending request; the removal of a pending
    request that is then left unsettled, when the message of its
    error has no conversion to a string. *)
Lemma handleMessage_cases raw c :
  let r := on_message raw c in
  r = (c, [])
  \/ (exists s, challenge_nonce (JSON_parse raw) = Some s
                /\ r = sendConnect (set_connectNonce (Some s) c))
  \/ (exists parsed payload frame,
         JSON_parse raw = Normal parsed
         /\ get_prop parsed (lit "payload") = Normal payload
         /\ coerceInvokePayload payload = Normal (Some frame)
         /\ challenge_nonce (JSON_parse raw) = None
         /\ r = invoke frame c)
  \/ (exists s k outcome,
         pending c !! s = Some k
         /\ challenge_nonce (JSON_parse raw) = None
         /\ r = settle k outcome (set_pending (delete s (pending c)) c))
  \/ (exists s k,
         pending c !! s = Some k
         /\ challenge_nonce (JSON_parse raw) = None
         /\ r = (set_pending (delete s (pending c)) c, [])).
Proof.
  unfold on_message, handleMessage, Gateway.handleMessage, challenge_nonce.
  destruct (JSON_parse raw) as [parsed|e] eqn:Hparse;
    [|left; reflexivity].
  destruct parsed as [| |b|n|s|items|fields];
    cbn [leaving cbind get_prop is_string truthy orb];
    try (left; reflexivity).
  set (event := lookup_field fields (lit "event")).
  set (type := lookup_field fields (lit "type")).
  destruct (is_string type (lit "event") || truthy event) eqn:Hev.
  - destruct (is_string event (lit "connect.challenge")) eqn:Hch.
    + set (payload := lookup_field fields (lit "payload")).
      destruct payload as [| |b|n|s|items|pf];
        cbn [truthy get_prop_opt get_prop];
        try (left; reflexivity).
      1-3: match goal with
           | |- context [if ?b then None else None] => destruct b
           end; left; reflexivity.
      destruct (lookup_field pf (lit "nonce")) as [| |b|n|s|items|nf];
        try (left; reflexivity).
      destruct (eqb s []);
        [left; reflexivity | right; left; eauto].
    + destruct (is_string event (lit "node.invoke.request")).
      * destruct (Gateway.coerceInvokePayload JSON_stringify
                    (lookup_field fields (lit "payload")))
          as [[frame|]|e] eqn:Hco; cbn [leaving cbind];
          [ | left; reflexivity | left; reflexivity].
        right; right; left.
        exists (VObj fields), (lookup_field fields (lit "payload")), frame.
        repeat split; assumption || reflexivity.
      * left; reflexivity.
  - assert (Hch : is_string event (lit "connect.challenge") = false).
    { unfold is_string in *. destruct event; try reflexivity.
      apply orb_false_iff in Hev as [_ Hev]. cbn [truthy] in Hev.
      apply negb_false_iff, eqb_eq in Hev. subst s. reflexivity. }
    rewrite Hch.
    set (id := lookup_field fields (lit "id")).
    destruct (is_string type (lit "res") || truthy id);
      [|left; reflexivity].
    destruct id as [| |b|n|s|items|idf];
      try (left; reflexivity).
    destruct (pending c !! s) as [k|] eqn:Hk; cbn [option_map];
      [|left; reflexivity].
    destruct (is_string _ (lit "accepted"));
      [left; reflexivity|].
    destruct (truthy (lookup_field fields (lit "ok")));
      [right; right; right; left;
       do 3 eexists; repeat split; eassumption || reflexivity|].
    match goal with
    | |- context [leaving ?c1 ?x] => destruct x as [message|e]
    end; cbn [leaving cbind].
    + right; right; right; left.
      do 3 eexists; repeat split; eassumption || reflexivity.
    + right; right; right; right.
      do 2 eexists; repeat split; eassumption || reflexivity.
Qed.

Lemma handleMessage_challenge raw c s :
  challenge_nonce (JSON_parse raw) = Some s ->
  on_message raw c = sendConnect (set_connectNonce (Some s) c).
Proof.
  unfold on_message, handleMessage, Gateway.handleMessage, challenge_nonce.
  destruct (JSON_parse raw) as [[| |b|n|x|items|fields]|e];
    try discriminate.
  cbn [leaving cbind get_prop].
  destruct (is_string (lookup_field fields (lit "event"))
                      (lit "connect.challenge")) eqn:Hch; [|discriminate].
  assert (Hev : truthy (lookup_field fields (lit "event")) = true).
  { unfold is_string in Hch.
    destruct (lookup_field fields (lit "event")); try discriminate.
    apply eqb_eq in Hch. subst. reflexivity. }
  rewrite Hev, orb_true_r.
  destruct (lookup_field fields (lit "payload")) as [| |b|n|x|items|pf];
    try discriminate.
  cbn [truthy get_prop_opt get_prop].
  destruct (lookup_field pf (lit "nonce")) as [| |b|n|x|items|nf];
    try discriminate.
  destruct (eqb x []); [discriminate|].
  intros H. injection H as ->. reflexivity.
Qed.

(** *** What the operations do to the backoff *)

Lemma quiet_refl c : quiet c (c, []).
Proof. repeat split. Qed.




Lemma settle_invoke_quiet o c : quiet c (settle OnInvokeResult o c).
Proof. destruct o; apply quiet_refl. Qed.




(** [sendInvokeResult] either throws before it changes anything, or
    makes one request. *)
Lemma sendInvokeResult_request frame result c r :
  sendInvokeResult frame result c = Normal r ->
  exists p,
    r = send_result p c
    /\ result_id p = id frame /\ result_nodeId p = nodeId frame.
Proof.
  unfold sendInvokeResult, Gateway.sendInvokeResult.
  destruct (get_prop result (lit "ok")) as [ok|e]; [|discriminate].
  cbn [cbind].
  destruct (truthy ok && _).
  - unfold stringify. destruct (JSON_stringify _); [|discriminate].
    cbn [cbind]. intros H. injection H as <-.
    eexists. split; [reflexivity|]. split; reflexivity.
  - destruct (negb (truthy ok)); cbn [cbind];
      intros H; injection H as <-;
      (eexists; split; [reflexivity|]; split; reflexivity).
Qed.

Lemma handleInvoke_catch_request frame err c r :
  handleInvoke_catch frame err c = Normal r ->
  exists message,
    error_message Number_toString err = Normal message
    /\ r = send_result (internal_error_params frame message) c.
Proof.
  unfold handleInvoke_catch, Gateway.handleInvoke_catch.
  destruct (error_message Number_toString err) as [message|e];
    [|discriminate].
  cbn [cbind]. intros H. injection H as <-. exists message.
  split; reflexivity.
Qed.










(** *** Sequences of events *)

Lemma run_cons c e rest :
  run c (e :: rest)
  = (fst (run (fst (step c e)) rest),
     snd (step c e) ++ snd (run (fst (step c e)) rest)).
Proof.
  unfold run, step. cbn [Gateway.run].
  destruct (Gateway.step _ _ _ _ _ _ c e) as [c1 a1]. cbn [fst snd].
  destruct (Gateway.run _ _ _ _ _ _ c1 rest) as [c2 a2]. reflexivity.
Qed.




(** *** What the operations do to the handshake *)

Lemma silent_refl c : silent c (c, []).
Proof. split; reflexivity. Qed.

Lemma close_ws_silent code c : silent c (close_ws code c).
Proof. unfold close_ws. destruct (ws c); split; reflexivity. Qed.

Lemma settle_silent k o c : silent c (settle k o c).
Proof.
  destruct k, o; cbn [settle Gateway.settle]; try apply silent_refl.
  - destruct (JSON_stringify a); [split; reflexivity|].
    apply close_ws_silent.
  - apply close_ws_silent.
Qed.

Lemma request_silent method params k c :
  method <> lit "connect" -> silent c (request method params k c).
Proof.
  intros Hm. unfold request, Gateway.request.
  destruct (ws c) as [socket|]; [|apply settle_silent].
  destruct (readyState c) as [[]|]; try apply settle_silent.
  destruct (serialize _ _).
  - split; [reflexivity|]. unfold handshakes. cbn.
    apply eqb_neq in Hm. rewrite Hm. reflexivity.
  - match goal with
    | |- silent c (Gateway.settle _ k ?o ?c1) =>
        destruct (settle_silent k o c1) as [H1 H2]
    end.
    split; assumption.
Qed.

Lemma send_result_silent p c : silent c (send_result p c).
Proof. apply request_silent. discriminate. Qed.

Lemma sendInvokeResult_silent frame result c r :
  sendInvokeResult frame result c = Normal r -> silent c r.
Proof.
  intros H. apply sendInvokeResult_request in H as [p [-> _]].
  apply send_result_silent.
Qed.

Lemma handleInvoke_catch_silent frame err c r :
  handleInvoke_catch frame err c = Normal r -> silent c r.
Proof.
  intros H. apply handleInvoke_catch_request in H as [m [_ ->]].
  apply send_result_silent.
Qed.

Lemma invoke_silent frame c : silent c (invoke frame c).
Proof.
  unfold invoke, Gateway.invoke, handleInvoke_call.
  destruct (onInvoke_throws _ _) as [err|]; [|split; reflexivity].
  destruct (Gateway.handleInvoke_catch _ _ _ frame err c) as [r'|e] eqn:E;
    [|split; reflexivity].
  apply handleInvoke_catch_silent in E. exact E.
Qed.

Lemma handleInvoke_resume_silent frame awaited c r :
  handleInvoke_resume frame awaited c = Normal r -> silent c r.
Proof.
  unfold handleInvoke_resume, Gateway.handleInvoke_resume.
  destruct awaited as [result|err];
    [|apply handleInvoke_catch_silent].
  destruct (Gateway.sendInvokeResult _ _ frame result c) as [r'|e] eqn:E;
    cbn [try_catch].
  - intros H. injection H as <-. exact (sendInvokeResult_silent _ _ _ _ E).
  - apply handleInvoke_catch_silent.
Qed.

(** [sendConnect] does nothing when the flag is up; otherwise it raises
    the flag, and sends the handshake if the socket that the client
    holds is open. *)
Lemma sendConnect_effect c :
  (connectSent c = true /\ sendConnect c = (c, []))
  \/ (connectSent c = false
      /\ connectSent (fst (sendConnect c)) = true
      /\ handshakes (snd (sendConnect c))
         = match readyState c with
           | Some OPEN =>
               [connect_frame (randomUUID (uuids c)) (connectNonce c)]
           | _ => []
           end).
Proof.
  unfold sendConnect, Gateway.sendConnect.
  destruct (connectSent c) eqn:Hs; [left; split; reflexivity|].
  right. split; [reflexivity|].
  unfold clearConnectTimer, Gateway.request, Gateway.settle, close_ws,
    readyState.
  destruct (connectTimer (set_connectSent true c)) eqn:Ht;
    cbn; destruct (ws c) as [socket|]; cbn;
    try (split; reflexivity);
    destruct (sockets c !! socket) as [[]|]; cbn; split; reflexivity.
Qed.

Lemma sendConnect_sent_effect c : sent_effect c (sendConnect c).
Proof.
  destruct (sendConnect_effect c) as [[H1 H2]|[H1 [H2 H3]]].
  - left. rewrite H2. apply silent_refl.
  - right. repeat split; try assumption. rewrite H3.
    destruct (readyState c) as [[]|]; cbn; lia.
Qed.

Lemma handleMessage_sent_effect raw c : sent_effect c (on_message raw c).
Proof.
  destruct (handleMessage_cases raw c)
    as [->|[[s [_ ->]]|[[parsed [payload [frame [_ [_ [_ [_ ->]]]]]]]
                       |[[s [k [outcome [_ [_ ->]]]]]|[s [k [_ [_ ->]]]]]]]].
  - left. apply silent_refl.
  - apply (sendConnect_sent_effect (set_connectNonce (Some s) c)).
  - left. apply invoke_silent.
  - left. apply (settle_silent k outcome (set_pending (delete s (pending c)) c)).
  - left. split; reflexivity.
Qed.

Lemma step_sent_effect c e : is_open e = false -> sent_effect c (step c e).
Proof.
  destruct e; cbn [is_open step Gateway.step]; try discriminate; intros _.
  - left. unfold start, connect. cbn. split; reflexivity.
  - left. unfold stop, clearConnectTimer, close_ws. cbn.
    destruct (connectTimer c); cbn; destruct (ws c); cbn; split; reflexivity.
  - apply handleMessage_sent_effect.
  - left. unfold scheduleReconnect. cbn. destruct (closed c);
      split; reflexivity.
  - left. apply silent_refl.
  - apply sendConnect_sent_effect.
  - left. unfold connect. destruct (closed c); split; reflexivity.
  - destruct (Gateway.handleInvoke_resume _ _ _ frame awaited c)
      as [r|err] eqn:E.
    + left. exact (handleInvoke_resume_silent _ _ _ _ E).
    + left. apply silent_refl.
Qed.

(** Between two openings of a socket at most one handshake is sent, and
    none once the flag is up. *)
Lemma run_at_most_once events : forall c,
  forallb (fun e => negb (is_open e)) events = true ->
  length (handshakes (snd (run c events)))
  <= (if connectSent c then 0 else 1).
Proof.
  induction events as [|e rest IH]; intros c H.
  - cbn. destruct (connectSent c); lia.
  - cbn [forallb] in H. apply andb_true_iff in H as [He Hrest].
    apply negb_true_iff in He.
    rewrite run_cons. cbn [snd]. rewrite handshakes_app, length_app.
    specialize (IH (fst (step c e)) Hrest).
    destruct (step_sent_effect c e He) as [[H1 H2]|[H1 [H2 H3]]].
    + rewrite H2, H1 in *. cbn [length]. lia.
    + rewrite H2 in IH. rewrite H1. lia.
Qed.

Lemma challenge_nonce_not_empty parsed s :
  challenge_nonce parsed = Some s -> eqb s [] = false.
Proof.
  unfold challenge_nonce.
  destruct parsed as [[| |b|n|x|items|fields]|e]; try discriminate.
  destruct (is_string _ _); [|discriminate].
  destruct (lookup_field fields (lit "payload")); try discriminate.
  destruct (lookup_field _ (lit "nonce")); try discriminate.
  destruct (eqb s0 []) eqn:E; [discriminate|].
  intros H. injection H as <-. exact E.
Qed.

(** A new entry that awaits the result of an invocation leaves the
    attempt waiting. *)
Lemma pending_result_waiting c s n :
  waiting c ->
  waiting (set_uuids n (set_pending (<[s := OnInvokeResult]> (pending c)) c)).
Proof.
  intros [H1 H2 H3 H4]. constructor; cbn; try assumption.
  intros s'. destruct (decide (s = s')) as [->|Hne].
  - rewrite lookup_insert_eq. discriminate.
  - rewrite lookup_insert_ne by exact Hne. apply H4.
Qed.

Lemma send_result_waiting p c :
  waiting c -> waiting (fst (send_result p c)).
Proof.
  intros Hw. pose proof Hw as [H1 H2 H3 H4].
  apply readyState_spec in H2 as [socket [Hws Hs]].
  unfold send_result, GatewayTerms.send_result.
  change (Gateway.request randomUUID JSON_stringify) with request.
  rewrite (request_open _ _ _ c socket Hws Hs). cbv zeta.
  destruct (serialize _ _); cbn [fst settle Gateway.settle];
    apply pending_result_waiting, Hw.
Qed.

Lemma sendInvokeResult_waiting frame result c r :
  waiting c -> sendInvokeResult frame result c = Normal r -> waiting (fst r).
Proof.
  intros Hw H. apply sendInvokeResult_request in H as [p [-> _]].
  apply send_result_waiting, Hw.
Qed.

Lemma handleInvoke_catch_waiting frame err c r :
  waiting c -> handleInvoke_catch frame err c = Normal r -> waiting (fst r).
Proof.
  intros Hw H. apply handleInvoke_catch_request in H as [m [_ ->]].
  apply send_result_waiting, Hw.
Qed.

(** The removal of an entry that does not await the handshake leaves
    the attempt waiting. *)
Lemma delete_waiting c s :
  waiting c -> waiting (set_pending (delete s (pending c)) c).
Proof.
  intros [H1 H2 H3 H4]. constructor; cbn; try assumption.
  intros s' Hs'. apply lookup_delete_Some in Hs' as [_ Hs'].
  exact (H4 s' Hs').
Qed.

(** While the handshake is awaited, an event of the attempt either
    sends it, with the nonce it supplies, or sends none and leaves the
    attempt waiting. *)
Lemma step_waiting c e :
  waiting c -> in_attempt e = true ->
  match trigger e with
  | Some nonce =>
      connectSent (fst (step c e)) = true
      /\ handshakes (snd (step c e))
         = [connect_frame (randomUUID (uuids c)) nonce]
  | None => waiting (fst (step c e)) /\ handshakes (snd (step c e)) = []
  end.
Proof.
  intros Hw He. pose proof Hw as [H1 H2 H3 H4].
  destruct e; try discriminate;
    unfold trigger; cbn [GatewayTerms.trigger].
  - (* a message *)
    rewrite step_message.
    destruct (challenge_nonce (JSON_parse raw)) as [s|] eqn:Hch.
    + rewrite (handleMessage_challenge raw c s Hch).
      destruct (sendConnect_effect (set_connectNonce (Some s) c))
        as [[Hs _]|[_ [Hs Hh]]]; [cbn in Hs; congruence|].
      split; [exact Hs|]. rewrite Hh.
      change (readyState (set_connectNonce (Some s) c)) with (readyState c).
      rewrite H2. reflexivity.
    + destruct (handleMessage_cases raw c)
        as [->|[[s [Hs _]]|[[parsed [payload [frame [_ [_ [_ [_ ->]]]]]]]
                           |[[s [k [outcome [Hk [_ ->]]]]]
                            |[s [k [Hk [_ ->]]]]]]]].
      * split; [exact Hw | reflexivity].
      * congruence.
      * split; [|exact (proj2 (invoke_silent frame c))].
        unfold invoke, Gateway.invoke, handleInvoke_call.
        destruct (onInvoke_throws _ _) as [err|]; [|exact Hw].
        destruct (Gateway.handleInvoke_catch _ _ _ frame err c)
          as [r'|e'] eqn:E; [|exact Hw].
        exact (handleInvoke_catch_waiting _ _ _ _ Hw E).
      * destruct k; [exfalso; exact (H4 s Hk)|].
        destruct outcome; cbn [settle Gateway.settle fst snd];
          (split; [apply delete_waiting, Hw | reflexivity]).
      * split; [apply delete_waiting, Hw | reflexivity].
  - (* an error of the socket *)
    split; [exact Hw | reflexivity].
  - (* the timer *)
    cbn [step Gateway.step].
    destruct (sendConnect_effect c) as [[Hs _]|[_ [Hs Hh]]]; [congruence|].
    split; [exact Hs|]. unfold sendConnect in Hh.
    rewrite Hh, H2, H3. reflexivity.
  - (* a settled invocation *)
    cbn [step Gateway.step].
    destruct (Gateway.handleInvoke_resume _ _ _ frame awaited c)
      as [r|err] eqn:E; [|split; [exact Hw | reflexivity]].
    split; [|exact (proj2 (handleInvoke_resume_silent _ _ _ _ E))].
    revert E. unfold Gateway.handleInvoke_resume.
    destruct awaited as [result|err];
      [|apply handleInvoke_catch_waiting, Hw].
    destruct (Gateway.sendInvokeResult _ _ frame result c) as [r'|e'] eqn:E;
      cbn [try_catch].
    + intros H. injection H as <-.
      exact (sendInvokeResult_waiting _ _ _ _ Hw E).
    + apply handleInvoke_catch_waiting, Hw.
Qed.

(** In an attempt that waits for its handshake, the first trigger sends
    it and nothing after that sends another. *)
Lemma run_exactly_once pre : forall c e post nonce,
  waiting c ->
  forallb in_attempt (pre ++ e :: post) = true ->
  forallb (fun e' => match trigger e' with
                     | None => true
                     | Some _ => false
                     end) pre = true ->
  trigger e = Some nonce ->
  exists id,
    handshakes (snd (run c (pre ++ e :: post))) = [connect_frame id nonce].
Proof.
  induction pre as [|e0 pre IH]; intros c e post nonce Hw Hin Hpre He.
  - cbn [app] in *. cbn [forallb] in Hin.
    apply andb_true_iff in Hin as [Hin Hpost].
    pose proof (step_waiting c e Hw Hin) as Hstep. rewrite He in Hstep.
    destruct Hstep as [Hs Hh].
    rewrite run_cons. cbn [snd]. rewrite handshakes_app, Hh.
    pose proof (run_at_most_once post (fst (step c e))) as Hrest.
    rewrite Hs in Hrest.
    assert (Hno : forallb (fun e => negb (is_open e)) post = true).
    { clear -Hpost. induction post as [|x post IH]; [reflexivity|].
      cbn [forallb] in *. apply andb_true_iff in Hpost as [Hx Hpost].
      rewrite IH by exact Hpost. destruct x; try discriminate; reflexivity. }
    specialize (Hrest Hno).
    destruct (handshakes (snd (run (fst (step c e)) post)));
      [|cbn in Hrest; lia].
    eauto.
  - cbn [app forallb] in *.
    apply andb_true_iff in Hin as [Hin0 Hin].
    apply andb_true_iff in Hpre as [Hpre0 Hpre].
    pose proof (step_waiting c e0 Hw Hin0) as Hstep.
    destruct (trigger e0); [discriminate|].
    destruct Hstep as [Hw' Hh].
    rewrite run_cons. cbn [snd]. rewrite handshakes_app, Hh.
    exact (IH (fst (step c e0)) e post nonce Hw' Hin Hpre He).
Qed.

(** The opening of the socket that the client holds, in a new attempt,
    leaves the attempt waiting. *)
Lemma open_waiting c socket :
  ws c = Some socket -> sockets c !! socket = Some CONNECTING ->
  pending c = ∅ ->
  waiting (fst (step c (WsOpen socket)))
  /\ handshakes (snd (step c (WsOpen socket))) = [].
Proof.
  intros Hws Hs Hp. cbn [step Gateway.step].
  unfold queueConnect. cbn. split.
  - constructor; cbn; try reflexivity.
    + unfold readyState. cbn. rewrite Hws.
      rewrite list_lookup_alter_eq, Hs. reflexivity.
    + intros s. rewrite Hp, lookup_empty. discriminate.
  - destruct (connectTimer c); reflexivity.
Qed.

(** *** Invocations *)

Lemma trimmed_string_blank v : blank v <-> trimmed_string v = [].
Proof.
  destruct v; cbn [blank trimmed_string]; try tauto.
  symmetry. apply trim_nil_iff.
Qed.

Lemma coerce_malformed payload :
  malformed payload -> coerceInvokePayload payload = Normal None.
Proof.
  intros H. unfold coerceInvokePayload, Gateway.coerceInvokePayload.
  assert (Hb : eqb (trimmed_string (get_prop_opt payload (lit "id"))) []
               || eqb (trimmed_string (get_prop_opt payload (lit "nodeId"))) []
               || eqb (trimmed_string (get_prop_opt payload (lit "command"))) []
               = true).
  { destruct H as [H|[H|H]]; apply trimmed_string_blank in H; rewrite H;
      rewrite eqb_refl, ?orb_true_r; reflexivity. }
  destruct payload; try reflexivity; rewrite Hb; reflexivity.
Qed.

Lemma coerce_valid pfields i n cm :
  lookup_field pfields (lit "id") = VStr i ->
  lookup_field pfields (lit "nodeId") = VStr n ->
  lookup_field pfields (lit "command") = VStr cm ->
  trim i <> [] -> trim n <> [] -> trim cm <> [] ->
  serializable pfields ->
  exists frame,
    coerceInvokePayload (VObj pfields) = Normal (Some frame)
    /\ id frame = trim i /\ nodeId frame = trim n /\ command frame = trim cm.
Proof.
  intros Hi Hn Hc Hti Htn Htc Hser.
  unfold coerceInvokePayload, Gateway.coerceInvokePayload, stringify.
  cbn [get_prop_opt get_prop]. rewrite Hi, Hn, Hc. cbn [trimmed_string].
  apply eqb_neq in Hti, Htn, Htc. rewrite Hti, Htn, Htc. cbn [orb].
  unfold serializable, GatewayTerms.serializable in Hser.
  destruct (lookup_field pfields (lit "paramsJSON"));
    try (cbn [cbind]; eexists; repeat split; reflexivity);
    destruct (lookup_field pfields (lit "params"));
    try (cbn [cbind]; eexists; repeat split; reflexivity);
    destruct Hser as [j ->]; cbn [cbind]; eexists; repeat split; reflexivity.
Qed.

(** Sending a result puts exactly one frame on the socket when the
    client holds an open socket and the frame serializes, and nothing
    otherwise. *)
Lemma send_result_frames p c :
  let out := goes_out randomUUID JSON_stringify p c in
  snd (send_result p c)
  = (if out
     then [Send (default 0 (ws c)) (result_frame randomUUID p c)]
     else [])
  /\ invoke_results (snd (send_result p c)) = (if out then [p] else [])
  /\ length (sent_frames (snd (send_result p c))) = (if out then 1 else 0)
  /\ invocations (snd (send_result p c)) = [].
Proof.
  unfold goes_out, send_result, GatewayTerms.send_result, Gateway.request,
    is_OPEN, result_frame.
  destruct (ws c) as [socket|] eqn:Hw.
  - destruct (readyState c) as [[]|]; cbn [andb Gateway.settle];
      try (repeat split; reflexivity).
    destruct (serialize _ _); repeat split; reflexivity.
  - unfold readyState. rewrite Hw. repeat split; reflexivity.
Qed.

(** A result whose frame serializes goes out exactly when the client
    holds an open socket. *)
Lemma sendable_goes_out p c :
  sendable p -> goes_out randomUUID JSON_stringify p c = is_OPEN c.
Proof.
  intros H. unfold goes_out, serialize, result_frame.
  cbn [frame_params frame_id frame_method].
  destruct (H (randomUUID (uuids c))) as [text ->].
  apply andb_true_r.
Qed.

(** The result of an internal error is a failure whose code and
    message are strings. *)
Lemma internal_error_value frame message c :
  sendInvokeResult frame (internal_error message) c
  = Normal (send_result (internal_error_params frame message) c).
Proof. reflexivity. Qed.

Lemma handleInvoke_catch_eq frame err c :
  handleInvoke_catch frame err c
  = match error_message Number_toString err with
    | Normal message =>
        Normal (send_result (internal_error_params frame message) c)
    | Throw e => Throw e
    end.
Proof.
  unfold handleInvoke_catch, Gateway.handleInvoke_catch.
  destruct (error_message Number_toString err); reflexivity.
Qed.

(** What [sendInvokeResult] throws is an [Error]: the [TypeError] of
    reading [ok] on [null] or [undefined], or the exception of
    [JSON.stringify]. *)
Lemma sendInvokeResult_throws frame result c e :
  sendInvokeResult frame result c = Throw e ->
  exists message, e = ThrownError message.
Proof.
  unfold sendInvokeResult, Gateway.sendInvokeResult.
  destruct result; cbn [get_prop cbind];
    try (intros H; injection H as <-; eauto; fail);
    match goal with
    | |- context [if ?b then _ else _] => destruct b
    end;
    unfold stringify;
    try match goal with
      | |- context [JSON_stringify ?v] => destruct (JSON_stringify v)
      end; cbn [cbind];
    try discriminate;
    try (intros H; injection H as <-; eauto; fail);
    match goal with
    | |- context [if ?b then _ else _] => destruct b
    end; discriminate.
Qed.

(** Whatever the handler settles with, [handleInvoke] goes on to send
    one result for the frame and does not reject, unless the handler
    failed with a value that is not an [Error] and whose conversion to
    a string throws: [handleInvoke] then rejects with that exception
    and nothing is sent. *)
Lemma handleInvoke_resume_result frame awaited c :
  (exists p,
      handleInvoke_resume frame awaited c = Normal (send_result p c)
      /\ result_id p = id frame
      /\ result_nodeId p = nodeId frame)
  \/ (exists v e,
         awaited = Throw (ThrownValue v)
         /\ ToString Number_toString v = Throw e
         /\ handleInvoke_resume frame awaited c = Throw e).
Proof.
  unfold handleInvoke_resume, Gateway.handleInvoke_resume.
  destruct awaited as [result|err].
  - left.
    destruct (Gateway.sendInvokeResult _ _ frame result c) as [r|e] eqn:E;
      cbn [try_catch].
    + apply sendInvokeResult_request in E as [p [-> [H1 H2]]].
      exists p. repeat split; assumption.
    + apply sendInvokeResult_throws in E as [message ->].
      fold handleInvoke_catch. rewrite handleInvoke_catch_eq.
      cbn [error_message Registry.error_message].
      eexists. split; [reflexivity|]. split; reflexivity.
  - fold handleInvoke_catch. rewrite handleInvoke_catch_eq.
    destruct err as [message|v]; cbn [error_message Registry.error_message].
    + left. eexists. split; [reflexivity|]. split; reflexivity.
    + destruct (ToString Number_toString v) as [message|e] eqn:E.
      * left. eexists. split; [reflexivity|]. split; reflexivity.
      * right. exists v, e. repeat split; assumption.
Qed.

(** A rejection, or an exception thrown by the handler, is reported as
    an internal error with its message. *)
Lemma handleInvoke_resume_throw frame err message c :
  error_message Number_toString err = Normal message ->
  handleInvoke_resume frame (Throw err) c
  = Normal (send_result (internal_error_params frame message) c).
Proof.
  intros H. unfold handleInvoke_resume, Gateway.handleInvoke_resume.
  fold handleInvoke_catch. rewrite handleInvoke_catch_eq, H. reflexivity.
Qed.

(** A value without properties, as [undefined] or [null], is reported
    as an internal error too. *)
Lemma handleInvoke_resume_nullish frame result c :
  result = VUndefined \/ result = VNull ->
  handleInvoke_resume frame (Normal result) c
  = Normal (send_result
              (internal_error_params
                 frame (typeErrorMessage result (lit "ok")))
              c).
Proof. intros [->| ->]; reflexivity. Qed.

(** A failure reported by the handler is passed on as it is. *)
Lemma handleInvoke_resume_failure frame code message c :
  handleInvoke_resume
    frame (Normal (Registry.envelope_value (Registry.Failure code message))) c
  = Normal (send_result
              {| result_id := id frame;
                 result_nodeId := nodeId frame;
                 result_ok := VBool false;
                 result_payloadJSON := None;
                 result_error :=
                   Some (VObj [(lit "code", VStr code);
                               (lit "message", VStr message)]) |} c).
Proof. reflexivity. Qed.

(** The first part of [handleInvoke]: the handler is called once; if
    the call throws, the internal error is sent at once, unless the
    exception is not an [Error] and has no conversion to a string. *)
Lemma invoke_result frame c :
  let params := invoke_params JSON_parse frame in
  let called := OnInvoke frame (command frame) params in
  invoke frame c
  = match onInvoke_throws (command frame) params with
    | Some err =>
        match error_message Number_toString err with
        | Normal message =>
            (fst (send_result (internal_error_params frame message) c),
             called
             :: snd (send_result (internal_error_params frame message) c))
        | Throw _ => (c, [called])
        end
    | None => (c, [called])
    end.
Proof.
  unfold invoke, Gateway.invoke, handleInvoke_call. cbv zeta.
  destruct (onInvoke_throws _ _) as [err|]; [|reflexivity].
  fold handleInvoke_catch. rewrite handleInvoke_catch_eq.
  destruct (error_message Number_toString err); reflexivity.
Qed.

(** A frame of the event [node.invoke.request] is handled by coercing
    its payload and, if that gives a frame, calling the handler. *)
Lemma handleMessage_invoke raw fields c :
  JSON_parse raw = Normal (VObj fields) ->
  lookup_field fields (lit "event") = VStr (lit "node.invoke.request") ->
  on_message raw c
  = match coerceInvokePayload (lookup_field fields (lit "payload")) with
    | Normal (Some frame) => invoke frame c
    | _ => (c, [])
    end.
Proof.
  intros Hp He. unfold on_message, handleMessage, Gateway.handleMessage.
  rewrite Hp. cbn [leaving cbind get_prop]. rewrite He.
  replace (truthy (VStr (lit "node.invoke.request"))) with true
    by reflexivity.
  rewrite orb_true_r.
  replace (is_string (VStr (lit "node.invoke.request"))
                     (lit "connect.challenge")) with false by reflexivity.
  replace (is_string (VStr (lit "node.invoke.request"))
                     (lit "node.invoke.request")) with true by reflexivity.
  unfold coerceInvokePayload.
  destruct (Gateway.coerceInvokePayload JSON_stringify _) as [[frame|]|e];
    reflexivity.
Qed.

Lemma step_settled frame awaited c :
  (exists p,
      step c (InvokeSettled frame awaited) = send_result p c
      /\ result_id p = id frame
      /\ result_nodeId p = nodeId frame)
  \/ (exists v e,
         awaited = Throw (ThrownValue v)
         /\ ToString Number_toString v = Throw e
         /\ step c (InvokeSettled frame awaited) = (c, [])).
Proof.
  destruct (handleInvoke_resume_result frame awaited c)
    as [[p [H [H1 H2]]]|[v [e [Ha [Hv H]]]]];
    cbn [step Gateway.step]; unfold handleInvoke_resume in H; rewrite H.
  - left. exists p. auto.
  - right. exists v, e. auto.
Qed.

End Client.

End GatewayFacts.


(** C1, as stated, fails: a valid invocation arrives on an open
    connection and its handler is called; the connection closes while
    the handler runs; when the handler succeeds, no result is sent. *)
Lemma invocation_result_lost_after_close :
  let events := [Gateway.Start; Gateway.WsOpen 0; Gateway.ConnectTimerFired;
                 Gateway.WsMessage 0 (lit "connected");
                 Gateway.WsMessage 0 (lit "invoke");
                 Gateway.WsCloseEvent 0 1006;
                 Gateway.InvokeSettled
                   Example.frame
                   (Normal (Registry.envelope_value
                              (Registry.Success (VObj []))))] in
  Gateway.invocations (snd (Example.run Gateway.init events))
  = [(Example.frame, lit "vscode.git.status", VObj [])]
  /\ Gateway.invoke_results (snd (Example.run Gateway.init events)) = []
  /\ GatewayInvariants.reported (snd (Example.run Gateway.init events))
     = [Gateway.connecting; Gateway.connected; Gateway.disconnected].
Proof. vm_compute. repeat split; reflexivity. Qed.

(** C1 (amended): for a frame of the event [node.invoke.request]
    whose id, node and command are strings that are not blank, and
    whose parameters come as text or serialize, the handler is called
    exactly once, with the trimmed command.  If the call throws at
    once, or when the promise of the handler settles (fulfilled with
    any value, conforming or not, or rejected), and the failure is an
    [Error] or has a conversion to a string, [handleInvoke] does not
    reject and makes exactly one request carrying the id and the node
    of the frame; its frame is sent, once, if the client holds an open
    socket at that moment and the frame serializes, and nothing is
    sent otherwise.  An exception, a rejection and a value without
    properties are reported as [INTERNAL_ERROR]; a failure reported by
    the handler is passed on.  [dispatchCommand] returns an envelope
    whenever [describeIntent] does not throw and the exception of the
    handler, if any, is an [Error] or has a conversion to a string. *)
Theorem invocation_result_once
        (randomUUID : nat -> jsstring)
        (JSON_parse : jsstring -> completion Thrown jsval)
        (JSON_stringify : jsval -> completion jsstring (option jsstring))
        (Number_toString : Z -> jsstring)
        (opts_token : option jsstring)
        (onInvoke_throws : jsstring -> jsval -> option Thrown) :
  let step := Gateway.step randomUUID JSON_parse JSON_stringify
                           Number_toString opts_token onInvoke_throws in
  let send_result := GatewayTerms.send_result randomUUID JSON_stringify in
  let internal_error := GatewayTerms.internal_error_params in
  let goes_out := GatewayTerms.goes_out randomUUID JSON_stringify in
  let message_of := Registry.error_message Number_toString in
  let count p c := if goes_out p c then 1 else 0 in
  (forall c socket raw fields pfields i n cm,
      JSON_parse raw = Normal (VObj fields) ->
      lookup_field fields (lit "event") = VStr (lit "node.invoke.request") ->
      lookup_field fields (lit "payload") = VObj pfields ->
      lookup_field pfields (lit "id") = VStr i ->
      lookup_field pfields (lit "nodeId") = VStr n ->
      lookup_field pfields (lit "command") = VStr cm ->
      trim i <> [] -> trim n <> [] -> trim cm <> [] ->
      GatewayTerms.serializable JSON_stringify pfields ->
      exists frame,
        Gateway.id frame = trim i
        /\ Gateway.nodeId frame = trim n
        /\ Gateway.command frame = trim cm
        /\ let params := Gateway.invoke_params JSON_parse frame in
           let r := step c (Gateway.WsMessage socket raw) in
           Gateway.invocations (snd r) = [(frame, trim cm, params)]
           /\ match onInvoke_throws (trim cm) params with
              | None => r = (c, [Gateway.OnInvoke frame (trim cm) params])
              | Some err =>
                  forall message,
                    message_of err = Normal message ->
                    let p := internal_error frame message in
                    Gateway.invoke_results (snd r)
                    = (if goes_out p c then [p] else [])
                    /\ length (Gateway.sent_frames (snd r)) = count p c
              end)
  /\ (forall c frame awaited,
         (forall v,
             awaited = Throw (ThrownValue v) ->
             exists message, ToString Number_toString v = Normal message) ->
         exists p,
           Gateway.result_id p = Gateway.id frame
           /\ Gateway.result_nodeId p = Gateway.nodeId frame
           /\ step c (Gateway.InvokeSettled frame awaited) = send_result p c
           /\ Gateway.invoke_results
                (snd (step c (Gateway.InvokeSettled frame awaited)))
              = (if goes_out p c then [p] else [])
           /\ length (Gateway.sent_frames
                        (snd (step c (Gateway.InvokeSettled frame awaited))))
              = count p c
           /\ Gateway.invocations
                (snd (step c (Gateway.InvokeSettled frame awaited))) = [])
  /\ (forall p c,
         goes_out p c = true
         <-> Gateway.readyState c = Some Gateway.OPEN
             /\ exists text,
                 JSON_stringify
                   (Gateway.frame_value
                      (randomUUID (Gateway.uuids c))
                      (lit "node.invoke.result") (Gateway.result_value p))
                 = Normal text)
  /\ (forall c frame err message,
         message_of err = Normal message ->
         step c (Gateway.InvokeSettled frame (Throw err))
         = send_result (internal_error frame message) c)
  /\ (forall c frame result,
         result = VUndefined \/ result = VNull ->
         step c (Gateway.InvokeSettled frame (Normal result))
         = send_result
             (internal_error frame (typeErrorMessage result (lit "ok"))) c)
  /\ (forall c frame code message,
         step c (Gateway.InvokeSettled
                   frame
                   (Normal (Registry.envelope_value
                              (Registry.Failure code message))))
         = send_result
             {| Gateway.result_id := Gateway.id frame;
                Gateway.result_nodeId := Gateway.nodeId frame;
                Gateway.result_ok := VBool false;
                Gateway.result_payloadJSON := None;
                Gateway.result_error :=
                  Some (VObj [(lit "code", VStr code);
                              (lit "message", VStr message)]) |} c)
  /\ (forall getCategory describeIntent handlers now_start now_finish
             meanwhile store command params,
         (forall handler,
             handlers !! command = Some handler ->
             (exists text, describeIntent command params = Normal text)
             /\ (forall v,
                    handler params = Throw (ThrownValue v) ->
                    exists message,
                      ToString Number_toString v = Normal message)) ->
         exists envelope,
           fst (Registry.dispatchCommand
                  getCategory describeIntent Number_toString handlers
                  now_start now_finish meanwhile store command params)
           = Normal envelope).
Proof.
  intros step send_result internal_error goes_out message_of count.
  repeat apply conj.
  - intros c socket raw fields pfields i n cm
           Hp He Hpl Hi Hn Hc Hti Htn Htc Hser.
    destruct (GatewayFacts.coerce_valid
                JSON_stringify pfields i n cm Hi Hn Hc Hti Htn Htc Hser)
      as [frame [Hco [Hfi [Hfn Hfc]]]].
    exists frame. split; [exact Hfi|]. split; [exact Hfn|].
    split; [exact Hfc|]. cbv zeta.
    assert (Hstep : step c (Gateway.WsMessage socket raw)
                    = Gateway.invoke randomUUID JSON_parse JSON_stringify
                                     Number_toString onInvoke_throws
                                     frame c).
    { subst step. rewrite GatewayFacts.step_message.
      rewrite (GatewayFacts.handleMessage_invoke
                 _ _ _ _ _ _ raw fields c Hp He).
      rewrite Hpl, Hco. reflexivity. }
    rewrite Hstep, GatewayFacts.invoke_result. cbv zeta. rewrite Hfc.
    unfold Gateway.error_message.
    destruct (onInvoke_throws _ _) as [err|];
      [|split; reflexivity].
    split.
    + destruct (Registry.error_message Number_toString err)
        as [message|e]; [|reflexivity].
      cbn [snd].
      change (Gateway.OnInvoke frame (trim cm)
                (Gateway.invoke_params JSON_parse frame) :: ?l)
        with ([Gateway.OnInvoke frame (trim cm)
                 (Gateway.invoke_params JSON_parse frame)] ++ l).
      rewrite GatewayFacts.invocations_app.
      rewrite (proj2 (proj2 (proj2 (GatewayFacts.send_result_frames
                                      randomUUID JSON_stringify _ _)))).
      reflexivity.
    + intros message Hm. subst message_of. rewrite Hm. cbn [snd].
      destruct (GatewayFacts.send_result_frames
                  randomUUID JSON_stringify
                  (internal_error frame message) c) as [_ [H1 [H2 _]]].
      split; [exact H1 | exact H2].
  - intros c frame awaited Hconv.
    destruct (GatewayFacts.step_settled
                randomUUID JSON_parse JSON_stringify Number_toString
                opts_token onInvoke_throws frame awaited c)
      as [[p [Hs [H1 H2]]]|[v [e [Ha [Hv _]]]]].
    + exists p. fold step in Hs. rewrite Hs.
      destruct (GatewayFacts.send_result_frames
                  randomUUID JSON_stringify p c) as [_ [H3 [H4 H5]]].
      repeat split; assumption.
    + destruct (Hconv v Ha) as [message Hm]. congruence.
  - intros p c. subst goes_out.
    unfold GatewayTerms.goes_out, Gateway.serialize,
      GatewayTerms.result_frame.
    cbn [Gateway.frame_params Gateway.frame_id Gateway.frame_method].
    rewrite andb_true_iff, GatewayFacts.is_OPEN_true.
    split; intros [H1 H2]; (split; [exact H1|]).
    + destruct (JSON_stringify _) as [text|]; [eauto | discriminate].
    + destruct H2 as [text ->]. reflexivity.
  - intros c frame err message Hm. subst step. cbn [Gateway.step].
    change (Registry.error_message Number_toString err)
      with (Gateway.error_message Number_toString err) in Hm.
    rewrite (GatewayFacts.handleInvoke_resume_throw
               randomUUID JSON_stringify Number_toString
               frame err message c Hm).
    reflexivity.
  - intros c frame result [->| ->]; reflexivity.
  - reflexivity.
  - intros getCategory describeIntent handlers now_start now_finish
           meanwhile store command params H.
    destruct (handlers !! command) as [handler|] eqn:Hh.
    + destruct (H handler eq_refl) as [[text Hd] Hv].
      rewrite (RegistryFacts.dispatch_known
                 getCategory describeIntent Number_toString handlers
                 now_start now_finish meanwhile store command params
                 handler text Hh Hd).
      destruct (handler params) as [payload|[message|v]];
        cbn [Registry.error_message]; eauto.
      destruct (Hv v eq_refl) as [message ->]. eauto.
    + rewrite RegistryFacts.dispatch_unknown by exact Hh. cbn [fst]. eauto.
Qed.

Lemma invocation_result_once_witness :
  Gateway.invocations
    (snd (Example.step Example.connecting
                       (Gateway.WsMessage 0 (lit "invoke"))))
  = [(Example.frame, lit "vscode.git.status", VObj [])]
  /\ Example.step Example.connecting (Gateway.WsMessage 0 (lit "invoke"))
     = (Example.connecting,
        [Gateway.OnInvoke Example.frame (lit "vscode.git.status") (VObj [])]).
Proof.
  destruct (invocation_result_once
              Example.randomUUID Example.JSON_parse Example.JSON_stringify
              Example.Number_toString Example.opts_token
              Example.onInvoke_throws)
    as [Harrival _].
  destruct (Harrival
              Example.connecting 0 (lit "invoke")
              [(lit "type", VStr (lit "event"));
               (lit "event", VStr (lit "node.invoke.request"));
               (lit "payload",
                VObj [(lit "id", VStr (lit "inv-1"));
                      (lit "nodeId", VStr (lit "node-1"));
                      (lit "command", VStr (lit "vscode.git.status"));
                      (lit "paramsJSON", VStr (lit "{}"))])]
              [(lit "id", VStr (lit "inv-1"));
               (lit "nodeId", VStr (lit "node-1"));
               (lit "command", VStr (lit "vscode.git.status"));
               (lit "paramsJSON", VStr (lit "{}"))]
              (lit "inv-1") (lit "node-1") (lit "vscode.git.status"))
    as [frame [_ [_ [_ _]]]];
    try reflexivity; try (vm_compute; discriminate);
    try (vm_compute; exact I).
  vm_compute. split; reflexivity.
Defined.

(** C2: a frame of the event [node.invoke.request] whose id, node or
    command is missing, is not a string, or is blank is dropped: the
    client is left as it was, no handler is called and no frame is
    sent. *)
Theorem malformed_invocation_dropped
        (randomUUID : nat -> jsstring)
        (JSON_parse : jsstring -> completion Thrown jsval)
        (JSON_stringify : jsval -> completion jsstring (option jsstring))
        (Number_toString : Z -> jsstring)
        (opts_token : option jsstring)
        (onInvoke_throws : jsstring -> jsval -> option Thrown)
        (c : Gateway.Client) (socket : nat) (raw : jsstring)
        (fields : list (jsstring * jsval)) :
  let step := Gateway.step randomUUID JSON_parse JSON_stringify
                           Number_toString opts_token onInvoke_throws in
  JSON_parse raw = Normal (VObj fields) ->
  lookup_field fields (lit "event") = VStr (lit "node.invoke.request") ->
  GatewayTerms.malformed (lookup_field fields (lit "payload")) ->
  step c (Gateway.WsMessage socket raw) = (c, [])
  /\ Gateway.invocations (snd (step c (Gateway.WsMessage socket raw))) = []
  /\ Gateway.invoke_results (snd (step c (Gateway.WsMessage socket raw))) = []
  /\ Gateway.sent_frames (snd (step c (Gateway.WsMessage socket raw))) = [].
Proof.
  intros step Hp He Hm.
  assert (H : step c (Gateway.WsMessage socket raw) = (c, [])).
  { subst step. rewrite GatewayFacts.step_message.
    rewrite (GatewayFacts.handleMessage_invoke _ _ _ _ _ _ raw fields c Hp He).
    rewrite (GatewayFacts.coerce_malformed JSON_stringify _ Hm).
    reflexivity. }
  rewrite H. repeat split.
Qed.

Lemma malformed_invocation_dropped_witness :
  Example.step Example.connecting (Gateway.WsMessage 0 (lit "invoke-blank"))
  = (Example.connecting, []).
Proof.
  refine (proj1 (malformed_invocation_dropped
                   Example.randomUUID Example.JSON_parse
                   Example.JSON_stringify Example.Number_toString
                   Example.opts_token Example.onInvoke_throws
                   Example.connecting 0 (lit "invoke-blank")
                   [(lit "type", VStr (lit "event"));
                    (lit "event", VStr (lit "node.invoke.request"));
                    (lit "payload",
                     VObj [(lit "id", VStr (lit "  "));
                           (lit "nodeId", VStr (lit "node-1"));
                           (lit "command", VStr (lit "vscode.git.status"));
                           (lit "paramsJSON", VStr (lit "{}"))])]
                   _ _ _)).
  - reflexivity.
  - reflexivity.
  - left. vm_compute. reflexivity.
Defined.


(** C4, as stated, fails.  In the first run the socket of the attempt
    opens and closes before the timer fires: the timer, which the
    close does not clear, finds no socket and nothing is sent.  In the
    second run the client is stopped and started again before the
    close of its first socket arrives: that close forgets the second
    socket and schedules a reconnection, which creates a third; the
    second socket then opens and stays open, the timer fires, and
    [request] finds the third socket still connecting: no handshake
    is sent, and the third socket is closed with the code 1008. *)
Lemma handshake_not_sent :
  let closes_first :=
    [Gateway.Start; Gateway.WsOpen 0; Gateway.WsCloseEvent 0 1006;
     Gateway.ConnectTimerFired] in
  let restarted :=
    [Gateway.Start; Gateway.Stop; Gateway.Start;
     Gateway.WsCloseEvent 0 1005; Gateway.ReconnectTimerFired;
     Gateway.WsOpen 1; Gateway.ConnectTimerFired] in
  Gateway.handshakes (snd (Example.run Gateway.init closes_first)) = []
  /\ Gateway.handshakes (snd (Example.run Gateway.init restarted)) = []
  /\ Gateway.sockets (fst (Example.run Gateway.init restarted))
     = [Gateway.CLOSED; Gateway.OPEN; Gateway.CLOSING]
  /\ Gateway.ws (fst (Example.run Gateway.init restarted)) = Some 2
  /\ last (snd (Example.run Gateway.init restarted))
     = Some (Gateway.WsClose 2 (Some 1008%Z)).
Proof. vm_compute. repeat split; reflexivity. Qed.

(** C4 (amended): between two openings of a socket the client sends at
    most one handshake, whatever happens in between.  In an attempt
    that starts with no pending request, whose socket is connecting,
    is the one that the client holds, opens, and stays held and open,
    the first trigger, which is the timer or a challenge with a nonce,
    sends the handshake, with that nonce and the signature version
    that goes with it, and no later trigger sends another: exactly one
    handshake is sent.  A client is in such a state after [start] and
    after every close followed by the reconnection timer. *)
Theorem handshake_sent_once
        (randomUUID : nat -> jsstring)
        (JSON_parse : jsstring -> completion Thrown jsval)
        (JSON_stringify : jsval -> completion jsstring (option jsstring))
        (Number_toString : Z -> jsstring)
        (opts_token : option jsstring)
        (onInvoke_throws : jsstring -> jsval -> option Thrown) :
  let run := Gateway.run randomUUID JSON_parse JSON_stringify
                         Number_toString opts_token onInvoke_throws in
  let trigger := GatewayTerms.trigger JSON_parse in
  (forall c socket events,
      forallb (fun e => negb (GatewayTerms.is_open e)) events = true ->
      length (Gateway.handshakes
                (snd (run c (Gateway.WsOpen socket :: events))))
      <= 1)
  /\ (forall c socket pre e post nonce,
         Gateway.ws c = Some socket ->
         Gateway.readyState c = Some Gateway.CONNECTING ->
         Gateway.pending c = ∅ ->
         forallb GatewayTerms.in_attempt (pre ++ e :: post) = true ->
         forallb (fun e' => match trigger e' with
                            | None => true
                            | Some _ => false
                            end) pre = true ->
         trigger e = Some nonce ->
         exists id,
           Gateway.handshakes
             (snd (run c (Gateway.WsOpen socket :: pre ++ e :: post)))
           = [{| Gateway.frame_id := id;
                 Gateway.frame_method := lit "connect";
                 Gateway.frame_params :=
                   Gateway.ConnectParams
                     (match nonce with
                      | Some _ => Gateway.v2
                      | None => Gateway.v1
                      end)
                     nonce (Gateway.token opts_token) |}])
  /\ (Gateway.ws (fst (run Gateway.init [Gateway.Start])) = Some 0
      /\ Gateway.readyState (fst (run Gateway.init [Gateway.Start]))
         = Some Gateway.CONNECTING
      /\ Gateway.pending (fst (run Gateway.init [Gateway.Start])) = ∅)
  /\ (forall c socket code,
         Gateway.closed c = false ->
         let c' := fst (run c [Gateway.WsCloseEvent socket code;
                               Gateway.ReconnectTimerFired]) in
         Gateway.ws c' = Some (length (Gateway.sockets c))
         /\ Gateway.readyState c' = Some Gateway.CONNECTING
         /\ Gateway.pending c' = ∅)
  /\ (forall c,
         let c' := fst (run c [Gateway.Stop; Gateway.Start]) in
         Gateway.ws c' = Some (length (Gateway.sockets c))
         /\ Gateway.readyState c' = Some Gateway.CONNECTING
         /\ Gateway.pending c' = ∅).
Proof.
  intros run trigger. repeat apply conj.
  - intros c socket events H. subst run.
    rewrite GatewayFacts.run_cons. cbn [snd].
    rewrite GatewayFacts.handshakes_app, length_app.
    pose proof (GatewayFacts.run_at_most_once
                  randomUUID JSON_parse JSON_stringify Number_toString
                  opts_token onInvoke_throws events
                  (fst (Gateway.step randomUUID JSON_parse JSON_stringify
                                     Number_toString opts_token
                                     onInvoke_throws
                                     c (Gateway.WsOpen socket))) H) as Hrest.
    assert (Hopen : Gateway.handshakes
                      (snd (Gateway.step randomUUID JSON_parse JSON_stringify
                                         Number_toString opts_token
                                         onInvoke_throws
                                         c (Gateway.WsOpen socket))) = []
                    /\ Gateway.connectSent
                         (fst (Gateway.step randomUUID JSON_parse
                                            JSON_stringify Number_toString
                                            opts_token onInvoke_throws
                                            c (Gateway.WsOpen socket)))
                       = false).
    { cbn [Gateway.step]. unfold Gateway.queueConnect.
      cbn; destruct (Gateway.connectTimer c); split; reflexivity. }
    destruct Hopen as [H1 H2]. rewrite H1, H2 in *. cbn [length]. lia.
  - intros c socket pre e post nonce Hws Hrs Hp Hin Hpre He. subst run.
    rewrite GatewayFacts.run_cons. cbn [snd].
    assert (Hs : Gateway.sockets c !! socket = Some Gateway.CONNECTING)
      by (unfold Gateway.readyState in Hrs; rewrite Hws in Hrs; exact Hrs).
    destruct (GatewayFacts.open_waiting
                randomUUID JSON_parse JSON_stringify Number_toString
                opts_token onInvoke_throws c socket Hws Hs Hp) as [Hw Hh].
    rewrite GatewayFacts.handshakes_app, Hh. cbn [app].
    destruct (GatewayFacts.run_exactly_once
                randomUUID JSON_parse JSON_stringify Number_toString
                opts_token onInvoke_throws pre _ e post nonce Hw Hin Hpre He)
      as [id Hid].
    exists id. rewrite Hid. unfold GatewayTerms.connect_frame.
    destruct nonce as [s|]; [|reflexivity].
    assert (Hs' : eqb s [] = false).
    { subst trigger. unfold GatewayTerms.trigger in He.
      destruct e; try discriminate.
      destruct (GatewayTerms.challenge_nonce (JSON_parse raw)) as [s'|] eqn:E;
        [|discriminate].
      injection He as <-.
      exact (GatewayFacts.challenge_nonce_not_empty _ _ E). }
    rewrite Hs'. reflexivity.
  - reflexivity.
  - reflexivity.
  - reflexivity.
  - intros c socket code Hc c'. subst c' run. cbn.
    unfold Gateway.scheduleReconnect, Gateway.connect. cbn. rewrite Hc. cbn.
    unfold Gateway.readyState. cbn. rewrite length_insert.
    split; [reflexivity|]. split; [|reflexivity].
    apply list_lookup_middle. rewrite length_insert. reflexivity.
  - intros c c'. subst c' run. cbn.
    unfold Gateway.stop, Gateway.clearConnectTimer, Gateway.close_ws. cbn.
    destruct (Gateway.connectTimer c); cbn; destruct (Gateway.ws c); cbn;
      unfold Gateway.readyState; cbn; rewrite ?length_alter;
      (split; [reflexivity|]); (split; [|reflexivity]);
      apply list_lookup_middle; rewrite ?length_alter; reflexivity.
Qed.

Lemma handshake_sent_once_witness :
  exists id,
    Gateway.handshakes
      (snd (Example.run Example.connecting
                        (Gateway.WsOpen 0
                           :: [Gateway.WsMessage 0 (lit "{}")]
                           ++ Gateway.WsMessage 0 (lit "challenge")
                           :: [Gateway.ConnectTimerFired;
                               Gateway.WsMessage 0 (lit "challenge")])))
    = [{| Gateway.frame_id := id;
          Gateway.frame_method := lit "connect";
          Gateway.frame_params :=
            Gateway.ConnectParams Gateway.v2 (Some (lit "abc"))
                                  (Gateway.token Example.opts_token) |}].
Proof.
  destruct (handshake_sent_once
              Example.randomUUID Example.JSON_parse Example.JSON_stringify
              Example.Number_toString Example.opts_token
              Example.onInvoke_throws)
    as [_ [Hexact _]].
  apply (Hexact Example.connecting 0
                [Gateway.WsMessage 0 (lit "{}")]
                (Gateway.WsMessage 0 (lit "challenge"))
                [Gateway.ConnectTimerFired;
                 Gateway.WsMessage 0 (lit "challenge")]
                (Some (lit "abc"))).
  - reflexivity.
  - reflexivity.
  - reflexivity.
  - vm_compute. reflexivity.
  - vm_compute. reflexivity.
  - vm_compute. reflexivity.
Defined.

(** ** The terminal *)

Module TerminalFacts.

Import Terminal.

Lemma run_app r a b : run (run r a) b = run r (a ++ b).
Proof. unfold run. symmetry. apply fold_left_app. Qed.

(** Data events only add to the captured output. *)
Lemma run_data events : forall r,
  forallb is_data events = true ->
  run r events
  = {| run_stdout := captured_stdout (run_stdout r) events;
       run_stderr := captured_stderr (run_stderr r) events;
       run_timedOut := run_timedOut r;
       settled := settled r;
       timer := timer r;
       resolved := resolved r |}.
Proof.
  induction events as [|e events IH]; intros r H.
  - destruct r; reflexivity.
  - cbn [forallb] in H. apply andb_true_iff in H as [He H].
    unfold run in *. cbn [fold_left]. rewrite (IH _ H).
    destruct e; try discriminate; reflexivity.
Qed.

Lemma captured_stdout_app out a b :
  captured_stdout out (a ++ b) = captured_stdout (captured_stdout out a) b.
Proof. unfold captured_stdout. apply fold_left_app. Qed.

Lemma captured_stderr_app out a b :
  captured_stderr out (a ++ b) = captured_stderr (captured_stderr out a) b.
Proof. unfold captured_stderr. apply fold_left_app. Qed.

(** Once settled, the promise keeps its value. *)
Lemma run_settled events : forall r,
  settled r = true -> resolved (run r events) = resolved r
                      /\ settled (run r events) = true.
Proof.
  induction events as [|e events IH]; intros r H; [auto|].
  unfold run in *. cbn [fold_left].
  assert (Hs : settled (fst (step r e)) = true
               /\ resolved (fst (step r e)) = resolved r).
  { destruct e; cbn [step fst]; unfold finalize; rewrite ?H; auto.
    destruct (timer r); auto. }
  destruct Hs as [Hs Hr]. destruct (IH _ Hs) as [H1 H2].
  rewrite H1, Hr. auto.
Qed.

Lemma capture_bound out chunk :
  length out <= MAX_OUTPUT -> length (capture out chunk) <= MAX_OUTPUT.
Proof.
  intros H. unfold capture.
  destruct (Nat.ltb_spec (length out) MAX_OUTPUT) as [Hlt|Hge]; [|exact H].
  rewrite length_app, length_take. lia.
Qed.

End TerminalFacts.

(** *** The result for every sequence of events *)

Module TerminalResultFacts.

Import Terminal TerminalTerms.

Lemma capture_take out chunk :
  length out <= MAX_OUTPUT -> capture out chunk = take MAX_OUTPUT (out ++ chunk).
Proof.
  intros H. unfold capture.
  destruct (Nat.ltb_spec (length out) MAX_OUTPUT) as [Hlt|Hge].
  - rewrite take_app, (take_ge out) by lia. reflexivity.
  - assert (Hl : length out = MAX_OUTPUT) by lia.
    rewrite <- Hl at 1. rewrite take_app_length. reflexivity.
Qed.

Lemma take_take_app {A} (n : nat) (a b : list A) :
  take n (take n a ++ b) = take n (a ++ b).
Proof.
  destruct (Nat.le_gt_cases (length a) n) as [H|H].
  - rewrite (take_ge a) by lia. reflexivity.
  - rewrite !take_app. rewrite take_take, Nat.min_id.
    rewrite length_take.
    replace (n - Nat.min n (length a)) with 0 by lia.
    replace (n - length a) with 0 by lia. reflexivity.
Qed.

Lemma spawned_unsettled : unsettled spawned.
Proof. constructor; cbn; try reflexivity; lia. Qed.

(** The promise of an unsettled run is resolved by the first exit
    event, with what has been captured until then. *)
Lemma run_result events : forall r,
  unsettled r ->
  resolved (run r events)
  = match first_exit events with
    | None => None
    | Some e =>
        Some {| exitCode := exit_code e;
                stdout := take MAX_OUTPUT
                               (run_stdout r
                                ++ stdout_text (before_exit events));
                stderr := take MAX_OUTPUT
                               (run_stderr r
                                ++ stderr_text (before_exit events));
                timedOut := run_timedOut r
                            || existsb is_timeout (before_exit events) |}
    end.
Proof.
  induction events as [|e events IH]; intros r [Hs Hr Ht Ho He].
  - exact Hr.
  - unfold run. cbn [fold_left]. fold (run (fst (step r e)) events).
    unfold first_exit, before_exit. cbn [List.find takeWhile].
    destruct e as [chunk|chunk| |code|msg]; cbn [is_exit negb].
    + rewrite IH.
      * cbn [step fst run_stdout run_stderr run_timedOut].
        fold (first_exit events). fold (before_exit events).
        destruct (first_exit events); [|reflexivity].
        cbn [stdout_text stderr_text flat_map existsb is_timeout orb app].
        fold (stdout_text (before_exit events)).
        fold (stderr_text (before_exit events)).
        rewrite (capture_take _ _ Ho), take_take_app, <- app_assoc.
        reflexivity.
      * constructor; cbn; try assumption.
        apply TerminalFacts.capture_bound, Ho.
    + rewrite IH.
      * cbn [step fst run_stdout run_stderr run_timedOut].
        fold (first_exit events). fold (before_exit events).
        destruct (first_exit events); [|reflexivity].
        cbn [stdout_text stderr_text flat_map existsb is_timeout orb app].
        fold (stdout_text (before_exit events)).
        fold (stderr_text (before_exit events)).
        rewrite (capture_take _ _ He), take_take_app, <- app_assoc.
        reflexivity.
      * constructor; cbn; try assumption.
        apply TerminalFacts.capture_bound, He.
    + rewrite IH.
      * fold (first_exit events). fold (before_exit events).
        destruct (first_exit events); [|reflexivity].
        cbn [stdout_text stderr_text flat_map existsb is_timeout orb app].
        fold (stdout_text (before_exit events)).
        fold (stderr_text (before_exit events)).
        cbn [step]. rewrite Ht.
        destruct (run_timedOut r) eqn:E; cbn [negb fst run_stdout run_stderr
          run_timedOut orb]; rewrite ?E; reflexivity.
      * cbn [step]. rewrite Ht.
        destruct (run_timedOut r) eqn:E; cbn [negb fst];
          constructor; cbn; try assumption; try reflexivity.
        rewrite Ht, E. reflexivity.
    + cbn [step fst]. unfold finalize. rewrite Hs.
      match goal with
      | |- context [run ?x events] =>
          rewrite (proj1 (TerminalFacts.run_settled events x eq_refl))
      end.
      cbn [resolved exit_code stdout_text stderr_text flat_map existsb].
      rewrite !app_nil_r, orb_false_r, !take_ge by assumption.
      reflexivity.
    + cbn [step fst]. unfold finalize. rewrite Hs.
      match goal with
      | |- context [run ?x events] =>
          rewrite (proj1 (TerminalFacts.run_settled events x eq_refl))
      end.
      cbn [resolved exit_code stdout_text stderr_text flat_map existsb].
      rewrite !app_nil_r, orb_false_r, !take_ge by assumption.
      reflexivity.
Qed.

Lemma settled_effects events : forall r,
  timer r = false -> effects r events = [].
Proof.
  induction events as [|e events IH]; intros r H; [reflexivity|].
  cbn [effects].
  assert (Hs : snd (step r e) = [] /\ timer (fst (step r e)) = false).
  { destruct e; cbn [step fst snd]; unfold finalize; rewrite ?H; auto;
      destruct (settled r); auto. }
  destruct Hs as [H1 H2]. rewrite H1, (IH _ H2). reflexivity.
Qed.

(** The child is killed when the timer fires for the first time
    before the exit, and at no other moment. *)
Lemma run_effects events : forall r,
  unsettled r ->
  effects r events
  = if timer r && existsb is_timeout (before_exit events)
    then [Kill] else [].
Proof.
  induction events as [|e events IH]; intros r [Hs Hr Ht Ho He].
  - cbn. rewrite andb_false_r. reflexivity.
  - cbn [effects]. unfold before_exit. cbn [takeWhile].
    destruct e as [chunk|chunk| |code|msg]; cbn [is_exit negb].
    + rewrite IH.
      * reflexivity.
      * constructor; cbn; try assumption.
        apply TerminalFacts.capture_bound, Ho.
    + rewrite IH.
      * reflexivity.
      * constructor; cbn; try assumption.
        apply TerminalFacts.capture_bound, He.
    + cbn [existsb is_timeout orb]. rewrite andb_true_r.
      cbn [step]. destruct (timer r) eqn:E; cbn [fst snd].
      * rewrite settled_effects by reflexivity. reflexivity.
      * rewrite settled_effects by exact E. reflexivity.
    + cbn [existsb]. rewrite andb_false_r.
      cbn [step fst snd]. unfold finalize. rewrite Hs.
      rewrite settled_effects by reflexivity. reflexivity.
    + cbn [existsb]. rewrite andb_false_r.
      cbn [step fst snd]. unfold finalize. rewrite Hs.
      rewrite settled_effects by reflexivity. reflexivity.
Qed.

End TerminalResultFacts.

(** C8, as stated, fails: the checks pass and the child is spawned;
    it writes to its output; the timer fires and the child is killed;
    as long as neither [close] nor [error] arrives, which is so while
    a process that the shell started holds the pipes, the promise is
    pending, whatever else is written. *)
Lemma terminalRun_timeout_pending :
  let cfg := {| Terminal.terminalEnabled := true;
                Terminal.readOnly := false;
                Terminal.terminalAllowlist := [lit "npm"];
                Terminal.confirmWrites := false |} in
  let params := {| Terminal.command := lit "npm test";
                   Terminal.cwd := None;
                   Terminal.timeoutMs := Some 1000%Z |} in
  let events := [Terminal.StdoutData (lit "run"); Terminal.TimeoutFired;
                 Terminal.StdoutData (lit "more");
                 Terminal.StderrData (lit "still running")] in
  Terminal.spawnArgs (lit "/") (Some [lit "/w"]) cfg Terminal.Dismissed params
  = Normal {| Terminal.spawn_command := lit "npm test";
              Terminal.spawn_cwd := Some (lit "/w");
              Terminal.spawn_timeout := 1000 |}
  /\ TerminalTerms.effects Terminal.spawned events = [Terminal.Kill]
  /\ Terminal.terminalRun (lit "/") (Some [lit "/w"]) cfg Terminal.Dismissed
                          params events
     = Normal None.
Proof. vm_compute. repeat split; reflexivity. Qed.

(** C8 (amended): when the checks before the spawn pass and the
    working directory is determined, the timer is armed with
    [params.timeoutMs], or with 60000 ms when that is absent.  If the
    timer fires before the child has closed, the child is killed; the
    promise stays pending until the child closes or reports an error,
    and is then resolved, not rejected, with [timedOut] true, the exit
    code of the close event and, of each stream, the first
    [MAX_OUTPUT] code units of what it delivered before that event;
    no later event changes that value. *)
Theorem terminalRun_timeout
        (processCwd : jsstring) (workspaceFolders : option (list jsstring))
        (cfg : Terminal.Config) (choice : Terminal.Choice)
        (params : Terminal.TerminalRunParams) (args : Terminal.SpawnArgs)
        (before after later : list Terminal.ChildEvent)
        (exit : Terminal.ChildEvent) :
  Terminal.spawnArgs processCwd workspaceFolders cfg choice params
  = Normal args ->
  forallb Terminal.is_data before = true ->
  forallb Terminal.is_data after = true ->
  Terminal.is_exit exit = true ->
  let terminalRun :=
    Terminal.terminalRun processCwd workspaceFolders cfg choice params in
  Terminal.spawn_timeout args = match Terminal.timeoutMs params with
                                | Some t => t
                                | None => 60000%Z
                                end
  /\ snd (Terminal.step (Terminal.run Terminal.spawned before)
                        Terminal.TimeoutFired) = [Terminal.Kill]
  /\ terminalRun (before ++ Terminal.TimeoutFired :: after) = Normal None
  /\ terminalRun (before ++ Terminal.TimeoutFired :: after ++ exit :: later)
     = Normal
         (Some {| Terminal.exitCode := Terminal.exit_code exit;
                  Terminal.stdout :=
                    take Terminal.MAX_OUTPUT
                         (TerminalTerms.stdout_text (before ++ after));
                  Terminal.stderr :=
                    take Terminal.MAX_OUTPUT
                         (TerminalTerms.stderr_text (before ++ after));
                  Terminal.timedOut := true |}).
Proof.
  intros Hargs Hb Ha He terminalRun.
  assert (Hdata : forall l, forallb Terminal.is_data l = true ->
            TerminalTerms.first_exit l = None
            /\ TerminalTerms.before_exit l = l).
  { induction l as [|x l IH]; intros H; [split; reflexivity|].
    cbn [forallb] in H. apply andb_true_iff in H as [Hx H].
    destruct (IH H) as [H1 H2].
    unfold TerminalTerms.first_exit, TerminalTerms.before_exit in *.
    destruct x; try discriminate; cbn; rewrite ?H1, ?H2; split; reflexivity. }
  assert (Hsplit : forall l1 l2,
            forallb Terminal.is_data l1 = true ->
            TerminalTerms.first_exit (l1 ++ l2)
            = TerminalTerms.first_exit l2
            /\ TerminalTerms.before_exit (l1 ++ l2)
               = l1 ++ TerminalTerms.before_exit l2).
  { induction l1 as [|x l1 IH]; intros l2 H; [split; reflexivity|].
    cbn [forallb] in H. apply andb_true_iff in H as [Hx H].
    destruct (IH l2 H) as [H1 H2].
    unfold TerminalTerms.first_exit, TerminalTerms.before_exit in *.
    destruct x; try discriminate; cbn; rewrite ?H1, ?H2; split; reflexivity. }
  assert (Htext : forall l1 l2,
            TerminalTerms.stdout_text (l1 ++ Terminal.TimeoutFired :: l2)
            = TerminalTerms.stdout_text (l1 ++ l2)
            /\ TerminalTerms.stderr_text (l1 ++ Terminal.TimeoutFired :: l2)
               = TerminalTerms.stderr_text (l1 ++ l2)).
  { intros l1 l2. unfold TerminalTerms.stdout_text, TerminalTerms.stderr_text.
    rewrite !flat_map_app. split; reflexivity. }
  repeat apply conj.
  - revert Hargs. unfold Terminal.spawnArgs, Terminal.precheck.
    repeat match goal with
           | |- context [if ?b then _ else _] => destruct b
           end; try discriminate;
      destruct (TerminalCwd.spawnCwd _ _ _); try discriminate;
      intros H; injection H as <-; reflexivity.
  - rewrite (TerminalFacts.run_data before _ Hb). reflexivity.
  - subst terminalRun. unfold Terminal.terminalRun. rewrite Hargs.
    rewrite (TerminalResultFacts.run_result
               _ _ TerminalResultFacts.spawned_unsettled).
    destruct (Hsplit before (Terminal.TimeoutFired :: after) Hb) as [H1 _].
    rewrite H1. unfold TerminalTerms.first_exit. cbn [List.find Terminal.is_exit].
    fold (TerminalTerms.first_exit after).
    rewrite (proj1 (Hdata after Ha)). reflexivity.
  - subst terminalRun. unfold Terminal.terminalRun. rewrite Hargs.
    rewrite (TerminalResultFacts.run_result
               _ _ TerminalResultFacts.spawned_unsettled).
    destruct (Hsplit before (Terminal.TimeoutFired :: after ++ exit :: later)
                     Hb) as [H1 H2].
    rewrite H1, H2.
    unfold TerminalTerms.first_exit, TerminalTerms.before_exit.
    cbn [List.find takeWhile Terminal.is_exit negb].
    fold (TerminalTerms.first_exit (after ++ exit :: later)).
    fold (TerminalTerms.before_exit (after ++ exit :: later)).
    destruct (Hsplit after (exit :: later) Ha) as [H3 H4].
    rewrite H3, H4.
    unfold TerminalTerms.first_exit, TerminalTerms.before_exit.
    cbn [List.find takeWhile]. rewrite He. cbn [negb].
    rewrite app_nil_r.
    destruct (Htext before after) as [H5 H6]. rewrite H5, H6.
    cbn [Terminal.run_stdout Terminal.run_stderr Terminal.run_timedOut
         Terminal.spawned app orb].
    rewrite existsb_app. cbn [existsb TerminalTerms.is_timeout].
    rewrite orb_true_r. reflexivity.
Qed.

Lemma terminalRun_timeout_witness :
  let cfg := {| Terminal.terminalEnabled := true;
                Terminal.readOnly := false;
                Terminal.terminalAllowlist := [lit "npm"];
                Terminal.confirmWrites := false |} in
  let params := {| Terminal.command := lit "npm test";
                   Terminal.cwd := None;
                   Terminal.timeoutMs := None |} in
  Terminal.terminalRun
    (lit "/") (Some [lit "/w"]) cfg Terminal.Dismissed params
    ([Terminal.StdoutData (lit "run")]
       ++ Terminal.TimeoutFired
       :: [Terminal.StderrData (lit "killed")]
       ++ Terminal.ChildClose None :: [Terminal.TimeoutFired])
  = Normal (Some {| Terminal.exitCode := None;
                    Terminal.stdout := lit "run";
                    Terminal.stderr := lit "killed";
                    Terminal.timedOut := true |}).
Proof.
  intros cfg params.
  exact (proj2 (proj2 (proj2 (terminalRun_timeout
                         (lit "/") (Some [lit "/w"])
                         cfg Terminal.Dismissed params
                         {| Terminal.spawn_command := lit "npm test";
                            Terminal.spawn_cwd := Some (lit "/w");
                            Terminal.spawn_timeout := 60000 |}
                         [Terminal.StdoutData (lit "run")]
                         [Terminal.StderrData (lit "killed")]
                         [Terminal.TimeoutFired]
                         (Terminal.ChildClose None)
                         eq_refl eq_refl eq_refl eq_refl)))).
Defined.

(** ** Editing a file *)

Module FileEditFacts.

Import JStrFacts FileEdit FileEditTerms.

Lemma indexOf_at_empty s pos : indexOf_at s [] pos = Some pos.
Proof. destruct s; reflexivity. Qed.

(** The empty pattern is found wherever the search starts. *)
Lemma indexOf_empty s from :
  indexOf s [] from = Some (Nat.min from (length s)).
Proof. unfold indexOf. apply indexOf_at_empty. Qed.

(** With an empty [oldText] the loop finds a match at every iteration
    and does not move on: no amount of fuel lets it finish. *)
Lemma findRanges_empty fuel : forall fullText searchStart ranges,
  findRanges fuel fullText [] searchStart ranges = None.
Proof.
  induction fuel as [|fuel IH]; intros fullText searchStart ranges;
    [reflexivity|].
  cbn [findRanges]. rewrite indexOf_empty. apply IH.
Qed.

(** *** A non-empty [oldText] *)

Lemma startsWith_nil_l (pat : jsstring) :
  pat <> [] -> startsWith [] pat = false.
Proof. destruct pat; [congruence | reflexivity]. Qed.

Lemma occurs_at_bound text pat k :
  pat <> [] -> occurs_at text pat k -> k + length pat <= length text.
Proof.
  unfold occurs_at. intros Hp H. apply startsWith_length in H.
  rewrite length_drop in H.
  destruct pat; [congruence|]. cbn [length] in *. lia.
Qed.

Lemma indexOf_at_Some s pat : forall pos k,
  indexOf_at s pat pos = Some k ->
  pos <= k
  /\ startsWith (drop (k - pos) s) pat = true
  /\ forall j, pos <= j < k -> startsWith (drop (j - pos) s) pat = false.
Proof.
  induction s as [|c s IH]; intros pos k; cbn [indexOf_at].
  - destruct (startsWith [] pat) eqn:E; [|discriminate].
    intros H. injection H as <-. rewrite Nat.sub_diag.
    repeat split; [lia | exact E | intros j Hj; lia].
  - destruct (startsWith (c :: s) pat) eqn:E.
    + intros H. injection H as <-. rewrite Nat.sub_diag.
      repeat split; [lia | exact E | intros j Hj; lia].
    + intros H. apply IH in H as [H1 [H2 H3]].
      repeat split; [lia | |].
      * replace (k - pos) with (S (k - S pos)) by lia. exact H2.
      * intros j Hj. destruct (Nat.eq_dec j pos) as [->|Hne].
        -- rewrite Nat.sub_diag. exact E.
        -- replace (j - pos) with (S (j - S pos)) by lia.
           apply H3. lia.
Qed.

Lemma indexOf_at_None s pat : forall pos,
  indexOf_at s pat pos = None ->
  forall j, startsWith (drop j s) pat = false.
Proof.
  induction s as [|c s IH]; intros pos; cbn [indexOf_at].
  - destruct (startsWith [] pat) eqn:E; [discriminate|].
    intros _ j. rewrite drop_nil. exact E.
  - destruct (startsWith (c :: s) pat) eqn:E; [discriminate|].
    intros H [|j]; [exact E|]. exact (IH _ H j).
Qed.

Lemma indexOf_Some text pat from k :
  pat <> [] ->
  indexOf text pat from = Some k ->
  from <= k
  /\ occurs_at text pat k
  /\ forall j, from <= j < k -> ~ occurs_at text pat j.
Proof.
  unfold indexOf, occurs_at. intros Hp H.
  apply indexOf_at_Some in H as [H1 [H2 H3]].
  rewrite drop_drop in H2.
  replace (Nat.min from (length text) + (k - Nat.min from (length text)))
    with k in H2 by lia.
  assert (Hk : k + length pat <= length text)
    by (apply occurs_at_bound; assumption).
  assert (Hl : 0 < length pat) by (destruct pat; [congruence | cbn; lia]).
  repeat split; [lia | exact H2 |].
  intros j Hj Hocc. specialize (H3 j).
  rewrite drop_drop in H3.
  replace (Nat.min from (length text) + (j - Nat.min from (length text)))
    with j in H3 by lia.
  rewrite H3 in Hocc by lia. discriminate.
Qed.

Lemma indexOf_None text pat from :
  indexOf text pat from = None ->
  forall j, from <= j -> ~ occurs_at text pat j.
Proof.
  unfold indexOf, occurs_at. intros H j Hj Hocc.
  pose proof (indexOf_at_None _ _ _ H) as Hn.
  destruct (Nat.le_gt_cases (length text) j) as [Hge|Hlt].
  - specialize (Hn (length text - Nat.min from (length text))).
    rewrite drop_drop in Hn.
    replace (Nat.min from (length text)
             + (length text - Nat.min from (length text)))
      with (length text) in Hn by lia.
    rewrite drop_all in Hn. rewrite drop_ge in Hocc by exact Hge.
    congruence.
  - specialize (Hn (j - Nat.min from (length text))).
    rewrite drop_drop in Hn.
    replace (Nat.min from (length text) + (j - Nat.min from (length text)))
      with j in Hn by lia.
    congruence.
Qed.

(** What the loop returns is what it had, followed by the occurrences
    scanned from [searchStart]. *)
Lemma findRanges_scanned text pat :
  pat <> [] ->
  forall fuel searchStart ranges result,
    findRanges fuel text pat searchStart ranges = Some result ->
    exists found,
      result = ranges ++ found /\ scanned text pat searchStart found.
Proof.
  intros Hp. induction fuel as [|fuel IH]; intros start ranges result;
    [discriminate|].
  cbn [findRanges]. destruct (indexOf text pat start) as [k|] eqn:E.
  - intros H. apply IH in H as [found [-> Hs]].
    apply indexOf_Some in E as [H1 [H2 H3]]; [|exact Hp].
    exists ((k, k + length pat) :: found). split.
    + rewrite <- app_assoc. reflexivity.
    + constructor; assumption.
  - intros H. injection H as <-. exists []. split.
    + symmetry. apply app_nil_r.
    + constructor. exact (indexOf_None _ _ _ E).
Qed.

(** One iteration for each character of the text that is left, and one
    more, are enough. *)
Lemma findRanges_terminates text pat :
  pat <> [] ->
  forall fuel searchStart ranges,
    length text - searchStart < fuel ->
    exists result, findRanges fuel text pat searchStart ranges = Some result.
Proof.
  intros Hp. induction fuel as [|fuel IH]; intros start ranges Hf; [lia|].
  cbn [findRanges]. destruct (indexOf text pat start) as [k|] eqn:E;
    [|eauto].
  apply indexOf_Some in E as [H1 [H2 _]]; [|exact Hp].
  apply occurs_at_bound in H2; [|exact Hp].
  assert (Hl : 0 < length pat) by (destruct pat; [congruence | cbn; lia]).
  apply IH. lia.
Qed.

(** If nothing occurs, nothing is found, and conversely. *)
Lemma scanned_nil_iff text pat found :
  scanned text pat 0 found ->
  found = [] <-> forall j, ~ occurs_at text pat j.
Proof.
  intros H. split.
  - intros ->. inversion H as [? Hno|]; subst.
    intros j. apply Hno. lia.
  - intros Hno. inversion H as [|? k ? ? Hocc]; subst; [reflexivity|].
    exfalso. exact (Hno k Hocc).
Qed.

(** With a non-empty [oldText], on a document that can be opened,
    [fileEdit] returns within [length fullText + 1] iterations: it
    throws and leaves the files alone if [oldText] occurs nowhere, and
    otherwise replaces the scanned occurrences and reports their
    number. *)
Lemma fileEdit_nonempty cwd workspaceFolders cfg choice applies
      (files : Files) params uri fullText :
  oldText params <> [] ->
  readOnly cfg = false ->
  confirmWrites cfg = false ->
  Security.resolveWorkspacePath cwd workspaceFolders (path params)
  = Normal uri ->
  files !! uri = Some fullText ->
  exists found,
    scanned fullText (oldText params) 0 found
    /\ (found = [] <-> forall j, ~ occurs_at fullText (oldText params) j)
    /\ fileEdit (S (length fullText)) cwd workspaceFolders cfg choice
                applies files params
       = Some (match found with
               | [] =>
                   (Throw (lit "oldText not found in " ++ path params),
                    files)
               | _ =>
                   (Normal {| ok := applies;
                              replacements := length found |},
                    if applies
                    then <[uri := replaceRanges fullText 0 found
                                                (newText params)]> files
                    else files)
               end).
Proof.
  intros Hp Hro Hcw Huri Hfile.
  destruct (findRanges_terminates
              fullText (oldText params) Hp (S (length fullText)) 0 [])
    as [result Hr]; [lia|].
  destruct (findRanges_scanned fullText (oldText params) Hp _ _ _ _ Hr)
    as [found [-> Hs]].
  exists found. split; [exact Hs|].
  split; [exact (scanned_nil_iff _ _ _ Hs)|].
  unfold fileEdit. rewrite Hro, Hcw. cbn [andb].
  rewrite Huri, Hfile, Hr. cbn [app]. destruct found; reflexivity.
Qed.

End FileEditFacts.

(** C9, at the failing input: with an empty [oldText], on a document
    that can be opened and edited, [fileEdit] neither throws nor
    returns, however many iterations are allowed: its search loop does
    not terminate. *)
Theorem fileEdit_empty_oldText_diverges
        (fuel : nat) (cwd : jsstring) (workspaceFolders : list jsstring)
        (cfg : FileEdit.Config) (choice : FileEdit.Choice) (applies : bool)
        (files : FileEdit.Files) (path newText uri fullText : jsstring) :
  FileEdit.readOnly cfg = false ->
  FileEdit.confirmWrites cfg = false ->
  Security.resolveWorkspacePath cwd workspaceFolders path = Normal uri ->
  files !! uri = Some fullText ->
  FileEdit.fileEdit fuel cwd workspaceFolders cfg choice applies files
                    {| FileEdit.path := path;
                       FileEdit.oldText := [];
                       FileEdit.newText := newText |}
  = None.
Proof.
  intros Hro Hcw Huri Hfile. unfold FileEdit.fileEdit.
  rewrite Hro, Hcw. cbn [andb FileEdit.path FileEdit.oldText].
  rewrite Huri, Hfile, FileEditFacts.findRanges_empty. reflexivity.
Qed.

Lemma fileEdit_empty_oldText_diverges_witness :
  FileEdit.fileEdit 1000 (lit "/") [lit "/w"]
                    {| FileEdit.readOnly := false;
                       FileEdit.confirmWrites := false |}
                    FileEdit.Dismissed true
                    {[ lit "/w/a.txt" := lit "hello" ]}
                    {| FileEdit.path := lit "a.txt";
                       FileEdit.oldText := [];
                       FileEdit.newText := lit "x" |}
  = None.
Proof.
  apply (fileEdit_empty_oldText_diverges
           1000 (lit "/") [lit "/w"] _ _ true _ (lit "a.txt") (lit "x")
           (lit "/w/a.txt") (lit "hello")).
  - reflexivity.
  - reflexivity.
  - vm_compute. reflexivity.
  - apply lookup_singleton_eq.
Defined.

(* ===================================================================== *)
(** * Part III: further properties of the same code *)
(* ===================================================================== *)

(** ** The text helpers of the activity store *)

Module ActivityLabelsFacts.

Import JStrFacts PathFacts Path PathTerms ActivityLabels.

Lemma ellipsis_noslash : noslash ellipsis.
Proof. intros [H|[]]. discriminate. Qed.

Lemma drop_last_two {A} (l : list A) :
  2 < length l ->
  exists a b, drop (length l - 2) l = [a; b] /\ In a l /\ In b l.
Proof.
  intros H.
  assert (Hlen : length (drop (length l - 2) l) = 2)
    by (rewrite length_drop; lia).
  destruct (drop (length l - 2) l) as [|a [|b [|c r]]] eqn:E;
    try discriminate.
  exists a, b. split; [reflexivity|].
  assert (Hin : forall x, In x [a; b] -> In x l).
  { intros x Hx. rewrite <- E in Hx.
    rewrite <- (take_drop (length l - 2) l). apply in_or_app. right.
    exact Hx. }
  split; apply Hin; simpl; auto.
Qed.

(** The shortened form of a path of more than three parts has exactly
    three parts: the ellipsis and the last two parts of the path. *)
Lemma split_short (s : jsstring) :
  3 < length (split_on slash s) ->
  exists a b,
    drop (length (split_on slash s) - 2) (split_on slash s) = [a; b]
    /\ split_on slash (ellipsis ++ sep ++ join sep [a; b])
       = [ellipsis; a; b].
Proof.
  intros H.
  destruct (drop_last_two (split_on slash s)) as [a [b [E [Ha Hb]]]];
    [lia|].
  exists a, b. split; [exact E|].
  pose proof (split_on_pieces slash s) as Hp.
  rewrite List.Forall_forall in Hp.
  change (ellipsis ++ sep ++ join sep [a; b])
    with (join sep [ellipsis; a; b]).
  apply split_join; [discriminate|].
  repeat constructor; [exact ellipsis_noslash | apply Hp, Ha | apply Hp, Hb].
Qed.

End ActivityLabelsFacts.

(** X1: [truncStr(s, max)] never returns more than [max + 1] code
    units; it returns [s] itself when [s] has at most [max] code units,
    and in every case the first [max] code units of the result are
    those of [s]. *)
Theorem truncStr_bounded (s : jsstring) (max : nat) :
  length (ActivityLabels.truncStr s max) <= max + 1
  /\ take max (ActivityLabels.truncStr s max) = take max s
  /\ (length s <= max -> ActivityLabels.truncStr s max = s)
  /\ (max < length s ->
      length (ActivityLabels.truncStr s max) = max + 1
      /\ last (ActivityLabels.truncStr s max) = Some 8230%N).
Proof.
  unfold ActivityLabels.truncStr.
  destruct (Nat.ltb_spec max (length s)) as [Hlt|Hge].
  - assert (Hlen : length (take max s) = max)
      by (rewrite length_take; lia).
    split; [rewrite length_app, Hlen; simpl; lia|].
    split; [rewrite take_app_le by lia; rewrite take_take; f_equal; lia|].
    split; [intros H; lia|]. intros _.
    split; [rewrite length_app, Hlen; reflexivity | apply last_snoc].
  - split; [lia|]. split; [reflexivity|].
    split; [reflexivity | intros H; lia].
Qed.

(** X2: [shortPath] returns a text of at most three parts between
    slashes, and shortening a shortened path changes nothing; a value
    that is not a string gives the empty text. *)
Theorem shortPath_idempotent (p : jsval) :
  length (split_on Path.slash (ActivityLabels.shortPath p)) <= 3
  /\ ActivityLabels.shortPath (VStr (ActivityLabels.shortPath p))
     = ActivityLabels.shortPath p
  /\ (match p with VStr _ => True | _ => ActivityLabels.shortPath p = [] end).
Proof.
  destruct p as [| |b|n|s|items|fields];
    try (split; [simpl; lia | split; reflexivity]).
  destruct (eqb s []) eqn:Es.
  { apply JStrFacts.eqb_eq in Es. subst s.
    split; [simpl; lia | split; [reflexivity | exact I]]. }
  destruct (Nat.ltb_spec 3 (length (split_on Path.slash s))) as [Hlt|Hge].
  - destruct (ActivityLabelsFacts.split_short s Hlt) as [a [b [Hd Hsplit]]].
    assert (Hs : ActivityLabels.shortPath (VStr s)
                 = ActivityLabels.ellipsis ++ Path.sep
                   ++ join Path.sep [a; b]).
    { unfold ActivityLabels.shortPath. rewrite Es. cbv zeta.
      destruct (Nat.ltb_spec 3 (length (split_on Path.slash s)));
        [rewrite Hd; reflexivity | lia]. }
    rewrite Hs. split; [rewrite Hsplit; simpl; lia|]. split; [|exact I].
    unfold ActivityLabels.shortPath.
    replace (eqb (ActivityLabels.ellipsis ++ Path.sep
                  ++ join Path.sep [a; b]) [])
      with false by (symmetry; apply JStrFacts.eqb_neq; discriminate).
    cbv zeta. rewrite Hsplit. reflexivity.
  - assert (Hs : ActivityLabels.shortPath (VStr s) = s).
    { unfold ActivityLabels.shortPath. rewrite Es. cbv zeta.
      destruct (Nat.ltb_spec 3 (length (split_on Path.slash s)));
        [lia | reflexivity]. }
    rewrite Hs. split; [exact Hge|]. split; [exact Hs | exact I].
Qed.

(** ** The setup wizard: escaping and the allow-list field *)

Module SetupWizardFacts.

Import JStrFacts PathFacts SetupWizard SetupWizardTerms.

Lemma replaceAll_flat_map (c : N) (rep : jsstring) (f : N -> jsstring)
      (s : jsstring) :
  replaceAll c rep (flat_map f s)
  = flat_map (fun x => replaceAll c rep (f x)) s.
Proof.
  unfold replaceAll. induction s as [|x s IH]; simpl; [reflexivity|].
  rewrite flat_map_app, IH. reflexivity.
Qed.

Lemma replaceAll_single (c : N) (rep : jsstring) (x : N) :
  replaceAll c rep [x] = if (x =? c)%N then rep else [x].
Proof. unfold replaceAll. simpl. apply app_nil_r. Qed.

(** The four passes of [esc] amount to one pass that writes
    [esc_char] for each character: no entity contains a character that
    a later pass replaces. *)
Lemma esc_flat (s : jsstring) : esc s = flat_map esc_char s.
Proof.
  unfold esc. unfold replaceAll at 4.
  rewrite !replaceAll_flat_map. apply flat_map_ext. intros x.
  unfold esc_char.
  destruct (x =? amp)%N; [vm_compute; reflexivity|].
  rewrite replaceAll_single.
  destruct (x =? lt)%N; [vm_compute; reflexivity|].
  rewrite replaceAll_single.
  destruct (x =? gt)%N; [vm_compute; reflexivity|].
  apply replaceAll_single.
Qed.

Lemma esc_app (a b : jsstring) : esc (a ++ b) = esc a ++ esc b.
Proof. rewrite !esc_flat. apply flat_map_app. Qed.

Ltac esc_cases x :=
  unfold esc_char;
  let E1 := fresh "E" in let E2 := fresh "E" in
  let E3 := fresh "E" in let E4 := fresh "E" in
  destruct (x =? amp)%N eqn:E1;
  [|destruct (x =? lt)%N eqn:E2;
    [|destruct (x =? gt)%N eqn:E3;
      [|destruct (x =? quot)%N eqn:E4]]].

Lemma esc_char_safe (x c : N) :
  In c (esc_char x) -> c <> lt /\ c <> gt /\ c <> quot.
Proof.
  esc_cases x; intros H.
  1-4: vm_compute in H;
       repeat (destruct H as [H|H]; [subst c; repeat split; discriminate|]);
       contradiction.
  destruct H as [H|[]]. subst c.
  apply N.eqb_neq in E0, E1, E2. auto.
Qed.

(** The entities form a code without a proper prefix among them: the
    text written for one character never begins the text written for
    another. *)
Lemma esc_char_prefix_free (x y : N) (A B : jsstring) :
  esc_char x ++ A = esc_char y ++ B -> x = y /\ A = B.
Proof.
  esc_cases x; esc_cases y; intros H; vm_compute in H;
    repeat match goal with
           | E : (_ =? _)%N = true |- _ => apply N.eqb_eq in E
           | E : (_ =? _)%N = false |- _ => apply N.eqb_neq in E
           end;
    unfold amp, lt, gt, quot in *;
    try discriminate;
    try (injection H as -> ->; split; congruence);
    try (injection H; intros; subst; split; congruence).
Qed.

Lemma esc_char_not_nil (x : N) : esc_char x <> [].
Proof. esc_cases x; discriminate. Qed.

Lemma flat_esc_injective (a : jsstring) : forall b,
  flat_map esc_char a = flat_map esc_char b -> a = b.
Proof.
  induction a as [|x a IH]; intros [|y b] H; simpl in H.
  - reflexivity.
  - symmetry in H. apply app_eq_nil in H as [H _].
    exfalso. exact (esc_char_not_nil _ H).
  - apply app_eq_nil in H as [H _].
    exfalso. exact (esc_char_not_nil _ H).
  - apply esc_char_prefix_free in H as [-> H]. f_equal. apply IH, H.
Qed.

(** *** The allow-list field *)

Lemma join_cons_gen (sep p : jsstring) (ps : list jsstring) :
  ps <> [] -> join sep (p :: ps) = p ++ sep ++ join sep ps.
Proof. destruct ps; [congruence | reflexivity]. Qed.

(** The pieces between the commas of the text of a list of entries:
    the first entry, and the others behind one space. *)
Lemma split_allowlistText (e : jsstring) (l : list jsstring) :
  Forall entry (e :: l) ->
  split_on comma (allowlistText (e :: l))
  = e :: List.map (fun x => 32%N :: x) l.
Proof.
  revert e. induction l as [|e2 l IH]; intros e H.
  - inversion H as [|? ? [_ [_ Hc]] _]; subst.
    simpl. apply split_on_nosep. exact Hc.
  - inversion H as [|? ? [_ [_ Hc]] Hl]; subst.
    unfold allowlistText. rewrite join_cons_gen by discriminate.
    change (e ++ lit ", " ++ join (lit ", ") (e2 :: l))
      with (e ++ comma :: (32%N :: allowlistText (e2 :: l))).
    rewrite split_on_app, (split_on_nosep comma e) by exact Hc.
    cbn [app]. f_equal.
    change (split_on comma (32%N :: allowlistText (e2 :: l)))
      with (match split_on comma (allowlistText (e2 :: l)) with
            | t :: ts => (32%N :: t) :: ts
            | [] => [[32%N]]
            end).
    rewrite IH by exact Hl. reflexivity.
Qed.

Lemma trim_space (e : jsstring) : trim (32%N :: e) = trim e.
Proof. reflexivity. Qed.

(** *** What [trim] returns *)

Lemma trim_head (s : jsstring) (x : N) (t : jsstring) :
  trim s = x :: t -> is_ws x = false.
Proof.
  unfold trim, trimEnd, trimStart. intros H.
  pose proof (takeWhile_dropWhile is_ws (rev (dropWhile is_ws s))) as Hd.
  apply (f_equal (@rev N)) in Hd.
  rewrite rev_app_distr, rev_involutive, H in Hd.
  destruct (dropWhile is_ws s) as [|y u] eqn:E; [discriminate|].
  injection Hd as -> _. exact (dropWhile_head _ _ _ _ E).
Qed.

Lemma trim_last (s : jsstring) (x : N) (t : jsstring) :
  rev (trim s) = x :: t -> is_ws x = false.
Proof.
  unfold trim, trimEnd. rewrite rev_involutive.
  apply dropWhile_head.
Qed.

Lemma trim_idempotent (s : jsstring) : trim (trim s) = trim s.
Proof.
  rewrite <- (app_nil_r (trim s)) at 1.
  apply (trim_sandwich [] (trim s) []); try reflexivity.
  - apply trim_head.
  - apply trim_last.
Qed.

Lemma In_dropWhile {A} (p : A -> bool) (l : list A) (x : A) :
  In x (dropWhile p l) -> In x l.
Proof.
  induction l as [|y l IH]; simpl; [tauto|].
  destruct (p y); [intros H; right; exact (IH H) | tauto].
Qed.

Lemma In_trim (s : jsstring) (x : N) : In x (trim s) -> In x s.
Proof.
  unfold trim, trimEnd, trimStart. intros H.
  apply in_rev, In_dropWhile in H. apply in_rev in H.
  apply In_dropWhile in H. exact H.
Qed.

(** The entries behind their spaces are found again. *)
Lemma filter_spaced (l : list jsstring) :
  Forall entry l ->
  List.filter (fun s => negb (eqb s []))
              (List.map (fun x => trim (32%N :: x)) l) = l.
Proof.
  induction 1 as [|x xs [Hne [Ht _]] _ IH]; [reflexivity|].
  cbn [List.map List.filter]. rewrite trim_space, Ht.
  replace (eqb x []) with false by (symmetry; apply eqb_neq, Hne).
  cbn [negb]. f_equal. exact IH.
Qed.

End SetupWizardFacts.

(** X3: [esc] writes no [<], [>] or double quote; it works character
    by character, so that the escaped form of a concatenation is the
    concatenation of the escaped forms; it leaves a text without [&],
    [<], [>] and double quote as it is; and two different texts never
    have the same escaped form. *)
Theorem esc_safe_and_injective :
  (forall s c, In c (SetupWizard.esc s) ->
               c <> SetupWizard.lt /\ c <> SetupWizard.gt
               /\ c <> SetupWizard.quot)
  /\ (forall a b, SetupWizard.esc (a ++ b)
                  = SetupWizard.esc a ++ SetupWizard.esc b)
  /\ (forall s, ~ In SetupWizard.amp s -> ~ In SetupWizard.lt s ->
                ~ In SetupWizard.gt s -> ~ In SetupWizard.quot s ->
                SetupWizard.esc s = s)
  /\ (forall a b, SetupWizard.esc a = SetupWizard.esc b -> a = b).
Proof.
  split; [|split; [|split]].
  - intros s c H. rewrite SetupWizardFacts.esc_flat in H.
    apply in_flat_map in H as [x [_ H]].
    exact (SetupWizardFacts.esc_char_safe x c H).
  - exact SetupWizardFacts.esc_app.
  - intros s Ha Hl Hg Hq. rewrite SetupWizardFacts.esc_flat.
    induction s as [|x s IH]; [reflexivity|].
    simpl.
    rewrite IH
      by (intros H;
          first [solve [apply Ha; right; exact H]
                | solve [apply Hl; right; exact H]
                | solve [apply Hg; right; exact H]
                | solve [apply Hq; right; exact H]]).
    unfold SetupWizardTerms.esc_char.
    destruct (N.eqb_spec x SetupWizard.amp) as [->|_];
      [exfalso; apply Ha; left; reflexivity|].
    destruct (N.eqb_spec x SetupWizard.lt) as [->|_];
      [exfalso; apply Hl; left; reflexivity|].
    destruct (N.eqb_spec x SetupWizard.gt) as [->|_];
      [exfalso; apply Hg; left; reflexivity|].
    destruct (N.eqb_spec x SetupWizard.quot) as [->|_];
      [exfalso; apply Hq; left; reflexivity|].
    reflexivity.
  - intros a b H. rewrite !SetupWizardFacts.esc_flat in H.
    exact (SetupWizardFacts.flat_esc_injective a b H).
Qed.

(** X4: what is saved from the allow-list field never holds an empty
    entry, an entry with white space at its ends or an entry with a
    comma; and a list of such entries that is shown in the field and
    saved unchanged comes back as it was. *)
Theorem allowlist_field_round_trip :
  (forall text,
      Forall SetupWizardTerms.entry (SetupWizard.parseAllowlist text))
  /\ (forall allowlist,
         Forall SetupWizardTerms.entry allowlist ->
         SetupWizard.parseAllowlist (SetupWizard.allowlistText allowlist)
         = allowlist).
Proof.
  split.
  - intros text. unfold SetupWizard.parseAllowlist.
    pose proof (PathFacts.split_on_pieces SetupWizard.comma text) as Hp.
    induction Hp as [|piece pieces Hc _ IH]; [constructor|].
    cbn [List.map List.filter].
    destruct (eqb (trim piece) []) eqn:E; cbn [negb]; [exact IH|].
    constructor; [|exact IH].
    split; [apply JStrFacts.eqb_neq, E|].
    split; [apply SetupWizardFacts.trim_idempotent|].
    intros H. apply Hc. exact (SetupWizardFacts.In_trim _ _ H).
  - intros [|e l] H; [reflexivity|].
    unfold SetupWizard.parseAllowlist.
    rewrite SetupWizardFacts.split_allowlistText by exact H.
    rewrite List.map_cons, List.map_map.
    inversion H as [|? ? [Hne [Ht _]] Hl]; subst.
    cbn [List.filter]. rewrite Ht.
    replace (eqb e []) with false
      by (symmetry; apply JStrFacts.eqb_neq, Hne).
    cbn [negb]. f_equal.
    exact (SetupWizardFacts.filter_spaced l Hl).
Qed.

Lemma allowlist_field_round_trip_witness :
  SetupWizard.parseAllowlist
    (SetupWizard.allowlistText [lit "git"; lit "npm"; lit "tsc"])
  = [lit "git"; lit "npm"; lit "tsc"].
Proof.
  apply (proj2 allowlist_field_round_trip).
  repeat constructor; try discriminate;
    intros H; vm_compute in H; intuition discriminate.
Defined.

(** ** The history of the activity store *)

Module ActivityHistoryFacts.

Import ActivityStore ActivityStoreTerms ActivityHistory ActivityStats.

Lemma take_cons_take {A} (k : nat) (x : A) (l : list A) :
  take k (x :: take k l) = take k (x :: l).
Proof.
  destruct k as [|k]; [reflexivity|]. cbn [take firstn]. f_equal.
  rewrite take_take. f_equal. lia.
Qed.

Lemma In_take {A} (x : A) (l : list A) : forall k,
  In x (take k l) -> In x l.
Proof.
  induction l as [|y l IH]; intros [|k]; simpl; try tauto.
  intros [H|H]; [left; exact H | right; exact (IH k H)].
Qed.

Section Labels.

Variable getCategory : jsstring -> jsstring.
Variable describeIntent : jsstring -> jsval -> completion Thrown jsstring.

Let start := start getCategory describeIntent.
Let run := run getCategory describeIntent.
Let call := call getCategory describeIntent.
Let issued := issued describeIntent.
Let inserted := inserted describeIntent.

(** Every call of [start] advances the counter by one, and nothing
    else moves it. *)
Lemma run_counts (calls : list Call) : forall s,
  nextId (run s calls) = (nextId s + N.of_nat (starts calls))%N.
Proof.
  induction calls as [|c calls IH]; intros s;
    [unfold starts; simpl; lia|].
  change (run s (c :: calls)) with (run (call s c) calls).
  rewrite IH. unfold starts.
  destruct c as [now cmd prm|now i ok result err|];
    cbn [call ActivityStore.call List.filter length].
  - pose proof (ActivityStoreFacts.start_nextId
                  getCategory describeIntent now s cmd prm) as H.
    unfold call. cbn [ActivityStore.call]. rewrite H. lia.
  - unfold call, finish. cbn [ActivityStore.call].
    destruct (List.find _ _); simpl; lia.
  - unfold call. simpl. lia.
Qed.

(** The identifiers inserted before come after the new ones, unless a
    [clear] has forgotten them. *)
Lemma issued_app (calls : list Call) : forall n acc,
  issued n acc calls
  = issued n [] calls ++ (if existsb is_clear calls then [] else acc).
Proof.
  unfold issued.
  induction calls as [|c calls IH]; intros n acc; [reflexivity|].
  destruct c as [now cmd prm|now i ok result err|];
    cbn [ActivityHistory.issued existsb is_clear orb].
  - rewrite (IH _ (if inserts _ _ then _ else _)).
    rewrite (IH _ (if inserts _ _ then n :: [] else [])).
    destruct (existsb is_clear calls);
      [rewrite !app_nil_r; reflexivity|].
    destruct (inserts _ _); [|rewrite app_nil_r; reflexivity].
    rewrite <- app_assoc. reflexivity.
  - apply IH.
  - rewrite app_nil_r. reflexivity.
Qed.

(** The new identifiers start at the counter. *)
Lemma issued_lower (m : N) (calls : list Call) : forall n acc,
  (m <= n)%N ->
  Forall (fun j => (m <= j)%N) acc ->
  Forall (fun j => (m <= j)%N) (issued n acc calls).
Proof.
  unfold issued.
  induction calls as [|c calls IH]; intros n acc Hn Hacc; [exact Hacc|].
  destruct c as [now cmd prm|now i ok result err|];
    cbn [ActivityHistory.issued].
  - apply IH; [lia|].
    destruct (inserts _ _); [constructor|]; assumption.
  - apply IH; assumption.
  - apply IH; [assumption | constructor].
Qed.

(** Without a [clear], every inserting call adds one identifier. *)
Lemma issued_length (calls : list Call) : forall n acc,
  existsb is_clear calls = false ->
  length (issued n acc calls) = inserted calls + length acc.
Proof.
  unfold issued, inserted, ActivityHistory.inserted.
  induction calls as [|c calls IH]; intros n acc Hc; [reflexivity|].
  destruct c as [now cmd prm|now i ok result err|];
    cbn [ActivityHistory.issued existsb is_clear orb List.filter] in *.
  - rewrite IH by exact Hc.
    destruct (inserts _ _); cbn [length]; lia.
  - cbn [inserts]. apply IH, Hc.
  - discriminate.
Qed.

(** What the store holds after [calls]: the last [maxEntries] of the
    identifiers inserted and not cleared. *)
Lemma run_issued (calls : list Call) : forall s acc,
  ids s = take maxEntries acc ->
  ids (run s calls) = take maxEntries (issued (nextId s) acc calls).
Proof.
  unfold issued.
  induction calls as [|c calls IH]; intros s acc Hs; [exact Hs|].
  change (run s (c :: calls)) with (run (call s c) calls).
  destruct c as [now cmd prm|now i ok result err|];
    cbn [ActivityHistory.issued].
  - pose proof (ActivityStoreFacts.start_nextId
                  getCategory describeIntent now s cmd prm) as Hn.
    unfold call. cbn [ActivityStore.call].
    rewrite <- Hn. apply IH. cbn [inserts].
    destruct (describeIntent cmd prm) as [text|e] eqn:Hd.
    + destruct (ActivityStoreFacts.start_activities
                  getCategory describeIntent now s cmd prm text Hd)
        as [_ [_ [a [Hid [_ [_ [_ [_ [_ Hacts]]]]]]]]].
      unfold ids. rewrite Hacts, <- firstn_map. cbn [List.map].
      rewrite Hid. unfold ids in Hs. rewrite Hs.
      apply take_cons_take.
    + rewrite (ActivityStoreFacts.start_throws
                 getCategory describeIntent now s cmd prm e Hd).
      exact Hs.
  - replace (nextId s) with (nextId (call s (CallFinish now i ok result err))).
    + apply IH. unfold call, ids. cbn [ActivityStore.call]. unfold finish.
      destruct (List.find _ (activities s)); [|exact Hs].
      cbn [fst activities].
      rewrite ActivityStoreFacts.map_update_first_id by reflexivity.
      exact Hs.
    + unfold call. cbn [ActivityStore.call]. unfold finish.
      destruct (List.find _ (activities s)); reflexivity.
  - apply (IH (call s CallClear) []). reflexivity.
Qed.

(** An identifier below the counter is not in the store after [later]
    when it was not there before, or when [later] insert [maxEntries]
    records or clear the store. *)
Lemma absent_after (s : Store) (i : N) (later : list Call) :
  invariant s ->
  (i < nextId s)%N ->
  ~ In i (ids s)
  \/ maxEntries <= inserted later
  \/ In CallClear later ->
  ~ In i (ids (run s later)).
Proof.
  intros [Hb _ _] Hi Hgone Hin.
  rewrite (run_issued later s (ids s)) in Hin
    by (symmetry; apply take_ge; unfold ids; rewrite length_map; exact Hb).
  rewrite issued_app in Hin.
  pose proof (issued_lower (nextId s) later (nextId s) []
                           ltac:(lia) ltac:(constructor)) as Hnew.
  rewrite List.Forall_forall in Hnew.
  destruct (existsb is_clear later) eqn:Hc.
  - rewrite app_nil_r in Hin. apply In_take, Hnew in Hin. lia.
  - destruct Hgone as [Hout|[Hmany|Hclear]].
    + apply In_take, in_app_or in Hin. destruct Hin as [Hin|Hin];
        [apply Hnew in Hin; lia | exact (Hout Hin)].
    + rewrite take_app_le in Hin
        by (rewrite (issued_length later _ [] Hc); cbn [length]; lia).
      apply In_take, Hnew in Hin. lia.
    + assert (Ht : existsb is_clear later = true)
        by (apply existsb_exists; exists CallClear;
            split; [exact Hclear | reflexivity]).
      congruence.
Qed.

End Labels.

End ActivityHistoryFacts.

Module ActivityFinishFacts.

Import ActivityStore ActivityStoreTerms ActivityStats AuditTerms.

Lemma map_unchanged {A} (g : A -> A) (l : list A) :
  (forall a, In a l -> g a = a) -> List.map g l = l.
Proof.
  induction l as [|x l IH]; intros H; [reflexivity|]. simpl.
  rewrite H by (left; reflexivity).
  rewrite IH by (intros a Ha; apply H; right; exact Ha). reflexivity.
Qed.

(** In a list whose identifiers decrease strictly, the first record
    with a given identifier is the only one. *)
Lemma update_first_unique (i : N) (f : Activity -> Activity)
      (l : list Activity) :
  newest_first (List.map id l) ->
  update_first (fun a => (id a =? i)%N) f l
  = List.map (fun a => if (id a =? i)%N then f a else a) l.
Proof.
  unfold newest_first. induction l as [|x l IH]; intros H; [reflexivity|].
  cbn [List.map] in H. inversion H as [|? ? Hl Hx]; subst.
  cbn [update_first List.map].
  destruct (N.eqb_spec (id x) i) as [E|E].
  - f_equal. symmetry. apply map_unchanged. intros a Ha.
    rewrite List.Forall_forall in Hx.
    assert (id a < id x)%N by (apply Hx, in_map, Ha).
    destruct (N.eqb_spec (id a) i); [lia | reflexivity].
  - f_equal. apply IH, Hl.
Qed.

Lemma find_existsb (i : N) (l : list Activity) :
  existsb (fun a => (id a =? i)%N) l
  = match List.find (fun a => (id a =? i)%N) l with
    | Some _ => true
    | None => false
    end.
Proof.
  induction l as [|x l IH]; [reflexivity|]. simpl.
  destruct (id x =? i)%N; [reflexivity | exact IH].
Qed.



Lemma count_partition (l : list Activity) :
  length l = count status_ok l + count status_error l
             + count status_running l.
Proof.
  unfold count. induction l as [|x l IH]; [reflexivity|].
  cbn [List.filter length].
  destruct (has_status status_ok x) eqn:E1,
           (has_status status_error x) eqn:E2,
           (has_status status_running x) eqn:E3;
    unfold has_status in E1, E2, E3;
    destruct (status x); try discriminate; cbn [length]; lia.
Qed.

(** Replacing the first record with a given identifier moves one unit
    from the count of its old status to the count of its new one. *)
Lemma count_update_first (st : Status) (i : N) (f : Activity -> Activity)
      (l : list Activity) (a : Activity) :
  List.find (fun a => (id a =? i)%N) l = Some a ->
  count st (update_first (fun a => (id a =? i)%N) f l)
  + (if has_status st a then 1 else 0)
  = count st l + (if has_status st (f a) then 1 else 0).
Proof.
  unfold count. induction l as [|x l IH]; [discriminate|].
  cbn [List.find update_first]. destruct (id x =? i)%N.
  - intros H. injection H as ->. cbn [List.filter].
    destruct (has_status st a), (has_status st (f a)); cbn [length]; lia.
  - intros H. specialize (IH H). cbn [List.filter].
    destruct (has_status st x); cbn [length]; lia.
Qed.

End ActivityFinishFacts.

(** X5: the store holds the last records inserted.  The counter is
    one more than the number of calls of [start] so far, also of the
    calls in which [describeIntent] threw and nothing was inserted
    ([clear] does not reset it).  The identifiers returned by [getAll]
    are, newest first, the last 200 of the identifiers of the records
    inserted since the last [clear].  A call of [start] takes the
    identifier at the counter; its [finish] changes nothing and emits
    nothing when the call threw, and also once 200 further records
    have been inserted or the store has been cleared. *)
Theorem activity_store_keeps_latest
        (getCategory : jsstring -> jsstring)
        (describeIntent : jsstring -> jsval -> completion Thrown jsstring)
        (calls : list ActivityStore.Call) :
  let s := ActivityStore.run getCategory describeIntent ActivityStore.empty
                             calls in
  ActivityStore.nextId s = (1 + N.of_nat (ActivityHistory.starts calls))%N
  /\ List.map ActivityStore.id (ActivityStore.getAll s)
     = take 200 (ActivityHistory.issued describeIntent 1 [] calls)
  /\ (forall now command params,
         let r := ActivityStore.start getCategory describeIntent
                                      now s command params in
         ActivityStore.nextId (snd (fst r))
         = (ActivityStore.nextId s + 1)%N
         /\ match fst (fst r) with
            | Normal i => i = ActivityStore.nextId s
            | Throw _ =>
                ActivityStore.getAll (snd (fst r)) = ActivityStore.getAll s
            end)
  /\ (forall now command params later,
         let r := ActivityStore.start getCategory describeIntent
                                      now s command params in
         let i := ActivityStore.nextId s in
         let s' := ActivityStore.run getCategory describeIntent
                                     (snd (fst r)) later in
         (exists e, fst (fst r) = Throw e)
         \/ 200 <= ActivityHistory.inserted describeIntent later
         \/ In ActivityStore.CallClear later ->
         forall now' ok result err,
           ActivityStore.finish now' s' i ok result err = (s', [])).
Proof.
  intros s.
  assert (Hinv : ActivityStoreTerms.invariant s)
    by apply ActivityStoreFacts.run_invariant,
             ActivityStoreFacts.empty_invariant.
  split; [|split; [|split]].
  - unfold s. rewrite ActivityHistoryFacts.run_counts. reflexivity.
  - apply (ActivityHistoryFacts.run_issued
             getCategory describeIntent calls ActivityStore.empty []).
    reflexivity.
  - intros now command params r.
    split; [apply ActivityStoreFacts.start_nextId|].
    destruct (describeIntent command params) as [text|e] eqn:Hd.
    + destruct (ActivityStoreFacts.start_activities
                  getCategory describeIntent now s command params text Hd)
        as [Hid _].
      unfold r. rewrite Hid. reflexivity.
    + unfold r.
      rewrite (ActivityStoreFacts.start_throws
                 getCategory describeIntent now s command params e Hd).
      reflexivity.
  - intros now command params later r i s' Hgone now' ok result err.
    unfold ActivityStore.finish.
    rewrite ActivityStoreFacts.find_none_of_absent; [reflexivity|].
    apply (ActivityHistoryFacts.absent_after
             getCategory describeIntent (snd (fst r)) i later).
    + apply ActivityStoreFacts.start_preserves, Hinv.
    + unfold r. rewrite ActivityStoreFacts.start_nextId. unfold i. lia.
    + destruct Hgone as [[e He]|[Hmany|Hclear]];
        [left | right; left; exact Hmany | right; right; exact Hclear].
      unfold r in He |- *.
      destruct (describeIntent command params) as [text|e'] eqn:Hd.
      * destruct (ActivityStoreFacts.start_activities
                    getCategory describeIntent now s command params text Hd)
          as [Hid _].
        rewrite Hid in He. discriminate.
      * rewrite (ActivityStoreFacts.start_throws
                   getCategory describeIntent now s command params e' Hd).
        cbn [fst snd]. unfold ActivityStoreTerms.ids.
        cbn [ActivityStore.activities].
        destruct Hinv as [_ _ Hf]. rewrite List.Forall_forall in Hf.
        intros Hin. apply Hf in Hin. unfold i in Hin. lia.
Qed.

Lemma activity_store_keeps_latest_witness :
  let describeIntent :=
    ActivityLabels.describeIntent Example.Number_toString in
  let unreadable :=
    VObj [(lit "path", VStr (lit "a.ts"));
          (lit "line", VObj [(lit "toString", VNum 1)])] in
  let started :=
    ActivityStore.start (fun _ => lit "Git") describeIntent
                        10 ActivityStore.empty (lit "vscode.git.status")
                        (VObj []) in
  let failed :=
    ActivityStore.start (fun _ => lit "Language") describeIntent
                        10 ActivityStore.empty (lit "vscode.lang.definition")
                        unreadable in
  fst (fst started) = Normal 1%N
  /\ ActivityStore.finish
       20 (ActivityStore.run (fun _ => lit "Git") describeIntent
                             (snd (fst started)) [ActivityStore.CallClear])
       1 true VNull None
     = (ActivityStore.run (fun _ => lit "Git") describeIntent
                          (snd (fst started)) [ActivityStore.CallClear],
        [])
  /\ fst (fst failed) = Throw (ThrownError JSValue.noPrimitive)
  /\ ActivityStore.finish 20 (snd (fst failed)) 1 true VNull None
     = (snd (fst failed), []).
Proof.
  intros describeIntent unreadable started failed.
  split; [reflexivity|]. split; [|split; [reflexivity|]].
  - destruct (activity_store_keeps_latest
                (fun _ => lit "Git") describeIntent [])
      as [_ [_ [_ H]]].
    apply (H 10%Z (lit "vscode.git.status") (VObj [])
             [ActivityStore.CallClear]).
    right. right. left. reflexivity.
  - destruct (activity_store_keeps_latest
                (fun _ => lit "Language") describeIntent [])
      as [_ [_ [_ H]]].
    apply (H 10%Z (lit "vscode.lang.definition") unreadable []).
    left. eexists. reflexivity.
Defined.

(** X6: on every store reached from the empty one, [finish] rewrites
    the record that has the given identifier, and no other record; the
    order, the length and the counter stay as they are, and [change] is
    emitted exactly when there is such a record.  The record gets its
    new status, the time of the call and the duration since its start;
    the payload is stored only for a success and the error only when it
    is a non-empty text. *)
Theorem finish_updates_one_record
        (getCategory : jsstring -> jsstring)
        (describeIntent : jsstring -> jsval -> completion Thrown jsstring)
        (calls : list ActivityStore.Call)
        (now : Z) (i : N) (ok : bool) (result : jsval)
        (err : option jsstring) :
  let s := ActivityStore.run getCategory describeIntent ActivityStore.empty
                             calls in
  let r := ActivityStore.finish now s i ok result err in
  ActivityStore.getAll (fst r)
  = List.map (fun a => if (ActivityStore.id a =? i)%N
                       then ActivityStore.finished now ok result err a
                       else a)
             (ActivityStore.getAll s)
  /\ ActivityStore.nextId (fst r) = ActivityStore.nextId s
  /\ snd r = (if existsb (fun a => (ActivityStore.id a =? i)%N)
                         (ActivityStore.getAll s)
              then [ActivityStore.change] else [])
  /\ (forall a,
         ActivityStore.status (ActivityStore.finished now ok result err a)
         = (if ok then ActivityStore.status_ok
            else ActivityStore.status_error)
         /\ ActivityStore.finishedAt
              (ActivityStore.finished now ok result err a) = Some now
         /\ ActivityStore.durationMs
              (ActivityStore.finished now ok result err a)
            = Some (now - ActivityStore.startedAt a)%Z
         /\ ActivityStore.payload
              (ActivityStore.finished now ok result err a)
            = (if ok then Some result else ActivityStore.payload a)
         /\ ActivityStore.startedAt
              (ActivityStore.finished now ok result err a)
            = ActivityStore.startedAt a
         /\ ActivityStore.command
              (ActivityStore.finished now ok result err a)
            = ActivityStore.command a).
Proof.
  intros s r.
  assert (Hinv : ActivityStoreTerms.invariant s)
    by apply ActivityStoreFacts.run_invariant,
             ActivityStoreFacts.empty_invariant.
  destruct Hinv as [_ Ho _].
  rewrite ActivityFinishFacts.find_existsb.
  unfold r, ActivityStore.finish, ActivityStore.getAll.
  destruct (List.find _ (ActivityStore.activities s)) as [a|] eqn:E.
  - cbn [fst snd ActivityStore.activities ActivityStore.nextId].
    split; [|repeat split].
    apply ActivityFinishFacts.update_first_unique. exact Ho.
  - cbn [fst snd]. split; [|repeat split].
    symmetry. apply ActivityFinishFacts.map_unchanged. intros a Ha.
    destruct (N.eqb_spec (ActivityStore.id a) i) as [Hi|Hi];
      [|reflexivity].
    exfalso. apply (List.find_none _ _ E) in Ha.
    apply N.eqb_neq in Ha. contradiction.
Qed.

(** X7: the counters of [getStats]: on every store reached from the
    empty one the total is the sum of the three counts and at most 200;
    finishing an activity that is running leaves the total, takes one
    from the running count and adds one to the count of successes or
    to the count of errors. *)
Theorem getStats_counts
        (getCategory : jsstring -> jsstring)
        (describeIntent : jsstring -> jsval -> completion Thrown jsstring)
        (calls : list ActivityStore.Call) :
  let s := ActivityStore.run getCategory describeIntent ActivityStore.empty
                             calls in
  let st := ActivityStats.getStats s in
  ActivityStats.total st
  = ActivityStats.ok st + ActivityStats.errors st + ActivityStats.running st
  /\ ActivityStats.total st <= 200
  /\ (forall now i success result err a,
         List.find (fun a => (ActivityStore.id a =? i)%N)
                   (ActivityStore.getAll s) = Some a ->
         ActivityStore.status a = ActivityStore.status_running ->
         let st' := ActivityStats.getStats
                      (fst (ActivityStore.finish now s i success
                                                 result err)) in
         ActivityStats.total st' = ActivityStats.total st
         /\ S (ActivityStats.running st') = ActivityStats.running st
         /\ ActivityStats.ok st'
            = ActivityStats.ok st + (if success then 1 else 0)
         /\ ActivityStats.errors st'
            = ActivityStats.errors st + (if success then 0 else 1)).
Proof.
  intros s st.
  assert (Hinv : ActivityStoreTerms.invariant s)
    by apply ActivityStoreFacts.run_invariant,
             ActivityStoreFacts.empty_invariant.
  destruct Hinv as [Hb _ _].
  split; [|split].
  - apply ActivityFinishFacts.count_partition.
  - exact Hb.
  - intros now i success result err a Hfind Hrun st'.
    unfold st', st, ActivityStats.getStats, ActivityStore.finish.
    unfold ActivityStore.getAll in Hfind. rewrite Hfind.
    cbn [fst ActivityStore.activities ActivityStats.total ActivityStats.ok
         ActivityStats.errors ActivityStats.running].
    pose proof (fun st =>
                  ActivityFinishFacts.count_update_first
                    st i (ActivityStore.finished now success result err)
                    (ActivityStore.activities s) a Hfind) as Hcount.
    unfold AuditTerms.count in Hcount.
    pose proof (Hcount ActivityStore.status_running) as Hr.
    pose proof (Hcount ActivityStore.status_ok) as Hk.
    pose proof (Hcount ActivityStore.status_error) as He.
    unfold ActivityStats.has_status at 2 4 in Hr.
    unfold ActivityStats.has_status at 2 4 in Hk.
    unfold ActivityStats.has_status at 2 4 in He.
    cbn [ActivityStore.status ActivityStore.finished] in Hr, Hk, He.
    rewrite Hrun in Hr, Hk, He.
    rewrite ActivityStoreFacts.length_update_first.
    destruct success; lia.
Qed.

Lemma getStats_counts_witness :
  let s := ActivityStore.run (fun _ => lit "Git") (fun command _ => Normal command)
                             ActivityStore.empty
                             [ActivityStore.CallStart
                                10 (lit "vscode.git.status") (VObj [])] in
  ActivityStats.running (ActivityStats.getStats s) = 1
  /\ ActivityStats.ok
       (ActivityStats.getStats
          (fst (ActivityStore.finish 25 s 1 true VNull None))) = 1.
Proof.
  intros s. split; [reflexivity|].
  destruct (getStats_counts
              (fun _ => lit "Git") (fun command _ => Normal command)
              [ActivityStore.CallStart 10 (lit "vscode.git.status") (VObj [])])
    as [_ [_ H]].
  destruct (H 25%Z 1%N true VNull None
              {| ActivityStore.id := 1;
                 ActivityStore.command := lit "vscode.git.status";
                 ActivityStore.category := lit "Git";
                 ActivityStore.intent := lit "vscode.git.status";
                 ActivityStore.params := VObj [];
                 ActivityStore.status := ActivityStore.status_running;
                 ActivityStore.startedAt := 10;
                 ActivityStore.finishedAt := None;
                 ActivityStore.durationMs := None;
                 ActivityStore.payload := None;
                 ActivityStore.error := None |}
              eq_refl eq_refl) as [_ [_ [Hok _]]].
  exact Hok.
Defined.

(** ** The table of handlers and the audit trail of the dispatcher *)

(** X8: the registry advertises what it dispatches.
    [getRegisteredCommands()] returns 40 names without a repetition.
    For a command among them [dispatchCommand] starts an activity,
    awaits the handler registered under that name and wraps its
    outcome; an exception of the start, or of the conversion of a
    thrown value that is not an [Error] to a string, leaves the call
    instead.  For every other command it answers [UNKNOWN_COMMAND] and
    leaves the activity store as it is. *)
Theorem registry_advertises_what_it_dispatches
        (getCategory : jsstring -> jsstring)
        (describeIntent : jsstring -> jsval -> completion Thrown jsstring)
        (Number_toString : Z -> jsstring)
        (handler_of : jsstring -> Registry.CommandHandler) :
  length RegistryTable.getRegisteredCommands = 40
  /\ NoDup RegistryTable.getRegisteredCommands
  /\ forall now_start now_finish meanwhile store command params,
      let r := Registry.dispatchCommand
                 getCategory describeIntent Number_toString
                 (RegistryTable.handlers handler_of)
                 now_start now_finish meanwhile store command params in
      (In command RegistryTable.getRegisteredCommands ->
       fst r = match describeIntent command params with
               | Throw e => Throw e
               | Normal _ =>
                   match handler_of command params with
                   | Normal payload => Normal (Registry.Success payload)
                   | Throw err =>
                       match Registry.error_message Number_toString err with
                       | Normal message =>
                           Normal (Registry.Failure (lit "COMMAND_ERROR")
                                                    message)
                       | Throw e => Throw e
                       end
                   end
               end)
      /\ (~ In command RegistryTable.getRegisteredCommands ->
          r = (Normal (Registry.Failure
                         (lit "UNKNOWN_COMMAND")
                         (lit "Unknown command: " ++ command)),
               store)).
Proof.
  rewrite RegistryTableFacts.registered_names.
  split; [reflexivity|]. split; [exact RegistryTableFacts.names_NoDup|].
  intros now_start now_finish meanwhile store command params r.
  pose proof (RegistryTableFacts.handlers_lookup handler_of command) as Hl.
  split; intros H.
  - apply RegistryTableFacts.In_existsb in H. rewrite H in Hl.
    destruct (describeIntent command params) as [text|e] eqn:Hd.
    + exact (RegistryFacts.dispatch_known
               getCategory describeIntent Number_toString
               (RegistryTable.handlers handler_of)
               now_start now_finish meanwhile store command params
               (handler_of command) text Hl Hd).
    + unfold r.
      rewrite (RegistryFacts.dispatch_start_throws
                 getCategory describeIntent Number_toString
                 (RegistryTable.handlers handler_of)
                 now_start now_finish meanwhile store command params
                 (handler_of command) e Hl Hd).
      reflexivity.
  - replace (existsb (eqb command) RegistryTable.names) with false in Hl.
    + exact (RegistryFacts.dispatch_unknown
               getCategory describeIntent Number_toString
               (RegistryTable.handlers handler_of)
               now_start now_finish meanwhile store command params Hl).
    + symmetry. apply not_true_iff_false. intros E. apply H.
      apply RegistryTableFacts.In_existsb, E.
Qed.

Lemma registry_advertises_what_it_dispatches_witness :
  let describeIntent :=
    ActivityLabels.describeIntent Example.Number_toString in
  let handler_of : jsstring -> Registry.CommandHandler :=
    fun _ _ => Throw (ThrownError (lit "No workspace folder open")) in
  fst (Registry.dispatchCommand
         (fun _ => lit "Git") describeIntent Example.Number_toString
         (RegistryTable.handlers handler_of)
         10 25 (fun s => s) ActivityStore.empty
         (lit "vscode.git.status") (VObj []))
  = Normal (Registry.Failure (lit "COMMAND_ERROR")
                             (lit "No workspace folder open"))
  /\ Registry.dispatchCommand
       (fun _ => lit "Git") describeIntent Example.Number_toString
       (RegistryTable.handlers handler_of)
       10 25 (fun s => s) ActivityStore.empty
       (lit "vscode.shell.exec") (VObj [])
     = (Normal (Registry.Failure
                  (lit "UNKNOWN_COMMAND")
                  (lit "Unknown command: " ++ lit "vscode.shell.exec")),
        ActivityStore.empty).
Proof.
  intros describeIntent handler_of.
  destruct (registry_advertises_what_it_dispatches
              (fun _ => lit "Git") describeIntent Example.Number_toString
              handler_of)
    as [_ [_ H]].
  split.
  - apply (H 10%Z 25%Z (fun s => s) ActivityStore.empty
             (lit "vscode.git.status") (VObj [])).
    rewrite RegistryTableFacts.registered_names.
    apply RegistryTableFacts.In_existsb. vm_compute. reflexivity.
  - apply (H 10%Z 25%Z (fun s => s) ActivityStore.empty
             (lit "vscode.shell.exec") (VObj [])).
    rewrite RegistryTableFacts.registered_names.
    intros Hin. apply RegistryTableFacts.In_existsb in Hin.
    vm_compute in Hin. discriminate.
Defined.

Module AuditFacts.

Import ActivityStore ActivityStoreTerms ActivityHistory AuditTerms.

Lemma Forall_update_first {A} (P : A -> Prop) (p : A -> bool) (f : A -> A)
      (l : list A) :
  (forall a, P a -> P (f a)) ->
  Forall P l -> Forall P (update_first p f l).
Proof.
  intros Hf. induction 1 as [|x l Hx Hl IH]; simpl; [constructor|].
  destruct (p x); constructor; auto.
Qed.

Lemma finished_tracked (i : N) (c : jsstring) (p : jsval) (t : Z)
      (now : Z) (ok : bool) (result : jsval) (err : option jsstring)
      (a : Activity) :
  tracked i c p t a -> tracked i c p t (finished now ok result err a).
Proof. unfold tracked. simpl. auto. Qed.

Section Labels.

Variable getCategory : jsstring -> jsstring.
Variable describeIntent : jsstring -> jsval -> completion Thrown jsstring.

Let start := start getCategory describeIntent.
Let run := run getCategory describeIntent.
Let call := call getCategory describeIntent.

(** What was started under an identifier stays what it was: later
    calls add records with larger identifiers and [finish] leaves the
    command, the parameters and the starting time alone. *)
Lemma run_tracked (i : N) (c : jsstring) (p : jsval) (t : Z)
      (calls : list Call) : forall s,
  (i < nextId s)%N ->
  Forall (tracked i c p t) (activities s) ->
  Forall (tracked i c p t) (activities (run s calls)).
Proof.
  induction calls as [|k calls IH]; intros s Hn H; [exact H|].
  change (run s (k :: calls)) with (run (call s k) calls).
  pose proof (ActivityStoreFacts.call_nextId
                getCategory describeIntent s k) as Hle.
  fold call in Hle.
  apply IH; [lia|].
  destruct k as [now cmd prm|now j ok result err|];
    unfold call; cbn [ActivityStore.call].
  - destruct (describeIntent cmd prm) as [text|e] eqn:Hd.
    + destruct (ActivityStoreFacts.start_activities
                  getCategory describeIntent now s cmd prm text Hd)
        as [_ [_ [a [Hid [_ [_ [_ [_ [_ Hacts]]]]]]]]].
      rewrite Hacts. apply Forall_take.
      constructor; [|exact H]. intros Hi. lia.
    + rewrite (ActivityStoreFacts.start_throws
                 getCategory describeIntent now s cmd prm e Hd).
      exact H.
  - unfold finish. destruct (List.find _ _); [|exact H]. simpl.
    apply Forall_update_first; [|exact H].
    intros b. apply finished_tracked.
  - constructor.
Qed.

End Labels.

End AuditFacts.

(** X9: the audit trail of [dispatchCommand].  A command without a
    handler leaves the activity store as it is.  For a command with a
    handler, when [dispatchCommand] returns an envelope, whatever other
    calls reach the store while the handler is awaited, a record that
    carries the identifier of this call is the record of this call: it
    has the command, the parameters and the starting time of the call,
    the time of the return and the duration between the two, the status
    [ok] with the payload when the handler fulfilled and the status
    [error] with the message when it threw.  When nothing else reaches
    the store meanwhile, that record is the first one of [getAll], in
    front of the 199 newest older records.  When [dispatchCommand]
    throws instead, either the start threw, and the store has no record
    of the call, or the conversion of the thrown value did, and
    [finish] was not called. *)
Theorem dispatchCommand_audit_trail
        (getCategory : jsstring -> jsstring)
        (describeIntent : jsstring -> jsval -> completion Thrown jsstring)
        (Number_toString : Z -> jsstring)
        (handlers : gmap jsstring Registry.CommandHandler)
        (calls later : list ActivityStore.Call)
        (now_start now_finish : Z)
        (command : jsstring) (params : jsval) :
  let store := ActivityStore.run getCategory describeIntent
                                 ActivityStore.empty calls in
  let meanwhile := fun s => ActivityStore.run getCategory describeIntent
                                              s later in
  let r := Registry.dispatchCommand
             getCategory describeIntent Number_toString handlers
             now_start now_finish meanwhile store command params in
  let started := ActivityStore.start getCategory describeIntent
                                     now_start store command params in
  let recorded (handler : Registry.CommandHandler)
               (a : ActivityStore.Activity) :=
    ActivityStore.command a = command
    /\ ActivityStore.params a = params
    /\ ActivityStore.startedAt a = now_start
    /\ ActivityStore.finishedAt a = Some now_finish
    /\ ActivityStore.durationMs a = Some (now_finish - now_start)%Z
    /\ match handler params with
       | Normal payload =>
           ActivityStore.status a = ActivityStore.status_ok
           /\ ActivityStore.payload a = Some payload
       | Throw err =>
           ActivityStore.status a = ActivityStore.status_error
           /\ (forall message,
                  Registry.error_message Number_toString err
                  = Normal message ->
                  message <> [] ->
                  ActivityStore.error a = Some message)
       end in
  (handlers !! command = None -> snd r = store)
  /\ (forall handler envelope,
         handlers !! command = Some handler ->
         fst r = Normal envelope ->
         (forall a,
             In a (ActivityStore.getAll (snd r)) ->
             ActivityStore.id a = ActivityStore.nextId store ->
             recorded handler a)
         /\ (later = [] ->
             exists a,
               ActivityStore.getAll (snd r)
               = a :: take 199 (ActivityStore.getAll store)
               /\ ActivityStore.id a = ActivityStore.nextId store
               /\ recorded handler a))
  /\ (forall handler e,
         handlers !! command = Some handler ->
         fst r = Throw e ->
         describeIntent command params = Throw e
         /\ snd r = {| ActivityStore.activities :=
                         ActivityStore.activities store;
                       ActivityStore.nextId :=
                         (ActivityStore.nextId store + 1)%N |}
         \/ exists text err,
             describeIntent command params = Normal text
             /\ handler params = Throw err
             /\ Registry.error_message Number_toString err = Throw e
             /\ snd r = meanwhile (snd (fst started))).
Proof.
  intros store meanwhile r started recorded.
  split; [|split].
  - intros H. unfold r.
    rewrite (RegistryFacts.dispatch_unknown
               getCategory describeIntent Number_toString handlers
               now_start now_finish meanwhile store command params H).
    reflexivity.
  - intros handler envelope H Henv.
    destruct (describeIntent command params) as [text|e] eqn:Hd;
      [|unfold r in Henv;
        rewrite (RegistryFacts.dispatch_start_throws
                   getCategory describeIntent Number_toString handlers
                   now_start now_finish meanwhile store command params
                   handler e H Hd) in Henv; discriminate].
    set (i := ActivityStore.nextId store).
    set (store1 := snd (fst started)).
    set (store2 := meanwhile store1).
    set (noted :=
           match handler params with
           | Normal _ => None
           | Throw err =>
               match Registry.error_message Number_toString err with
               | Normal message => Some message
               | Throw _ => None
               end
           end).
    set (done :=
           ActivityStore.finished
             now_finish
             (match handler params with Normal _ => true | Throw _ => false end)
             (match handler params with
              | Normal payload => payload
              | Throw _ => VUndefined
              end)
             noted).
    assert (Hr : snd r
                 = fst (ActivityStore.finish
                          now_finish store2 i
                          (match handler params with
                           | Normal _ => true | Throw _ => false end)
                          (match handler params with
                           | Normal payload => payload
                           | Throw _ => VUndefined
                           end)
                          noted)).
    { unfold r, Registry.dispatchCommand in Henv |- *. rewrite H in Henv |- *.
      unfold noted, store2, store1, started, i, ActivityStore.start
        in Henv |- *.
      rewrite Hd in Henv |- *.
      cbn [fst snd] in Henv |- *.
      destruct (handler params) as [payload|err]; [reflexivity|].
      destruct (Registry.error_message Number_toString err);
        [reflexivity | discriminate]. }
    assert (Hinv0 : ActivityStoreTerms.invariant store)
      by apply ActivityStoreFacts.run_invariant,
               ActivityStoreFacts.empty_invariant.
    assert (Hinv1 : ActivityStoreTerms.invariant store1)
      by apply ActivityStoreFacts.start_preserves, Hinv0.
    assert (Hinv2 : ActivityStoreTerms.invariant store2)
      by apply ActivityStoreFacts.run_invariant, Hinv1.
    destruct (ActivityStoreFacts.start_activities
                getCategory describeIntent now_start store command params
                text Hd)
      as [_ [_ [a0 [Hid0 [Hc0 [Hp0 [Hst0 [Ht0 [_ Hacts]]]]]]]]].
    fold started store1 in Hacts.
    assert (Hn1 : ActivityStore.nextId store1 = (i + 1)%N)
      by apply ActivityStoreFacts.start_nextId.
    assert (Htr1 : Forall (AuditTerms.tracked i command params now_start)
                          (ActivityStore.activities store1)).
    { rewrite Hacts. apply Forall_take. constructor.
      - intros _. auto.
      - destruct Hinv0 as [_ _ Hf]. unfold ActivityStoreTerms.ids in Hf.
        rewrite List.Forall_map in Hf.
        eapply Forall_impl; [exact Hf|]. intros a Ha Hi. fold i in Ha.
        simpl in Ha. lia. }
    assert (Htr2 : Forall (AuditTerms.tracked i command params now_start)
                          (ActivityStore.activities store2)).
    { apply AuditFacts.run_tracked; [|exact Htr1]. rewrite Hn1. lia. }
    assert (Hdone : forall a,
               AuditTerms.tracked i command params now_start a ->
               ActivityStore.id a = i -> recorded handler (done a)).
    { intros a Ha Hi. destruct (Ha Hi) as [Hc [Hp Ht]].
      unfold recorded, done, noted. cbn [ActivityStore.finished
        ActivityStore.command ActivityStore.params ActivityStore.startedAt
        ActivityStore.finishedAt ActivityStore.durationMs
        ActivityStore.status ActivityStore.payload ActivityStore.error].
      rewrite Ht. repeat (split; [assumption || reflexivity|]).
      destruct (handler params) as [payload|err].
      - split; reflexivity.
      - split; [reflexivity|]. intros message Hm Hne. rewrite Hm.
        apply JStrFacts.eqb_neq in Hne. rewrite Hne. reflexivity. }
    assert (Hall : ActivityStore.getAll (snd r)
                   = List.map (fun a => if (ActivityStore.id a =? i)%N
                                        then done a else a)
                              (ActivityStore.activities store2)).
    { rewrite Hr. unfold ActivityStore.finish, ActivityStore.getAll.
      destruct (List.find _ (ActivityStore.activities store2)) eqn:E.
      - cbn [fst ActivityStore.activities].
        apply ActivityFinishFacts.update_first_unique.
        exact (ActivityStoreTerms.inv_order store2 Hinv2).
      - cbn [fst]. symmetry. apply ActivityFinishFacts.map_unchanged.
        intros a Ha. apply (List.find_none _ _ E) in Ha. rewrite Ha.
        reflexivity. }
    split.
    + intros a Ha Hi. rewrite Hall in Ha.
      apply in_map_iff in Ha as [b [Hb Hin]].
      rewrite List.Forall_forall in Htr2. specialize (Htr2 b Hin).
      destruct (N.eqb_spec (ActivityStore.id b) i) as [E|E].
      * subst a. apply Hdone; assumption.
      * subst a. fold i in Hi. contradiction.
    + intros ->. exists (done a0).
      assert (Hs2 : store2 = store1) by reflexivity.
      rewrite Hall, Hs2, Hacts.
      assert (Htake : take ActivityStore.maxEntries
                           (a0 :: ActivityStore.activities store)
                      = a0 :: take 199 (ActivityStore.activities store))
        by reflexivity.
      rewrite Htake. cbn [List.map]. fold i in Hid0.
      rewrite Hid0, N.eqb_refl.
      split; [|split].
      * f_equal. apply ActivityFinishFacts.map_unchanged. intros a Ha.
        destruct Hinv0 as [_ _ Hf]. unfold ActivityStoreTerms.ids in Hf.
        rewrite List.Forall_map, List.Forall_forall in Hf.
        assert (Hin : In a (ActivityStore.activities store)).
        { rewrite <- (take_drop 199 (ActivityStore.activities store)).
          apply in_or_app. left. exact Ha. }
        specialize (Hf a Hin). fold i in Hf.
        destruct (N.eqb_spec (ActivityStore.id a) i); [lia | reflexivity].
      * exact Hid0.
      * apply Hdone; [|exact Hid0]. intros _. auto.
  - intros handler e H He.
    destruct (describeIntent command params) as [text|e'] eqn:Hd.
    + unfold r, Registry.dispatchCommand in He |- *.
      rewrite H in He |- *.
      unfold started, ActivityStore.start in He |- *.
      rewrite Hd in He |- *. cbn [fst snd] in He |- *.
      destruct (handler params) as [payload|err]; [discriminate|].
      destruct (Registry.error_message Number_toString err) as [m|e'']
        eqn:Hm; [discriminate|].
      cbn [fst snd] in He |- *. injection He as ->.
      right. exists text, err. auto.
    + unfold r in He |- *.
      rewrite (RegistryFacts.dispatch_start_throws
                 getCategory describeIntent Number_toString handlers
                 now_start now_finish meanwhile store command params
                 handler e' H Hd) in He |- *.
      cbn [fst snd] in He |- *. injection He as ->.
      left. split; reflexivity.
Qed.

Lemma dispatchCommand_audit_trail_witness :
  let describeIntent :=
    ActivityLabels.describeIntent Example.Number_toString in
  let handlers : gmap jsstring Registry.CommandHandler :=
    {[ lit "vscode.git.status" := fun _ => Normal (VStr (lit "clean")) ]} in
  exists a,
    ActivityStore.getAll
      (snd (Registry.dispatchCommand
              (fun _ => lit "Git") describeIntent
              Example.Number_toString handlers 10 25 (fun s => s)
              ActivityStore.empty (lit "vscode.git.status") (VObj [])))
    = [a]
    /\ ActivityStore.status a = ActivityStore.status_ok
    /\ ActivityStore.durationMs a = Some 15%Z.
Proof.
  intros describeIntent handlers.
  destruct (dispatchCommand_audit_trail
              (fun _ => lit "Git") describeIntent
              Example.Number_toString handlers [] [] 10 25
              (lit "vscode.git.status") (VObj []))
    as [_ [H _]].
  destruct (H (fun _ => Normal (VStr (lit "clean")))
              (Registry.Success (VStr (lit "clean"))))
    as [_ Hhead]; [apply lookup_singleton_eq | reflexivity |].
  destruct (Hhead eq_refl) as [a [Hall [_ [_ [_ [_ [_ [Hd [Hs _]]]]]]]]].
  exists a. split; [exact Hall|]. split; [exact Hs | exact Hd].
Defined.
(** ** The state of the gateway client *)

Module GatewayInvariantFacts.

Import JStrFacts Gateway GatewayTerms GatewayInvariants.

Lemma reported_app (a b : list Action) :
  reported (a ++ b) = reported a ++ reported b.
Proof. apply omap_app. Qed.

Lemma last_state_app (s : ConnectionState) (a b : list ConnectionState) :
  last_state s (a ++ b) = last_state (last_state s a) b.
Proof. apply fold_left_app. Qed.

Lemma inert_reported (a : list Action) :
  forallb inert a = true -> reported a = [].
Proof.
  induction a as [|x a IH]; [reflexivity|]. cbn [forallb].
  intros H. apply andb_true_iff in H as [Hx Ha].
  destruct x; try discriminate; cbn; apply IH, Ha.
Qed.

Lemma inert_after_stop (a : list Action) :
  forallb inert a = true -> forallb after_stop a = true.
Proof.
  induction a as [|x a IH]; [reflexivity|]. cbn [forallb].
  intros H. apply andb_true_iff in H as [Hx Ha].
  rewrite (IH Ha), andb_true_r. destruct x; try discriminate; reflexivity.
Qed.

Lemma last_state_connected (s : ConnectionState)
      (l : list ConnectionState) :
  forallb is_connected l = true ->
  last_state s l = s \/ last_state s l = connected.
Proof.
  revert s. induction l as [|x l IH]; intros s; [left; reflexivity|].
  cbn [forallb]. intros H. apply andb_true_iff in H as [Hx Hl].
  destruct x; try discriminate. right.
  destruct (IH connected Hl) as [H|H]; exact H.
Qed.

Lemma tame_refl c : tame c (c, []).
Proof. constructor; cbn; auto. Qed.

(** An operation that leaves the four fields alone and does nothing
    that shows is tame. *)
Lemma tame_same c c' a :
  closed c' = closed c -> state c' = state c -> ws c' = ws c ->
  pending c' = pending c -> forallb inert a = true ->
  tame c (c', a).
Proof.
  intros Hc Hs Hw Hp Ha. pose proof (inert_reported a Ha) as Hr.
  constructor; cbn [fst snd]; rewrite ?Hr.
  - exact Hc.
  - exact Hs.
  - intros H1 H2. rewrite Hw, Hp. auto.
  - intros H1. rewrite Hw. auto.
Qed.

Lemma tame_trans c r1 a2 c2 :
  tame c r1 -> tame (fst r1) (c2, a2) -> tame c (c2, snd r1 ++ a2).
Proof.
  intros [H1 H2 H3 H4] [H5 H6 H7 H8]. cbn [fst snd] in *.
  constructor; cbn [fst snd].
  - congruence.
  - rewrite reported_app, last_state_app, <- H2. exact H6.
  - intros Hw Hp. destruct (H3 Hw Hp) as [Hw1 [Hp1 Ha1]].
    destruct (H7 Hw1 Hp1) as [Hw2 [Hp2 Ha2]].
    rewrite forallb_app, Ha1, Ha2. auto.
  - intros Hw. destruct (H4 Hw) as [Hw1 Ha1].
    destruct (H8 Hw1) as [Hw2 Ha2].
    rewrite reported_app, forallb_app, Ha1, Ha2. auto.
Qed.

Section Client.

Variable randomUUID : nat -> jsstring.
Variable JSON_parse : jsstring -> completion Thrown jsval.
Variable JSON_stringify : jsval -> completion jsstring (option jsstring).
Variable Number_toString : Z -> jsstring.
Variable opts_token : option jsstring.
Variable onInvoke_throws : jsstring -> jsval -> option Thrown.

Let settle := settle JSON_stringify.
Let request := request randomUUID JSON_stringify.
Let sendConnect := sendConnect randomUUID JSON_stringify opts_token.
Let sendInvokeResult := sendInvokeResult randomUUID JSON_stringify.
Let handleInvoke_catch :=
  handleInvoke_catch randomUUID JSON_stringify Number_toString.
Let invoke :=
  invoke randomUUID JSON_parse JSON_stringify Number_toString
         onInvoke_throws.
Let handleInvoke_resume :=
  handleInvoke_resume randomUUID JSON_stringify Number_toString.
Let step :=
  step randomUUID JSON_parse JSON_stringify Number_toString opts_token
       onInvoke_throws.
Let run :=
  run randomUUID JSON_parse JSON_stringify Number_toString opts_token
      onInvoke_throws.

Lemma close_ws_tame code c : tame c (close_ws code c).
Proof.
  unfold close_ws. destruct (ws c) as [k|] eqn:Hw; [|apply tame_refl].
  apply tame_same; reflexivity.
Qed.

Lemma settle_throw_tame k e c : tame c (settle k (Throw e) c).
Proof.
  destruct k; cbn [settle Gateway.settle];
    [apply close_ws_tame | apply tame_refl].
Qed.

(** On a client that holds a socket or has a request pending, an
    operation that keeps the socket and reports nothing is tame. *)
Lemma tame_held c c' a :
  (ws c = None -> pending c = ∅ -> False) ->
  closed c' = closed c -> state c' = state c -> ws c' = ws c ->
  reported a = [] ->
  tame c (c', a).
Proof.
  intros Hw Hc Hs Hw' Hr.
  constructor; cbn [fst snd]; rewrite ?Hr.
  - exact Hc.
  - exact Hs.
  - intros H1 H2. destruct (Hw H1 H2).
  - intros H. rewrite Hw'. auto.
Qed.

Lemma request_tame method params k c :
  tame c (request method params k c).
Proof.
  unfold request, Gateway.request.
  destruct (ws c) as [socket|] eqn:Hw; [|apply settle_throw_tame].
  destruct (readyState c) as [[]|]; try apply settle_throw_tame.
  assert (Hheld : ws c = None -> pending c = ∅ -> False) by congruence.
  destruct (serialize _ _) as [j|message].
  - apply tame_held; auto.
  - destruct k; cbn [Gateway.settle]; [|apply tame_held; auto].
    unfold close_ws. cbn [ws set_uuids set_pending]. rewrite Hw.
    apply tame_held; auto.
Qed.

Lemma clearConnectTimer_tame c : tame c (clearConnectTimer c).
Proof.
  unfold clearConnectTimer.
  destruct (connectTimer c); apply tame_same; reflexivity.
Qed.

Lemma sendConnect_tame c : tame c (sendConnect c).
Proof.
  unfold sendConnect, Gateway.sendConnect.
  destruct (connectSent c); [apply tame_refl|].
  pose proof (clearConnectTimer_tame (set_connectSent true c)) as H1.
  destruct (clearConnectTimer (set_connectSent true c)) as [c2 a2].
  match goal with
  | |- context [Gateway.request ?u ?j ?m ?p ?k c2] =>
      pose proof (request_tame m p k c2) as H2;
      unfold request in H2;
      destruct (Gateway.request u j m p k c2) as [c3 a3]
  end.
  pose proof (tame_trans (set_connectSent true c) (c2, a2) a3 c3 H1 H2)
    as H.
  destruct H as [Ha Hb Hc Hd]. constructor; assumption.
Qed.

Lemma invoke_tame frame c : tame c (invoke frame c).
Proof.
  unfold invoke, Gateway.invoke, handleInvoke_call.
  destruct (onInvoke_throws _ _) as [err|];
    [|apply tame_same; reflexivity].
  destruct (Gateway.handleInvoke_catch _ _ _ frame err c) as [r'|e] eqn:E;
    [|apply tame_same; reflexivity].
  apply GatewayFacts.handleInvoke_catch_request in E as [message [_ ->]].
  cbn [fst snd].
  pose proof (tame_trans c (c, [OnInvoke frame (command frame)
                                   (invoke_params JSON_parse frame)])) as H.
  match goal with
  | |- tame c (fst ?r, _ :: snd ?r) =>
      specialize (H (snd r) (fst r))
  end.
  apply H; [apply tame_same; reflexivity|].
  rewrite <- surjective_pairing. apply request_tame.
Qed.

Lemma handleInvoke_resume_tame frame awaited c r :
  handleInvoke_resume frame awaited c = Normal r -> tame c r.
Proof.
  intros H.
  assert (Hp : exists p, r = GatewayTerms.send_result
                               randomUUID JSON_stringify p c).
  { unfold handleInvoke_resume, Gateway.handleInvoke_resume in H.
    destruct awaited as [result|err].
    - destruct (Gateway.sendInvokeResult _ _ frame result c)
        as [r'|e] eqn:E; cbn [try_catch] in H.
      + injection H as <-.
        apply GatewayFacts.sendInvokeResult_request in E as [p [-> _]].
        eauto.
      + apply GatewayFacts.handleInvoke_catch_request in H
          as [message [_ ->]].
        eauto.
    - apply GatewayFacts.handleInvoke_catch_request in H
        as [message [_ ->]].
      eauto. }
  destruct Hp as [p ->]. apply request_tame.
Qed.

(** The settlement of a request that is pending. *)
Lemma settle_pending_tame s k outcome c :
  pending c !! s = Some k ->
  tame c (settle k outcome (set_pending (delete s (pending c)) c)).
Proof.
  intros Hk.
  assert (Hbusy : pending c <> ∅).
  { intros Hp. rewrite Hp, lookup_empty in Hk. discriminate. }
  assert (Hheld : ws c = None -> pending c = ∅ -> False) by auto.
  destruct k; [|destruct outcome; apply tame_held; auto].
  assert (Hclose : forall code,
             tame c (close_ws code
                              (set_pending (delete s (pending c)) c))).
  { intros code. unfold close_ws. cbn [ws set_pending].
    clear Hheld. destruct (ws c) as [w|] eqn:Hw; apply tame_held; auto. }
  destruct outcome as [v|e]; cbn [settle Gateway.settle];
    [|apply Hclose].
  destruct (JSON_stringify v); [|apply Hclose].
  constructor; cbn [fst snd setState]; try reflexivity.
  - intros H1 H2. destruct (Hheld H1 H2).
  - intros H. auto.
Qed.

Lemma on_message_tame raw c : tame c (step c (WsMessage 0 raw)).
Proof.
  destruct (GatewayFacts.handleMessage_cases
              randomUUID JSON_parse JSON_stringify Number_toString
              opts_token onInvoke_throws raw c)
    as [H|[[s [_ H]]|[[parsed [payload [frame [_ [_ [_ [_ H]]]]]]]
                     |[[s [k [outcome [Hk [_ H]]]]]|[s [k [Hk [_ H]]]]]]]];
    unfold step; cbn [Gateway.step]; rewrite H.
  - apply tame_refl.
  - pose proof (sendConnect_tame (set_connectNonce (Some s) c)) as H'.
    destruct H' as [Ha Hb Hc Hd]. constructor; assumption.
  - apply invoke_tame.
  - apply settle_pending_tame, Hk.
  - apply tame_held; auto.
    intros _ Hp. rewrite Hp, lookup_empty in Hk. discriminate.
Qed.

(** Every callback that runs inside an attempt is tame. *)
Lemma step_tame c e :
  in_attempt e = true -> tame c (step c e).
Proof.
  destruct e; try discriminate; intros _.
  - exact (on_message_tame raw c).
  - apply tame_refl.
  - apply sendConnect_tame.
  - unfold step. cbn [Gateway.step].
    destruct (Gateway.handleInvoke_resume _ _ _ frame awaited c)
      as [r|err] eqn:E.
    + exact (handleInvoke_resume_tame _ _ _ _ E).
    + apply tame_refl.
Qed.

(** *** Every callback *)

Lemma connect_state c :
  state (fst (connect c))
  = last_state (state c) (reported (snd (connect c)))
  /\ (closed c = true -> connect c = (c, []))
  /\ (closed c = false ->
      ws (fst (connect c)) = Some (length (sockets c))
      /\ state (fst (connect c)) = connecting
      /\ pending (fst (connect c)) = pending c).
Proof.
  unfold connect. destruct (closed c); cbn; repeat split; discriminate.
Qed.

(** The state changes only by being reported. *)
Lemma step_state c e :
  state (fst (step c e)) = last_state (state c) (reported (snd (step c e))).
Proof.
  destruct (in_attempt e) eqn:He;
    [exact (tame_state _ _ (step_tame c e He))|].
  destruct e; try discriminate; unfold step; cbn [Gateway.step].
  - apply (proj1 (connect_state (set_closed false c))).
  - unfold stop.
    destruct (clearConnectTimer (set_closed true c)) as [c2 a2].
    destruct (close_ws None c2) as [c3 a3] eqn:E3.
    assert (Ha3 : reported a3 = []).
    { unfold close_ws in E3. destruct (ws c2); injection E3 as _ <-;
        reflexivity. }
    cbn [setState fst snd state].
    rewrite !reported_app, !last_state_app, Ha3. reflexivity.
  - unfold queueConnect.
    cbn [connectTimer set_connectSent set_connectNonce set_sockets
         set_connectTimer fst snd state].
    destruct (connectTimer c); reflexivity.
  - cbn [setState]. unfold scheduleReconnect.
    cbn [closed flushPending set_pending set_ws set_sockets].
    destruct (closed c); reflexivity.
  - apply (proj1 (connect_state c)).
Qed.

Lemma tame_coherent c r : tame c r -> coherent c -> coherent (fst r).
Proof.
  intros [_ Hs Hd Hl] [Hcs Hcp].
  destruct (ws c) as [w|] eqn:Hw.
  - destruct Hl as [Hw' Hrep]; [discriminate|].
    assert (Hst : state (fst r) <> disconnected).
    { rewrite Hs. destruct (last_state_connected (state c) _ Hrep) as [->| ->].
      - intros H. apply Hcs in H. discriminate.
      - discriminate. }
    constructor; [split|]; intros H; contradiction.
  - destruct (Hd eq_refl (Hcp eq_refl)) as [Hw' [Hp' Hin]].
    constructor; [split|]; intros H; [|exact Hw'|exact Hp'].
    rewrite Hs, (inert_reported _ Hin). apply Hcs. reflexivity.
Qed.

Lemma step_coherent c e : coherent c -> coherent (fst (step c e)).
Proof.
  intros Hc. destruct (in_attempt e) eqn:He;
    [exact (tame_coherent c _ (step_tame c e He) Hc)|].
  destruct Hc as [Hcs Hcp].
  destruct e; try discriminate; unfold step; cbn [Gateway.step].
  - change (start c) with (connect (set_closed false c)).
    destruct (connect_state (set_closed false c)) as [_ [_ H]].
    destruct (H eq_refl) as [Hw [Hs Hp]].
    constructor; [split|]; intros E; congruence.
  - unfold stop.
    destruct (clearConnectTimer (set_closed true c)) as [c2 a2].
    destruct (close_ws None c2) as [c3 a3].
    cbn [setState fst]. constructor; [split|]; reflexivity.
  - unfold queueConnect. cbn [fst].
    constructor; cbn; [exact Hcs | exact Hcp].
  - cbn [setState]. unfold scheduleReconnect.
    cbn [closed flushPending set_pending set_ws set_sockets].
    destruct (closed c); cbn [fst]; constructor; [split| |split|];
      reflexivity.
  - destruct (connect_state c) as [_ [Hclosed Hopen]].
    destruct (closed c).
    + rewrite (Hclosed eq_refl). constructor; assumption.
    + destruct (Hopen eq_refl) as [Hw [Hs Hp]].
      constructor; [split|]; intros E; congruence.
Qed.

Lemma run_coherent events : forall c,
  coherent c -> coherent (fst (run c events)).
Proof.
  induction events as [|e rest IH]; intros c H; [exact H|].
  unfold run in *. rewrite GatewayFacts.run_cons. cbn [fst].
  apply IH, step_coherent, H.
Qed.

Lemma run_state events : forall c,
  state (fst (run c events))
  = last_state (state c) (reported (snd (run c events))).
Proof.
  induction events as [|e rest IH]; intros c; [reflexivity|].
  unfold run in *. rewrite GatewayFacts.run_cons. cbn [fst snd].
  rewrite reported_app, last_state_app, IH.
  f_equal. apply step_state.
Qed.

(** *** After [stop] *)

Lemma tame_stopped c r :
  tame c r -> stopped c ->
  stopped (fst r) /\ forallb after_stop (snd r) = true.
Proof.
  intros [Hc Hs Hd _] [H1 H2 H3 H4].
  destruct (Hd H2 H3) as [Hw [Hp Hin]].
  split; [|apply inert_after_stop, Hin].
  constructor; try assumption; [congruence|].
  rewrite Hs, (inert_reported _ Hin). exact H4.
Qed.

Lemma stop_stopped c :
  stopped (fst (stop c)) /\ forallb after_stop (snd (stop c)) = true.
Proof.
  unfold stop.
  pose proof (clearConnectTimer_tame (set_closed true c)) as H.
  destruct (clearConnectTimer (set_closed true c)) as [c2 a2] eqn:E.
  assert (Ha2 : forallb after_stop a2 = true).
  { unfold clearConnectTimer in E.
    destruct (connectTimer (set_closed true c)); injection E as _ <-;
      reflexivity. }
  assert (Hc2 : closed c2 = true) by exact (tame_closed _ _ H).
  pose proof (close_ws_tame None c2) as H3.
  destruct (close_ws None c2) as [c3 a3] eqn:E3.
  assert (Ha3 : forallb after_stop a3 = true).
  { unfold close_ws in E3.
    destruct (ws c2); injection E3 as _ <-; reflexivity. }
  assert (Hc3 : closed c3 = true)
    by (rewrite <- Hc2; exact (tame_closed _ _ H3)).
  cbn [setState fst snd]. split.
  - constructor; cbn; auto.
  - rewrite !forallb_app, Ha2, Ha3. reflexivity.
Qed.

Lemma step_stopped c e :
  is_start e = false -> stopped c ->
  stopped (fst (step c e)) /\ forallb after_stop (snd (step c e)) = true.
Proof.
  intros Hns Hc. destruct (in_attempt e) eqn:He;
    [exact (tame_stopped c _ (step_tame c e He) Hc)|].
  destruct e; try discriminate; unfold step; cbn [Gateway.step].
  - apply stop_stopped.
  - destruct Hc as [H1 H2 H3 H4].
    unfold queueConnect. cbn [fst snd]. split.
    + constructor; cbn; assumption.
    + cbn [connectTimer set_connectSent set_connectNonce set_sockets].
      destruct (connectTimer c); reflexivity.
  - destruct Hc as [H1 H2 H3 H4]. cbn [setState].
    unfold scheduleReconnect.
    cbn [closed flushPending set_pending set_ws set_sockets].
    rewrite H1. cbn [fst snd]. split; [|reflexivity].
    constructor; cbn; auto.
  - destruct (connect_state c) as [_ [Hclosed _]].
    rewrite (Hclosed (stopped_closed c Hc)). split; [exact Hc | reflexivity].
Qed.

Lemma run_stopped events : forall c,
  forallb (fun e => negb (is_start e)) events = true -> stopped c ->
  stopped (fst (run c events)) /\ forallb after_stop (snd (run c events)) = true.
Proof.
  induction events as [|e rest IH]; intros c Hev Hc; [split; [exact Hc|reflexivity]|].
  cbn [forallb] in Hev. apply andb_true_iff in Hev as [He Hrest].
  apply negb_true_iff in He.
  unfold run in *. rewrite GatewayFacts.run_cons. cbn [fst snd].
  destruct (step_stopped c e He Hc) as [Hc1 Ha1].
  destruct (IH _ Hrest Hc1) as [Hc2 Ha2].
  split; [exact Hc2|]. rewrite forallb_app. fold step. rewrite Ha1.
  exact Ha2.
Qed.

End Client.

Lemma after_stop_projections (a : list Action) :
  forallb after_stop a = true ->
  sent_frames a = [] /\ ~ In NewWebSocket a /\ reconnect_delays a = []
  /\ Forall (fun s => s = disconnected) (reported a).
Proof.
  induction a as [|x a IH]; [repeat split; [intros []|constructor]|].
  cbn [forallb]. intros H. apply andb_true_iff in H as [Hx Ha].
  destruct (IH Ha) as [H1 [H2 [H3 H4]]].
  destruct x; try discriminate; cbn;
    try (repeat split; [assumption | intros [E|E]; [discriminate|auto]
                       | assumption | assumption]).
  destruct s; try discriminate.
  repeat split; [assumption | intros [E|E]; [discriminate|auto]
                | assumption | constructor; [reflexivity|assumption]].
Qed.

Lemma init_coherent : coherent init.
Proof. constructor; [split|]; reflexivity. Qed.

End GatewayInvariantFacts.

(** X10: [stop()] is final until [start()] is called again.  From any
    state, after [stop()] the client holds no socket and no pending
    request and is [disconnected]; whatever callbacks still run (a late
    [open], [message] or [close] of the old socket, the timers, a
    handler that settles), it sends no frame, creates no socket,
    schedules no reconnection and reports no state but
    [disconnected]. *)
Theorem stop_is_final
        (randomUUID : nat -> jsstring)
        (JSON_parse : jsstring -> completion Thrown jsval)
        (JSON_stringify : jsval -> completion jsstring (option jsstring))
        (Number_toString : Z -> jsstring)
        (opts_token : option jsstring)
        (onInvoke_throws : jsstring -> jsval -> option Thrown)
        (c : Gateway.Client) (events : list Gateway.Event) :
  forallb (fun e => negb (GatewayInvariants.is_start e)) events = true ->
  let r := Gateway.run randomUUID JSON_parse JSON_stringify Number_toString
                       opts_token onInvoke_throws
                       c (Gateway.Stop :: events) in
  Gateway.ws (fst r) = None
  /\ Gateway.pending (fst r) = ∅
  /\ Gateway.state (fst r) = Gateway.disconnected
  /\ Gateway.closed (fst r) = true
  /\ Gateway.sent_frames (snd r) = []
  /\ ~ In Gateway.NewWebSocket (snd r)
  /\ Gateway.reconnect_delays (snd r) = []
  /\ Forall (fun s => s = Gateway.disconnected)
            (GatewayInvariants.reported (snd r)).
Proof.
  intros Hev r.
  assert (H : GatewayInvariants.stopped (fst r)
              /\ forallb GatewayInvariants.after_stop (snd r) = true).
  { unfold r. rewrite GatewayFacts.run_cons. cbn [fst snd].
    destruct (GatewayInvariantFacts.stop_stopped c) as [Hc1 Ha1].
    destruct (GatewayInvariantFacts.run_stopped
                randomUUID JSON_parse JSON_stringify Number_toString opts_token
                onInvoke_throws events (fst (Gateway.stop c)) Hev Hc1)
      as [Hc2 Ha2].
    split; [exact Hc2|]. rewrite forallb_app.
    cbn [Gateway.step]. rewrite Ha1. exact Ha2. }
  destruct H as [[H1 H2 H3 H4] Ha].
  destruct (GatewayInvariantFacts.after_stop_projections _ Ha)
    as [H5 [H6 [H7 H8]]].
  repeat split; assumption.
Qed.

Lemma stop_is_final_witness :
  let r := Example.run Example.connecting
                       [Gateway.Stop; Gateway.WsOpen 0;
                        Gateway.ConnectTimerFired;
                        Gateway.WsCloseEvent 0 1005;
                        Gateway.ReconnectTimerFired] in
  Gateway.sent_frames (snd r) = []
  /\ Gateway.reconnect_delays (snd r) = []
  /\ Gateway.state (fst r) = Gateway.disconnected.
Proof.
  intros r.
  destruct (stop_is_final
              Example.randomUUID Example.JSON_parse Example.JSON_stringify
              Example.Number_toString Example.opts_token Example.onInvoke_throws
              Example.connecting
              [Gateway.WsOpen 0; Gateway.ConnectTimerFired;
               Gateway.WsCloseEvent 0 1005; Gateway.ReconnectTimerFired]
              eq_refl)
    as [_ [_ [Hs [_ [Hf [_ [Hd _]]]]]]].
  repeat split; assumption.
Defined.

(** X11: the state and the socket agree.  After every sequence of
    callbacks on a new client, the state is [disconnected] exactly when
    the client holds no socket, and no request is pending without a
    socket: every pending request has been rejected when the socket
    went away. *)
Theorem state_tracks_socket
        (randomUUID : nat -> jsstring)
        (JSON_parse : jsstring -> completion Thrown jsval)
        (JSON_stringify : jsval -> completion jsstring (option jsstring))
        (Number_toString : Z -> jsstring)
        (opts_token : option jsstring)
        (onInvoke_throws : jsstring -> jsval -> option Thrown)
        (events : list Gateway.Event) :
  let c := fst (Gateway.run randomUUID JSON_parse JSON_stringify Number_toString
                            opts_token onInvoke_throws
                            Gateway.init events) in
  (Gateway.ws c = None <-> Gateway.state c = Gateway.disconnected)
  /\ (Gateway.ws c = None -> Gateway.pending c = ∅).
Proof.
  intros c.
  destruct (GatewayInvariantFacts.run_coherent
              randomUUID JSON_parse JSON_stringify Number_toString opts_token
              onInvoke_throws events Gateway.init
              GatewayInvariantFacts.init_coherent) as [H1 H2].
  split; assumption.
Qed.

(** X12: the state that the client reports is its state.  After every
    sequence of callbacks on a new client, the state of the client is
    the last state passed to [opts.onStateChange], or [disconnected]
    when none has been passed yet. *)
Theorem reported_state_is_current
        (randomUUID : nat -> jsstring)
        (JSON_parse : jsstring -> completion Thrown jsval)
        (JSON_stringify : jsval -> completion jsstring (option jsstring))
        (Number_toString : Z -> jsstring)
        (opts_token : option jsstring)
        (onInvoke_throws : jsstring -> jsval -> option Thrown)
        (events : list Gateway.Event) :
  let r := Gateway.run randomUUID JSON_parse JSON_stringify Number_toString
                       opts_token onInvoke_throws Gateway.init events in
  Gateway.state (fst r)
  = GatewayInvariants.last_state Gateway.disconnected
                                 (GatewayInvariants.reported (snd r)).
Proof.
  intros r.
  exact (GatewayInvariantFacts.run_state
           randomUUID JSON_parse JSON_stringify Number_toString opts_token
           onInvoke_throws events Gateway.init).
Qed.

(** ** Frames: the parameters of an invocation, the response to a
    request *)

Module GatewayFrameFacts.

Import JStrFacts Gateway GatewayTerms.

Section Client.

Variable randomUUID : nat -> jsstring.
Variable JSON_parse : jsstring -> completion Thrown jsval.
Variable JSON_stringify : jsval -> completion jsstring (option jsstring).
Variable Number_toString : Z -> jsstring.
Variable opts_token : option jsstring.
Variable onInvoke_throws : jsstring -> jsval -> option Thrown.

Let settle := settle JSON_stringify.
Let stringify := stringify JSON_stringify.
Let coerceInvokePayload := coerceInvokePayload JSON_stringify.
Let invoke :=
  invoke randomUUID JSON_parse JSON_stringify Number_toString
         onInvoke_throws.
Let step :=
  step randomUUID JSON_parse JSON_stringify Number_toString opts_token
       onInvoke_throws.

(** The text of the parameters of an accepted payload. *)
Lemma coerce_paramsJSON pfields i n cm :
  lookup_field pfields (lit "id") = VStr i ->
  lookup_field pfields (lit "nodeId") = VStr n ->
  lookup_field pfields (lit "command") = VStr cm ->
  trim i <> [] -> trim n <> [] -> trim cm <> [] ->
  coerceInvokePayload (VObj pfields)
  = match
      match lookup_field pfields (lit "paramsJSON") with
      | VStr s => Normal (Some s)
      | _ =>
          match lookup_field pfields (lit "params") with
          | VUndefined => Normal None
          | p => stringify p
          end
      end
    with
    | Normal text =>
        Normal (Some {| id := trim i; nodeId := trim n; command := trim cm;
                        paramsJSON := text;
                        timeoutMs :=
                          match lookup_field pfields (lit "timeoutMs") with
                          | VNum t => Some t
                          | _ => None
                          end |})
    | Throw e => Throw e
    end.
Proof.
  intros Hi Hn Hc Hti Htn Htc.
  unfold coerceInvokePayload, Gateway.coerceInvokePayload.
  cbn [get_prop_opt get_prop]. rewrite Hi, Hn, Hc. cbn [trimmed_string].
  apply eqb_neq in Hti, Htn, Htc. rewrite Hti, Htn, Htc. cbn [orb].
  fold stringify.
  destruct (lookup_field pfields (lit "paramsJSON")); cbn [cbind];
    try reflexivity;
    destruct (lookup_field pfields (lit "params")); cbn [cbind];
    try reflexivity;
    destruct (stringify _); reflexivity.
Qed.

(** The value handed to the handler for a text of parameters. *)
Lemma invoke_params_text frame :
  invoke_params JSON_parse frame
  = match paramsJSON frame with
    | Some j =>
        if eqb j [] then VObj []
        else match JSON_parse j with
             | Normal v => v
             | Throw _ => VObj []
             end
    | None => VObj []
    end.
Proof. reflexivity. Qed.

(** [handleInvoke] calls the handler once. *)
Lemma invoke_invocations frame c :
  invocations (snd (invoke frame c))
  = [(frame, command frame, invoke_params JSON_parse frame)].
Proof.
  unfold invoke.
  rewrite (GatewayFacts.invoke_result
             randomUUID JSON_parse JSON_stringify Number_toString
             onInvoke_throws).
  cbv zeta.
  destruct (onInvoke_throws _ _) as [err|]; [|reflexivity].
  destruct (Gateway.error_message Number_toString err) as [message|e];
    [|reflexivity].
  cbn [snd].
  match goal with
  | |- invocations (?a :: ?l) = _ =>
      change (a :: l) with ([a] ++ l)
  end.
  rewrite GatewayFacts.invocations_app.
  destruct (GatewayFacts.send_result_frames
              randomUUID JSON_stringify
              (internal_error_params frame message) c)
    as [_ [_ [_ Hinv]]].
  rewrite Hinv. reflexivity.
Qed.

(** A frame that is not an event and answers a pending request. *)
Lemma handleMessage_response socket raw fields c s k :
  JSON_parse raw = Normal (VObj fields) ->
  is_string (lookup_field fields (lit "type")) (lit "event")
  || truthy (lookup_field fields (lit "event")) = false ->
  lookup_field fields (lit "id") = VStr s ->
  is_string (lookup_field fields (lit "type")) (lit "res")
  || truthy (VStr s) = true ->
  pending c !! s = Some k ->
  step c (WsMessage socket raw)
  = if is_string (get_prop_opt (lookup_field fields (lit "payload"))
                               (lit "status")) (lit "accepted")
    then (c, [])
    else
      let c1 := set_pending (delete s (pending c)) c in
      if truthy (lookup_field fields (lit "ok"))
      then settle k (Normal (lookup_field fields (lit "payload"))) c1
      else
        match rejection Number_toString
                        (lookup_field fields (lit "error")) with
        | Normal message => settle k (Throw message) c1
        | Throw _ => (c1, [])
        end.
Proof.
  intros Hp Hev Hid Hres Hk.
  unfold step, rejection. cbn [Gateway.step].
  unfold Gateway.handleMessage.
  rewrite Hp. cbn [leaving cbind get_prop]. rewrite Hev, Hid, Hres, Hk.
  cbn [option_map leaving cbind].
  destruct (is_string _ (lit "accepted")); [reflexivity|].
  cbv zeta. destruct (truthy (lookup_field fields (lit "ok")));
    [reflexivity|].
  destruct (get_prop_opt (lookup_field fields (lit "error")) (lit "message"));
    cbn [leaving cbind]; try reflexivity;
    match goal with
    | |- context [ToString ?f ?v] => destruct (ToString f v)
    end; reflexivity.
Qed.

(** A response to a request that is not pending is ignored. *)
Lemma handleMessage_unanswered socket raw fields c s :
  JSON_parse raw = Normal (VObj fields) ->
  is_string (lookup_field fields (lit "type")) (lit "event")
  || truthy (lookup_field fields (lit "event")) = false ->
  lookup_field fields (lit "id") = VStr s ->
  pending c !! s = None ->
  step c (WsMessage socket raw) = (c, []).
Proof.
  intros Hp Hev Hid Hk.
  unfold step. cbn [Gateway.step]. unfold Gateway.handleMessage.
  rewrite Hp. cbn [leaving cbind get_prop]. rewrite Hev, Hid, Hk.
  cbn [option_map].
  destruct (is_string _ (lit "res") || truthy (VStr s)); reflexivity.
Qed.

End Client.

End GatewayFrameFacts.

(** X13: what the handler receives.  For an invocation whose id, node
    and command are strings that are not blank, the handler is called
    once with the trimmed command and with the parameters parsed from
    the text of the frame: the text is [paramsJSON] when that is a
    string, whatever [params] holds, and otherwise the serialization
    of [params]; an empty text, a text that does not parse and absent
    parameters give [{}].  The field [timeoutMs] does not reach the
    handler.  If the serialization of [params] throws, the frame is
    dropped. *)
Theorem invocation_parameters
        (randomUUID : nat -> jsstring)
        (JSON_parse : jsstring -> completion Thrown jsval)
        (JSON_stringify : jsval -> completion jsstring (option jsstring))
        (Number_toString : Z -> jsstring)
        (opts_token : option jsstring)
        (onInvoke_throws : jsstring -> jsval -> option Thrown)
        (c : Gateway.Client) (socket : nat) (raw : jsstring)
        (fields pfields : list (jsstring * jsval)) (i n cm : jsstring) :
  JSON_parse raw = Normal (VObj fields) ->
  lookup_field fields (lit "event") = VStr (lit "node.invoke.request") ->
  lookup_field fields (lit "payload") = VObj pfields ->
  lookup_field pfields (lit "id") = VStr i ->
  lookup_field pfields (lit "nodeId") = VStr n ->
  lookup_field pfields (lit "command") = VStr cm ->
  trim i <> [] -> trim n <> [] -> trim cm <> [] ->
  let r := Gateway.step randomUUID JSON_parse JSON_stringify Number_toString
                        opts_token onInvoke_throws
                        c (Gateway.WsMessage socket raw) in
  let handed (text : jsstring) :=
    if eqb text [] then VObj []
    else match JSON_parse text with
         | Normal v => v
         | Throw _ => VObj []
         end in
  let calls := List.map (fun x => (snd (fst x), snd x))
                        (Gateway.invocations (snd r)) in
  match lookup_field pfields (lit "paramsJSON") with
  | VStr text => calls = [(trim cm, handed text)]
  | _ =>
      match lookup_field pfields (lit "params") with
      | VUndefined => calls = [(trim cm, VObj [])]
      | p =>
          match JSON_stringify p with
          | Normal (Some text) => calls = [(trim cm, handed text)]
          | Normal None => calls = [(trim cm, VObj [])]
          | Throw _ => r = (c, [])
          end
      end
  end.
Proof.
  intros Hp He Hpl Hi Hn Hc Hti Htn Htc r handed calls.
  assert (Hr : r = match Gateway.coerceInvokePayload
                           JSON_stringify (VObj pfields) with
                   | Normal (Some frame) =>
                       Gateway.invoke randomUUID JSON_parse JSON_stringify
                                      Number_toString onInvoke_throws
                                      frame c
                   | _ => (c, [])
                   end).
  { unfold r. rewrite <- Hpl.
    exact (GatewayFacts.handleMessage_invoke
             randomUUID JSON_parse JSON_stringify Number_toString
             opts_token onInvoke_throws raw fields c Hp He). }
  assert (Hstep : forall text,
             Gateway.coerceInvokePayload JSON_stringify (VObj pfields)
             = Normal (Some {| Gateway.id := trim i;
                               Gateway.nodeId := trim n;
                               Gateway.command := trim cm;
                               Gateway.paramsJSON := text;
                               Gateway.timeoutMs :=
                                 match lookup_field pfields (lit "timeoutMs")
                                 with
                                 | VNum t => Some t
                                 | _ => None
                                 end |}) ->
             calls = [(trim cm,
                       match text with
                       | Some j => handed j
                       | None => VObj []
                       end)]).
  { intros text Hco. unfold calls. rewrite Hr, Hco.
    rewrite (GatewayFrameFacts.invoke_invocations
               randomUUID JSON_parse JSON_stringify Number_toString
               onInvoke_throws).
    cbn [List.map fst snd].
    rewrite GatewayFrameFacts.invoke_params_text.
    cbn [Gateway.paramsJSON Gateway.command]. reflexivity. }
  pose proof (GatewayFrameFacts.coerce_paramsJSON
                JSON_stringify pfields i n cm Hi Hn Hc Hti Htn Htc) as Hco.
  unfold Gateway.stringify in Hco.
  destruct (lookup_field pfields (lit "paramsJSON"));
    try (destruct (lookup_field pfields (lit "params"));
         try exact (Hstep _ Hco);
         destruct (JSON_stringify _) as [[text|]|e];
         try exact (Hstep _ Hco);
         rewrite Hr, Hco; reflexivity).
Qed.

Lemma invocation_parameters_witness :
  List.map (fun x => (snd (fst x), snd x))
           (Gateway.invocations
              (snd (Example.step Example.connecting
                                 (Gateway.WsMessage 0 (lit "invoke")))))
  = [(lit "vscode.git.status", VObj [])].
Proof.
  exact (invocation_parameters
           Example.randomUUID Example.JSON_parse Example.JSON_stringify
           Example.Number_toString Example.opts_token
           Example.onInvoke_throws
           Example.connecting 0 (lit "invoke") _ _
           (lit "inv-1") (lit "node-1") (lit "vscode.git.status")
           eq_refl eq_refl eq_refl eq_refl eq_refl eq_refl
           ltac:(vm_compute; discriminate) ltac:(vm_compute; discriminate)
           ltac:(vm_compute; discriminate)).
Defined.

(** X14: the response to the handshake.  A frame that is not an event
    and carries the id of the pending [connect] request is an
    acknowledgement when its payload has the status [accepted]: the
    client then changes nothing and goes on waiting.  Otherwise the
    request is no longer pending, and the same frame received again is
    ignored.  With a truthy [ok] whose payload serializes for the log,
    the client reports [connected] and resets the delay of
    reconnection to 1000 ms.  With a truthy [ok] whose payload does
    not serialize, and without [ok], the client calls [close] with the
    code 1008 on the socket it holds, if any, and leaves its state and
    the delay alone; but when, without [ok], the message of the error
    has no conversion to a string, it does nothing more than forget
    the request. *)
Theorem handshake_response
        (randomUUID : nat -> jsstring)
        (JSON_parse : jsstring -> completion Thrown jsval)
        (JSON_stringify : jsval -> completion jsstring (option jsstring))
        (Number_toString : Z -> jsstring)
        (opts_token : option jsstring)
        (onInvoke_throws : jsstring -> jsval -> option Thrown)
        (c : Gateway.Client) (socket : nat) (raw : jsstring)
        (fields : list (jsstring * jsval)) (s : jsstring) :
  JSON_parse raw = Normal (VObj fields) ->
  is_string (lookup_field fields (lit "type")) (lit "event")
  || truthy (lookup_field fields (lit "event")) = false ->
  lookup_field fields (lit "id") = VStr s ->
  is_string (lookup_field fields (lit "type")) (lit "res")
  || truthy (VStr s) = true ->
  Gateway.pending c !! s = Some Gateway.OnConnect ->
  let step := Gateway.step randomUUID JSON_parse JSON_stringify
                           Number_toString opts_token onInvoke_throws in
  let r := step c (Gateway.WsMessage socket raw) in
  let closes :=
    Gateway.state (fst r) = Gateway.state c
    /\ Gateway.backoffMs (fst r) = Gateway.backoffMs c
    /\ Gateway.ws (fst r) = Gateway.ws c
    /\ match Gateway.ws c with
       | Some k =>
           Gateway.sockets (fst r)
           = alter Gateway.closing k (Gateway.sockets c)
           /\ snd r = [Gateway.WsClose k (Some 1008%Z)]
       | None =>
           Gateway.sockets (fst r) = Gateway.sockets c /\ snd r = []
       end in
  if is_string (get_prop_opt (lookup_field fields (lit "payload"))
                             (lit "status")) (lit "accepted")
  then r = (c, [])
  else
    Gateway.pending (fst r) = delete s (Gateway.pending c)
    /\ step (fst r) (Gateway.WsMessage socket raw) = (fst r, [])
    /\ if truthy (lookup_field fields (lit "ok"))
       then
         match JSON_stringify (lookup_field fields (lit "payload")) with
         | Normal _ =>
             Gateway.state (fst r) = Gateway.connected
             /\ Gateway.backoffMs (fst r) = 1000%Z
             /\ Gateway.ws (fst r) = Gateway.ws c
             /\ Gateway.sockets (fst r) = Gateway.sockets c
             /\ snd r = [Gateway.OnStateChange Gateway.connected]
         | Throw _ => closes
         end
       else
         match GatewayTerms.rejection Number_toString
                                      (lookup_field fields (lit "error")) with
         | Normal _ => closes
         | Throw _ =>
             fst r = Gateway.set_pending (delete s (Gateway.pending c)) c
             /\ snd r = []
         end.
Proof.
  intros Hp Hev Hid Hres Hk step r closes.
  pose proof (GatewayFrameFacts.handleMessage_response
                randomUUID JSON_parse JSON_stringify Number_toString
                opts_token onInvoke_throws socket raw fields c s
                Gateway.OnConnect Hp Hev Hid Hres Hk) as H.
  assert (Hagain : forall c',
             Gateway.pending c' = delete s (Gateway.pending c) ->
             step c' (Gateway.WsMessage socket raw) = (c', [])).
  { intros c' Hc'. unfold step.
    apply (GatewayFrameFacts.handleMessage_unanswered
             randomUUID JSON_parse JSON_stringify Number_toString
             opts_token onInvoke_throws socket raw fields c' s Hp Hev Hid).
    rewrite Hc'. apply lookup_delete_eq. }
  assert (Hcloses : forall code,
             r = Gateway.close_ws
                   code (Gateway.set_pending (delete s (Gateway.pending c)) c)
             -> code = Some 1008%Z ->
             Gateway.pending (fst r) = delete s (Gateway.pending c)
             /\ closes).
  { intros code Hr ->. unfold closes. rewrite Hr.
    unfold Gateway.close_ws. cbn [Gateway.ws Gateway.set_pending].
    destruct (Gateway.ws c) as [k|] eqn:Hw; repeat split; exact Hw. }
  fold step r in H. revert H.
  destruct (is_string _ (lit "accepted")); [intros H; exact H|].
  cbv zeta.
  destruct (truthy (lookup_field fields (lit "ok"))).
  - cbn [Gateway.settle].
    destruct (JSON_stringify (lookup_field fields (lit "payload"))).
    + intros H. rewrite H.
      cbn [Gateway.setState fst snd Gateway.pending Gateway.sockets
           Gateway.state Gateway.backoffMs Gateway.ws Gateway.set_backoffMs
           Gateway.set_pending].
      split; [reflexivity|]. split; [apply Hagain; reflexivity|].
      repeat split.
    + intros H. destruct (Hcloses _ H eq_refl) as [H1 H2].
      split; [exact H1|]. split; [apply Hagain, H1 | exact H2].
  - destruct (GatewayTerms.rejection Number_toString _).
    + cbn [Gateway.settle]. intros H.
      destruct (Hcloses _ H eq_refl) as [H1 H2].
      split; [exact H1|]. split; [apply Hagain, H1 | exact H2].
    + intros H. rewrite H. cbn [fst snd Gateway.pending Gateway.set_pending].
      split; [reflexivity|]. split; [apply Hagain; reflexivity|].
      split; reflexivity.
Qed.

Lemma handshake_response_witness :
  let c := fst (Example.run Gateway.init
                            [Gateway.Start; Gateway.WsOpen 0;
                             Gateway.ConnectTimerFired]) in
  let r := Example.step c (Gateway.WsMessage 0 (lit "connected")) in
  Gateway.state (fst r) = Gateway.connected
  /\ snd r = [Gateway.OnStateChange Gateway.connected]
  /\ Example.step (fst r) (Gateway.WsMessage 0 (lit "connected"))
     = (fst r, []).
Proof.
  intros c r.
  pose proof (handshake_response
                Example.randomUUID Example.JSON_parse Example.JSON_stringify
                Example.Number_toString Example.opts_token
                Example.onInvoke_throws
                c 0 (lit "connected") _ (Example.randomUUID 0)
                eq_refl eq_refl eq_refl eq_refl) as H.
  destruct H as [_ [Hagain [Hs [_ [_ [_ Ha]]]]]].
  - vm_compute. reflexivity.
  - repeat split; assumption.
Defined.
(** ** The terminal: the result for every sequence of events *)

Module TerminalGuardFacts.

Import JStrFacts Path Security.

(** The allow-list check in terms of the first token. *)
Lemma isCommandAllowed_iff command allowlist :
  isCommandAllowed command allowlist = true <->
  first_token command <> []
  /\ exists allowed,
      In allowed allowlist
      /\ (allowed = lit "*"
          \/ basename (first_token command) = allowed
          \/ basename (first_token command) = allowed ++ lit ".exe").
Proof.
  unfold isCommandAllowed. rewrite SecurityFacts.baseCmd_first_token.
  destruct (eqb (first_token command) []) eqn:E.
  - apply eqb_eq in E. split; [discriminate|].
    intros [H _]. contradiction.
  - apply eqb_neq in E. rewrite existsb_exists. split.
    + intros [allowed [Hin H]]. split; [exact E|]. exists allowed.
      split; [exact Hin|].
      apply orb_true_iff in H as [H|H];
        [apply orb_true_iff in H as [H|H]|];
        apply eqb_eq in H; auto.
    + intros [_ [allowed [Hin H]]]. exists allowed. split; [exact Hin|].
      destruct H as [H|[H|H]]; rewrite H, ?eqb_refl, ?orb_true_r;
        reflexivity.
Qed.

(** An absolute last argument makes [path.resolve] forget the
    arguments before it. *)
Lemma resolve_absolute_last cwd root p :
  isAbsolute p = true -> resolve cwd [root; p] = resolve cwd [p].
Proof.
  intros Hp. unfold resolve.
  change (rev [root; p] ++ [cwd]) with [p; root; cwd].
  change (rev [p] ++ [cwd]) with [p; cwd].
  cbn [resolve_loop].
  replace (eqb p []) with false
    by (symmetry; apply eqb_neq, PathFacts.isAbsolute_not_nil, Hp).
  rewrite Hp. reflexivity.
Qed.

(** The checks before the spawn pass exactly when the terminal is
    enabled and writable, the allow-list admits the command and the
    user, if asked, allowed it. *)
Lemma precheck_iff cfg choice params :
  (exists delay, Terminal.precheck cfg choice params = Normal delay)
  <-> Terminal.terminalEnabled cfg = true
      /\ Terminal.readOnly cfg = false
      /\ first_token (Terminal.command params) <> []
      /\ (exists allowed,
             In allowed (Terminal.terminalAllowlist cfg)
             /\ (allowed = lit "*"
                 \/ basename (first_token (Terminal.command params))
                    = allowed
                 \/ basename (first_token (Terminal.command params))
                    = allowed ++ lit ".exe"))
      /\ (Terminal.confirmWrites cfg = true -> choice = Terminal.Allow).
Proof.
  unfold Terminal.precheck.
  pose proof (isCommandAllowed_iff
                (Terminal.command params) (Terminal.terminalAllowlist cfg))
    as Hal.
  destruct (Terminal.terminalEnabled cfg); cbn [negb];
    [|split; [intros [r H]; discriminate | intros [H _]; discriminate]].
  destruct (Terminal.readOnly cfg);
    [split; [intros [r H]; discriminate
            | intros [_ [H _]]; discriminate]|].
  destruct (isCommandAllowed _ _); cbn [negb].
  - destruct Hal as [Hal _]. destruct (Hal eq_refl) as [Htok Hex].
    destruct (Terminal.confirmWrites cfg); cbn [andb].
    + destruct choice; cbn [negb].
      * split; [intros _; auto 6 | intros _; eauto].
      * split; [intros [r H]; discriminate|].
        intros [_ [_ [_ [_ H]]]]. specialize (H eq_refl). discriminate.
      * split; [intros [r H]; discriminate|].
        intros [_ [_ [_ [_ H]]]]. specialize (H eq_refl). discriminate.
    + split; [intros _ | intros _; eauto].
      repeat split; try assumption. discriminate.
  - split; [intros [r H]; discriminate|].
    intros [_ [_ [Htok [Hex _]]]].
    destruct Hal as [_ Hal]. specialize (Hal (conj Htok Hex)).
    discriminate.
Qed.

(** The working directory is determined unless a directory is given in
    a workspace without a folder. *)
Lemma spawnCwd_iff processCwd workspaceFolders cwd :
  (exists dir,
      TerminalCwd.spawnCwd processCwd workspaceFolders cwd = Normal dir)
  <-> ~ (workspaceFolders = Some []
         /\ exists p, cwd = Some p /\ p <> []).
Proof.
  unfold TerminalCwd.spawnCwd.
  destruct cwd as [p|].
  - destruct (eqb p []) eqn:E.
    + apply eqb_eq in E.
      split; [|destruct workspaceFolders as [[|root rest]|]; eauto].
      intros _ [_ [q [Hq Hne]]]. congruence.
    + apply eqb_neq in E.
      destruct workspaceFolders as [[|root rest]|].
      * split; [intros [dir H]; discriminate|].
        intros H. exfalso. apply H. eauto.
      * split; [|eauto]. intros _ [H _]. discriminate.
      * split; [|eauto]. intros _ [H _]. discriminate.
  - split; [|destruct workspaceFolders as [[|root rest]|]; eauto].
    intros _ [_ [q [Hq _]]]. discriminate.
Qed.

End TerminalGuardFacts.

(** X15: the result of [terminalRun] for every sequence of events of
    the child.  When the checks before the spawn pass and the working
    directory is determined, the promise is pending until the child
    closes or reports an error, and is then resolved with the exit
    code of that event ([null] for an error), with the first
    [MAX_OUTPUT] (100000) code units of what each stream delivered
    before that event, and with [timedOut] true exactly when the timer
    fired before that event.  What comes later changes nothing. *)
Theorem terminalRun_result
        (processCwd : jsstring) (workspaceFolders : option (list jsstring))
        (cfg : Terminal.Config) (choice : Terminal.Choice)
        (params : Terminal.TerminalRunParams) (args : Terminal.SpawnArgs)
        (events : list Terminal.ChildEvent) :
  Terminal.spawnArgs processCwd workspaceFolders cfg choice params
  = Normal args ->
  Terminal.terminalRun processCwd workspaceFolders cfg choice params events
  = Normal
      (match TerminalTerms.first_exit events with
       | None => None
       | Some e =>
           Some {| Terminal.exitCode := Terminal.exit_code e;
                   Terminal.stdout :=
                     take Terminal.MAX_OUTPUT
                          (TerminalTerms.stdout_text
                             (TerminalTerms.before_exit events));
                   Terminal.stderr :=
                     take Terminal.MAX_OUTPUT
                          (TerminalTerms.stderr_text
                             (TerminalTerms.before_exit events));
                   Terminal.timedOut :=
                     existsb TerminalTerms.is_timeout
                             (TerminalTerms.before_exit events) |}
       end)
  /\ (forall r,
         Terminal.terminalRun processCwd workspaceFolders cfg choice params
                              events = Normal (Some r) ->
         length (Terminal.stdout r) <= Terminal.MAX_OUTPUT
         /\ length (Terminal.stderr r) <= Terminal.MAX_OUTPUT).
Proof.
  intros Hpre.
  assert (H : Terminal.terminalRun processCwd workspaceFolders cfg choice
                                   params events
              = Normal
                  (match TerminalTerms.first_exit events with
                   | None => None
                   | Some e =>
                       Some {| Terminal.exitCode := Terminal.exit_code e;
                               Terminal.stdout :=
                                 take Terminal.MAX_OUTPUT
                                      (TerminalTerms.stdout_text
                                         (TerminalTerms.before_exit events));
                               Terminal.stderr :=
                                 take Terminal.MAX_OUTPUT
                                      (TerminalTerms.stderr_text
                                         (TerminalTerms.before_exit events));
                               Terminal.timedOut :=
                                 existsb TerminalTerms.is_timeout
                                         (TerminalTerms.before_exit events) |}
                   end)).
  { unfold Terminal.terminalRun. rewrite Hpre. f_equal.
    exact (TerminalResultFacts.run_result
             events Terminal.spawned TerminalResultFacts.spawned_unsettled). }
  split; [exact H|].
  intros r Hr. rewrite H in Hr.
  destruct (TerminalTerms.first_exit events); [|discriminate].
  injection Hr as <-. cbn [Terminal.stdout Terminal.stderr].
  rewrite !length_take. lia.
Qed.

Lemma terminalRun_result_witness :
  let cfg := {| Terminal.terminalEnabled := true;
                Terminal.readOnly := false;
                Terminal.terminalAllowlist := [lit "npm"];
                Terminal.confirmWrites := false |} in
  let params := {| Terminal.command := lit "npm test";
                   Terminal.cwd := Some (lit "packages/core");
                   Terminal.timeoutMs := Some 5000%Z |} in
  Terminal.terminalRun
    (lit "/") (Some [lit "/w"]) cfg Terminal.Dismissed params
    [Terminal.StdoutData (lit "ok"); Terminal.ChildClose (Some 0%Z);
     Terminal.TimeoutFired; Terminal.StdoutData (lit "late")]
  = Normal (Some {| Terminal.exitCode := Some 0%Z;
                    Terminal.stdout := lit "ok";
                    Terminal.stderr := [];
                    Terminal.timedOut := false |}).
Proof.
  intros cfg params.
  exact (proj1 (terminalRun_result
                  (lit "/") (Some [lit "/w"])
                  cfg Terminal.Dismissed params
                  {| Terminal.spawn_command := lit "npm test";
                     Terminal.spawn_cwd := Some (lit "/w/packages/core");
                     Terminal.spawn_timeout := 5000 |}
                  [Terminal.StdoutData (lit "ok");
                   Terminal.ChildClose (Some 0%Z);
                   Terminal.TimeoutFired; Terminal.StdoutData (lit "late")]
                  ltac:(vm_compute; reflexivity))).
Defined.

(** X16: the child is killed at most once, and only before it has
    closed: over every sequence of events the callbacks of
    [terminalRun] issue one [kill] if the timer fires before the first
    close or error event, and none otherwise; a timer that has fired,
    or that [finalize] has cleared, kills nothing. *)
Theorem terminalRun_kills_once (events : list Terminal.ChildEvent) :
  TerminalTerms.effects Terminal.spawned events
  = if existsb TerminalTerms.is_timeout (TerminalTerms.before_exit events)
    then [Terminal.Kill] else [].
Proof.
  exact (TerminalResultFacts.run_effects
           events Terminal.spawned TerminalResultFacts.spawned_unsettled).
Qed.

(** X17: [terminalRun] starts a child only when the terminal is
    enabled, the extension is not in read-only mode, the command line
    has a first token whose base name the allow-list admits (by the
    wildcard, by name or by name with [.exe]), the user chose [Allow]
    if writes are to be confirmed, and the working directory is
    determined, which it is not when [params.cwd] is given and not
    empty in a workspace that has no folder; and whenever all of this
    holds it does start one. *)
Theorem terminalRun_guard
        (processCwd : jsstring) (workspaceFolders : option (list jsstring))
        (cfg : Terminal.Config) (choice : Terminal.Choice)
        (params : Terminal.TerminalRunParams)
        (events : list Terminal.ChildEvent) :
  (exists r, Terminal.terminalRun processCwd workspaceFolders cfg choice
                                  params events = Normal r)
  <-> Terminal.terminalEnabled cfg = true
      /\ Terminal.readOnly cfg = false
      /\ Security.first_token (Terminal.command params) <> []
      /\ (exists allowed,
             In allowed (Terminal.terminalAllowlist cfg)
             /\ (allowed = lit "*"
                 \/ Path.basename
                      (Security.first_token (Terminal.command params))
                    = allowed
                 \/ Path.basename
                      (Security.first_token (Terminal.command params))
                    = allowed ++ lit ".exe"))
      /\ (Terminal.confirmWrites cfg = true -> choice = Terminal.Allow)
      /\ ~ (workspaceFolders = Some []
            /\ exists p, Terminal.cwd params = Some p /\ p <> []).
Proof.
  pose proof (TerminalGuardFacts.precheck_iff cfg choice params) as Hpre.
  pose proof (TerminalGuardFacts.spawnCwd_iff
                processCwd workspaceFolders (Terminal.cwd params)) as Hcwd.
  unfold Terminal.terminalRun, Terminal.spawnArgs.
  destruct (Terminal.precheck cfg choice params) as [delay|e].
  - destruct (TerminalCwd.spawnCwd _ _ _) as [dir|e].
    + split; [intros _ | intros _; eauto].
      destruct Hpre as [Hpre _]. destruct Hcwd as [Hcwd _].
      specialize (Hpre ltac:(eauto)). specialize (Hcwd ltac:(eauto)).
      tauto.
    + split; [intros [r H]; discriminate|].
      intros [_ [_ [_ [_ [_ H]]]]].
      destruct Hcwd as [_ Hcwd]. destruct (Hcwd H) as [dir Hd].
      discriminate.
  - split; [intros [r H]; discriminate|].
    intros [H1 [H2 [H3 [H4 [H5 _]]]]].
    destruct Hpre as [_ Hpre].
    destruct (Hpre (conj H1 (conj H2 (conj H3 (conj H4 H5))))) as [d Hd].
    discriminate.
Qed.

(** X18: the working directory of the child is not confined to the
    workspace.  [terminalRun] resolves [params.cwd] against the first
    workspace folder with [path.resolve] and checks nothing: an
    absolute normalized path, which [resolveWorkspacePath] rejects, is
    used as it is.  Without [params.cwd], or with an empty one, the
    folder itself is used; without a workspace the child inherits the
    directory of the process; in a workspace without a folder a given
    [params.cwd] makes [terminalRun] reject. *)
Theorem terminal_cwd_not_confined
        (processCwd root : jsstring) (rest : list jsstring) :
  (forall segs,
      Forall PathTerms.clean segs ->
      let p := Path.sep ++ join Path.sep segs in
      TerminalCwd.spawnCwd processCwd (Some (root :: rest)) (Some p)
      = Normal (Some p)
      /\ exists e,
          Security.resolveWorkspacePath processCwd (root :: rest) p
          = Throw e)
  /\ (forall p,
         p <> [] ->
         TerminalCwd.spawnCwd processCwd (Some (root :: rest)) (Some p)
         = Normal (Some (Path.resolve processCwd [root; p])))
  /\ TerminalCwd.spawnCwd processCwd (Some (root :: rest)) None
     = Normal (Some root)
  /\ TerminalCwd.spawnCwd processCwd (Some (root :: rest)) (Some [])
     = Normal (Some root)
  /\ (forall cwd, TerminalCwd.spawnCwd processCwd None cwd = Normal None)
  /\ (forall p,
         p <> [] ->
         exists e,
           TerminalCwd.spawnCwd processCwd (Some []) (Some p) = Throw e).
Proof.
  assert (Hgiven : forall p,
             p <> [] ->
             TerminalCwd.spawnCwd processCwd (Some (root :: rest)) (Some p)
             = Normal (Some (Path.resolve processCwd [root; p]))).
  { intros p Hp. unfold TerminalCwd.spawnCwd.
    apply JStrFacts.eqb_neq in Hp. rewrite Hp. reflexivity. }
  split; [|split; [exact Hgiven|split; [reflexivity|split; [reflexivity|split]]]].
  - intros segs Hsegs p. subst p. split.
    + rewrite Hgiven by discriminate.
      rewrite TerminalGuardFacts.resolve_absolute_last by reflexivity.
      rewrite PathFacts.resolve_normalized by exact Hsegs. reflexivity.
    + unfold Security.resolveWorkspacePath.
      change (Path.isAbsolute (Path.sep ++ join Path.sep segs)) with true.
      cbv iota. eauto.
  - intros [p|]; [|reflexivity]. unfold TerminalCwd.spawnCwd.
    destruct (eqb p []); reflexivity.
  - intros p Hp. unfold TerminalCwd.spawnCwd.
    apply JStrFacts.eqb_neq in Hp. rewrite Hp. eauto.
Qed.

Lemma terminal_cwd_not_confined_witness :
  TerminalCwd.spawnCwd (lit "/") (Some [lit "/home/me/project"])
                       (Some (lit "/etc"))
  = Normal (Some (lit "/etc")).
Proof.
  destruct (terminal_cwd_not_confined (lit "/") (lit "/home/me/project") [])
    as [H _].
  destruct (H [lit "etc"]) as [Hspawn _].
  - repeat constructor; try discriminate.
    intros Hin. vm_compute in Hin. intuition discriminate.
  - exact Hspawn.
Defined.

(** ** The file handlers *)

Module FileFacts.

Import JStrFacts Path Security FileEdit FileEditTerms FileOps FileTerms.

Lemma inside_of_accepted cwd workspaceFolders rel uri :
  isAbsolute cwd = true ->
  resolveWorkspacePath cwd workspaceFolders rel = Normal uri ->
  inside cwd workspaceFolders uri.
Proof.
  intros Hcwd H.
  destruct (WorkspacePathFacts.accepted_inside
              cwd Hcwd workspaceFolders rel uri H)
    as [root [rest [rootSegs [more [Hf [_ [_ [_ [_ [_ Hin]]]]]]]]]].
  exists root, rest. split; assumption.
Qed.

Lemma confirmed_of cfg choice :
  confirmWrites cfg && negb (allowed choice) = false -> confirmed cfg choice.
Proof.
  unfold confirmed. intros H Hc. rewrite Hc in H.
  destruct choice; [reflexivity | discriminate | discriminate].
Qed.

Lemma confirmed_edit cfg choice :
  confirmWrites cfg
  && negb (match choice with Allow => true | _ => false end) = false ->
  confirmed cfg choice.
Proof. apply confirmed_of. Qed.

Lemma occurs_at_drop text pat start j :
  occurs_at (drop start text) pat j <-> occurs_at text pat (start + j).
Proof. unfold occurs_at. rewrite drop_drop. reflexivity. Qed.

Lemma cut_join pat text pieces :
  cut pat text pieces -> text = join pat pieces /\ pieces <> [].
Proof.
  induction 1 as [text _|piece text pieces _ _ [IH Hne]].
  - split; [reflexivity | discriminate].
  - split; [|discriminate].
    rewrite SetupWizardFacts.join_cons_gen by exact Hne.
    rewrite <- IH. reflexivity.
Qed.

(** The occurrences found by the loop cut the text into pieces, and
    the edit glues the pieces with the new text. *)
Lemma scanned_cut text pat new :
  pat <> [] ->
  forall start found,
    scanned text pat start found ->
    exists pieces,
      cut pat (drop start text) pieces
      /\ length pieces = S (length found)
      /\ replaceRanges text start found new = join new pieces.
Proof.
  intros Hp start found H.
  induction H as [start Hno|start k rest Hle Hocc Hno Hs IH].
  - exists [drop start text]. split; [|split; reflexivity].
    constructor. intros j Hj. apply occurs_at_drop in Hj.
    apply (Hno (start + j)); [lia | exact Hj].
  - destruct IH as [pieces [Hcut [Hlen Hrep]]].
    pose proof (FileEditFacts.occurs_at_bound text pat k Hp Hocc) as Hb.
    assert (Hk : drop k text = pat ++ drop (k + length pat) text).
    { unfold occurs_at in Hocc. apply startsWith_spec in Hocc as [t Ht].
      rewrite <- drop_drop, Ht, drop_app_length. reflexivity. }
    assert (Hd : drop start text
                 = take (k - start) (drop start text)
                   ++ pat ++ drop (k + length pat) text).
    { rewrite <- Hk.
      rewrite <- (take_drop (k - start) (drop start text)) at 1.
      rewrite drop_drop. replace (start + (k - start)) with k by lia.
      reflexivity. }
    exists (take (k - start) (drop start text) :: pieces).
    split; [|split].
    + rewrite Hd at 1. constructor; [|exact Hcut].
      intros j Hj. rewrite <- Hd. intros Hocc'.
      apply occurs_at_drop in Hocc'.
      rewrite length_take, length_drop in Hj.
      apply (Hno (start + j)); [lia | exact Hocc'].
    + cbn [length]. rewrite Hlen. reflexivity.
    + cbn [replaceRanges]. rewrite Hrep.
      rewrite SetupWizardFacts.join_cons_gen; [reflexivity|].
      destruct pieces; [discriminate | discriminate].
Qed.

End FileFacts.

(** X19: what [fileWrite] and [fileDelete] do to the file system.
    Every file that [fileWrite] writes and every file that
    [fileDelete] deletes is the path that [resolveWorkspacePath]
    returned for [params.path], inside the first workspace folder; it
    is written or deleted only when the extension is not in read-only
    mode and, if writes are to be confirmed, the user chose [Allow].
    [fileWrite] writes the given content and deletes nothing, and shows
    its prompt only for a path that has been accepted; [fileDelete]
    writes nothing and bypasses the trash only when [params.useTrash]
    is the boolean [false].  A result is returned only after the call
    has been made and has succeeded. *)
Theorem file_write_delete_guarded
        (cwd : jsstring) (workspaceFolders : list jsstring)
        (cfg : FileEdit.Config) (choice : FileEdit.Choice) :
  Path.isAbsolute cwd = true ->
  (forall found written params,
      let r := FileOps.fileWrite cwd workspaceFolders cfg choice
                                 found written params in
      (forall u text,
          In (FileOps.WriteFile u text) (snd r) ->
          FileEdit.readOnly cfg = false
          /\ FileTerms.confirmed cfg choice
          /\ Security.resolveWorkspacePath
               cwd workspaceFolders (FileOps.write_path params) = Normal u
          /\ FileTerms.inside cwd workspaceFolders u
          /\ text = FileOps.content params)
      /\ (forall u t, ~ In (FileOps.Delete u t) (snd r))
      /\ (forall m,
             In (FileOps.ShowWarning m) (snd r) ->
             exists u,
               Security.resolveWorkspacePath
                 cwd workspaceFolders (FileOps.write_path params)
               = Normal u)
      /\ (forall res,
             fst r = Normal res ->
             FileOps.write_ok res = true
             /\ FileOps.created res = negb found
             /\ written = Normal tt
             /\ exists u,
                 In (FileOps.WriteFile u (FileOps.content params)) (snd r)))
  /\ (forall deleted params,
         let r := FileOps.fileDelete cwd workspaceFolders cfg choice
                                     deleted params in
         (forall u t,
             In (FileOps.Delete u t) (snd r) ->
             FileEdit.readOnly cfg = false
             /\ FileTerms.confirmed cfg choice
             /\ Security.resolveWorkspacePath
                  cwd workspaceFolders (FileOps.delete_path params)
                = Normal u
             /\ FileTerms.inside cwd workspaceFolders u
             /\ (t = false <-> FileOps.useTrash params = VBool false))
         /\ (forall u text, ~ In (FileOps.WriteFile u text) (snd r))
         /\ (forall ok,
                fst r = Normal ok ->
                ok = true
                /\ deleted = Normal tt
                /\ exists u t, In (FileOps.Delete u t) (snd r))).
Proof.
  intros Hcwd. split.
  - intros found written params r. subst r. unfold FileOps.fileWrite.
    destruct (FileEdit.readOnly cfg) eqn:Hro.
    { (split; [|split; [|split]]); cbn [fst snd In]; intros;
        first [discriminate | tauto]. }
    destruct (Security.resolveWorkspacePath _ _ _) as [uri|e] eqn:Hres.
    2:{ (split; [|split; [|split]]); cbn [fst snd In]; intros;
          first [discriminate | tauto]. }
    pose proof (FileFacts.inside_of_accepted _ _ _ _ Hcwd Hres) as Hin.
    cbv zeta.
    destruct (FileEdit.confirmWrites cfg && negb (FileOps.allowed choice))
      eqn:Hgo.
    { destruct (FileEdit.confirmWrites cfg); [|discriminate].
      (split; [|split; [|split]]); cbn [fst snd In]; intros;
        try discriminate; try (exists uri; reflexivity);
        intuition discriminate. }
    pose proof (FileFacts.confirmed_of _ _ Hgo) as Hconf.
    assert (Hw : forall prompt u text,
               (prompt = [] \/ exists m, prompt = [FileOps.ShowWarning m]) ->
               In (FileOps.WriteFile u text)
                  (prompt ++ [FileOps.Stat uri;
                              FileOps.WriteFile uri (FileOps.content params)]) ->
               u = uri /\ text = FileOps.content params).
    { intros prompt u text [->|[m ->]] H; cbn in H;
        intuition (try discriminate; try congruence). }
    assert (Hd : forall prompt u t,
               (prompt = [] \/ exists m, prompt = [FileOps.ShowWarning m]) ->
               ~ In (FileOps.Delete u t)
                    (prompt ++ [FileOps.Stat uri;
                                FileOps.WriteFile uri (FileOps.content params)])).
    { intros prompt u t [->|[m ->]] H; cbn in H;
        intuition discriminate. }
    assert (Hprompt :
              (if FileEdit.confirmWrites cfg
               then [FileOps.ShowWarning
                       (lit "OpenClaw wants to write to: "
                        ++ FileOps.write_path params)]
               else []) = []
              \/ exists m,
                  (if FileEdit.confirmWrites cfg
                   then [FileOps.ShowWarning
                           (lit "OpenClaw wants to write to: "
                            ++ FileOps.write_path params)]
                   else []) = [FileOps.ShowWarning m])
      by (destruct (FileEdit.confirmWrites cfg); eauto).
    destruct written as [[]|e]; cbn [fst snd]; (split; [|split; [|split]]).
    + intros u text H. destruct (Hw _ _ _ Hprompt H) as [-> ->]. auto.
    + intros u t. apply Hd, Hprompt.
    + intros m _. eauto.
    + intros res H. injection H as <-. cbn. repeat split.
      exists uri. apply in_or_app. right. right. left. reflexivity.
    + intros u text H. destruct (Hw _ _ _ Hprompt H) as [-> ->]. auto.
    + intros u t. apply Hd, Hprompt.
    + intros m _. eauto.
    + intros res H. discriminate.
  - intros deleted params r. subst r. unfold FileOps.fileDelete.
    destruct (FileEdit.readOnly cfg) eqn:Hro.
    { (split; [|split]); cbn [fst snd In]; intros;
        first [discriminate | tauto]. }
    cbv zeta.
    destruct (FileEdit.confirmWrites cfg && negb (FileOps.allowed choice))
      eqn:Hgo.
    { destruct (FileEdit.confirmWrites cfg); [|discriminate].
      (split; [|split]); cbn [fst snd In]; intros;
        try discriminate; intuition discriminate. }
    pose proof (FileFacts.confirmed_of _ _ Hgo) as Hconf.
    destruct (Security.resolveWorkspacePath _ _ _) as [uri|e] eqn:Hres.
    2:{ destruct (FileEdit.confirmWrites cfg);
          (split; [|split]); cbn [fst snd In]; intros;
          try discriminate; intuition discriminate. }
    pose proof (FileFacts.inside_of_accepted _ _ _ _ Hcwd Hres) as Hin.
    assert (Ht : forall t,
               t = match FileOps.useTrash params with
                   | VBool false => false
                   | _ => true
                   end ->
               (t = false <-> FileOps.useTrash params = VBool false)).
    { intros t ->. destruct (FileOps.useTrash params) as [| |[]|n|s|l|f];
        split; intros H; try discriminate; reflexivity. }
    destruct deleted as [[]|e], (FileEdit.confirmWrites cfg);
      cbn [fst snd app]; (split; [|split]);
      try (intros u t H; cbn in H;
           destruct H as [H|H]; try discriminate;
           try (destruct H as [H|H]; try discriminate; try contradiction);
           try contradiction;
           injection H as <- <-; repeat split; auto; apply Ht; reflexivity);
      try (intros u text H; cbn in H; intuition discriminate);
      try (intros ok H; discriminate);
      try (intros ok H; injection H as <-; repeat split;
           do 2 eexists; cbn; eauto).
Qed.

Lemma file_write_delete_guarded_witness :
  FileOps.fileWrite
    (lit "/") [lit "/w"]
    {| FileEdit.readOnly := false; FileEdit.confirmWrites := true |}
    FileEdit.Allow false (Normal tt)
    {| FileOps.write_path := lit "a.txt"; FileOps.content := lit "x" |}
  = (Normal {| FileOps.write_ok := true; FileOps.created := true |},
     [FileOps.ShowWarning (lit "OpenClaw wants to write to: a.txt");
      FileOps.Stat (lit "/w/a.txt");
      FileOps.WriteFile (lit "/w/a.txt") (lit "x")])
  /\ FileTerms.inside (lit "/") [lit "/w"] (lit "/w/a.txt").
Proof.
  split; [vm_compute; reflexivity|].
  destruct (file_write_delete_guarded
              (lit "/") [lit "/w"]
              {| FileEdit.readOnly := false; FileEdit.confirmWrites := true |}
              FileEdit.Allow eq_refl) as [Hwrite _].
  destruct (Hwrite false (Normal tt)
                   {| FileOps.write_path := lit "a.txt";
                      FileOps.content := lit "x" |})
    as [Hw _].
  destruct (Hw (lit "/w/a.txt") (lit "x")) as [_ [_ [_ [Hin _]]]].
  - vm_compute. right. right. left. reflexivity.
  - exact Hin.
Defined.

(** X20: [fileEdit] changes at most the file named by [params.path],
    and only when it reports success.  Whatever the number of
    iterations of the search, if [fileEdit] returns or throws, a file
    whose content differs afterwards is the path that
    [resolveWorkspacePath] returned, inside the first workspace
    folder; the extension is then not in read-only mode, the user chose
    [Allow] if writes are to be confirmed, the edit was applied and the
    result is [{ok: true}] with at least one replacement.  When
    [fileEdit] throws, or reports [ok: false], every file is as it
    was. *)
Theorem fileEdit_confined
        (fuel : nat) (cwd : jsstring) (workspaceFolders : list jsstring)
        (cfg : FileEdit.Config) (choice : FileEdit.Choice) (applies : bool)
        (files files' : FileEdit.Files) (params : FileEdit.FileEditParams)
        (res : completion jsstring FileEdit.FileEditResult) :
  Path.isAbsolute cwd = true ->
  FileEdit.fileEdit fuel cwd workspaceFolders cfg choice applies files params
  = Some (res, files') ->
  (forall u,
      files' !! u <> files !! u ->
      FileEdit.readOnly cfg = false
      /\ FileTerms.confirmed cfg choice
      /\ applies = true
      /\ Security.resolveWorkspacePath
           cwd workspaceFolders (FileEdit.path params) = Normal u
      /\ FileTerms.inside cwd workspaceFolders u
      /\ exists r,
          res = Normal r /\ FileEdit.ok r = true
          /\ 0 < FileEdit.replacements r)
  /\ (forall e, res = Throw e -> files' = files)
  /\ (forall r,
         res = Normal r ->
         FileEdit.ok r = applies
         /\ 0 < FileEdit.replacements r
         /\ (applies = false -> files' = files)).
Proof.
  intros Hcwd. unfold FileEdit.fileEdit.
  assert (Hsame : forall (res0 : completion jsstring FileEdit.FileEditResult),
             (exists e, res0 = Throw e) ->
             Some (res0, files) = Some (res, files') ->
             (forall u,
                 files' !! u <> files !! u ->
                 FileEdit.readOnly cfg = false
                 /\ FileTerms.confirmed cfg choice
                 /\ applies = true
                 /\ Security.resolveWorkspacePath
                      cwd workspaceFolders (FileEdit.path params) = Normal u
                 /\ FileTerms.inside cwd workspaceFolders u
                 /\ exists r,
                     res = Normal r /\ FileEdit.ok r = true
                     /\ 0 < FileEdit.replacements r)
             /\ (forall e, res = Throw e -> files' = files)
             /\ (forall r,
                    res = Normal r ->
                    FileEdit.ok r = applies
                    /\ 0 < FileEdit.replacements r
                    /\ (applies = false -> files' = files))).
  { intros res0 [e ->] H. injection H as <- <-.
    split; [intros u Hu; congruence|].
    split; [reflexivity | intros r Hr; discriminate]. }
  destruct (FileEdit.readOnly cfg) eqn:Hro; [apply Hsame; eauto|].
  destruct (FileEdit.confirmWrites cfg && negb _) eqn:Hgo;
    [apply Hsame; eauto|].
  pose proof (FileFacts.confirmed_edit _ _ Hgo) as Hconf.
  destruct (Security.resolveWorkspacePath _ _ _) as [uri|e] eqn:Hres;
    [|apply Hsame; eauto].
  pose proof (FileFacts.inside_of_accepted _ _ _ _ Hcwd Hres) as Hin.
  destruct (files !! uri) as [fullText|] eqn:Hfile; [|apply Hsame; eauto].
  destruct (FileEdit.findRanges _ _ _ _ _) as [[|range ranges]|];
    [apply Hsame; eauto | | discriminate].
  destruct applies; cbv zeta iota; intros H; injection H as <- <-.
  - split; [|split; [discriminate|]].
    + intros u Hu. unfold FileEdit.Files in *.
      destruct (decide (u = uri)) as [->|Hne];
        [|rewrite lookup_insert_ne in Hu by congruence; contradiction].
      repeat split; try assumption.
      eexists. split; [reflexivity|]. split; [reflexivity | cbn; lia].
    + intros r Hr. injection Hr as <-. cbn.
      split; [reflexivity|]. split; [lia | discriminate].
  - split; [intros u Hu; contradiction|]. split; [discriminate|].
    intros r Hr. injection Hr as <-. cbn.
    split; [reflexivity|]. split; [lia | reflexivity].
Qed.

Lemma fileEdit_confined_witness :
  let files : FileEdit.Files := {[ lit "/w/a.txt" := lit "hello" ]} in
  let files' : FileEdit.Files := {[ lit "/w/a.txt" := lit "heLLo" ]} in
  FileEdit.fileEdit
    10 (lit "/") [lit "/w"]
    {| FileEdit.readOnly := false; FileEdit.confirmWrites := false |}
    FileEdit.Dismissed true files
    {| FileEdit.path := lit "a.txt"; FileEdit.oldText := lit "l";
       FileEdit.newText := lit "L" |}
  = Some (Normal {| FileEdit.ok := true; FileEdit.replacements := 2 |},
          files')
  /\ files' !! lit "/w/a.txt" <> files !! lit "/w/a.txt"
  /\ FileTerms.inside (lit "/") [lit "/w"] (lit "/w/a.txt").
Proof.
  intros files files'.
  assert (Hr : FileEdit.fileEdit
                 10 (lit "/") [lit "/w"]
                 {| FileEdit.readOnly := false;
                    FileEdit.confirmWrites := false |}
                 FileEdit.Dismissed true files
                 {| FileEdit.path := lit "a.txt"; FileEdit.oldText := lit "l";
                    FileEdit.newText := lit "L" |}
               = Some (Normal {| FileEdit.ok := true;
                                 FileEdit.replacements := 2 |}, files'))
    by (vm_compute; reflexivity).
  assert (Hd : files' !! lit "/w/a.txt" <> files !! lit "/w/a.txt")
    by (vm_compute; discriminate).
  split; [exact Hr|]. split; [exact Hd|].
  destruct (fileEdit_confined
              10 (lit "/") [lit "/w"]
              {| FileEdit.readOnly := false;
                 FileEdit.confirmWrites := false |}
              FileEdit.Dismissed true files files'
              {| FileEdit.path := lit "a.txt"; FileEdit.oldText := lit "l";
                 FileEdit.newText := lit "L" |}
              _ eq_refl Hr) as [H _].
  destruct (H (lit "/w/a.txt") Hd) as [_ [_ [_ [_ [Hin _]]]]].
  exact Hin.
Defined.

(** X21: [fileEdit] cuts and joins.  With a non-empty [oldText], when
    the guards pass and the document can be opened, [fileEdit] returns
    within [length fullText + 1] iterations of its search.  The
    occurrences it finds, from left to right and without overlap, cut
    the document into pieces, so that the document is the pieces
    joined by [oldText]; if there is one piece only, [oldText] occurs
    nowhere and [fileEdit] throws, leaving the files alone; otherwise
    it reports one replacement for each cut and, when the edit
    applies, the new document is the same pieces joined by
    [newText]. *)
Theorem fileEdit_cuts_and_joins
        (cwd : jsstring) (workspaceFolders : list jsstring)
        (cfg : FileEdit.Config) (choice : FileEdit.Choice) (applies : bool)
        (files : FileEdit.Files) (params : FileEdit.FileEditParams)
        (uri fullText : jsstring) :
  FileEdit.oldText params <> [] ->
  FileEdit.readOnly cfg = false ->
  FileTerms.confirmed cfg choice ->
  Security.resolveWorkspacePath cwd workspaceFolders (FileEdit.path params)
  = Normal uri ->
  files !! uri = Some fullText ->
  exists pieces,
    FileTerms.cut (FileEdit.oldText params) fullText pieces
    /\ fullText = join (FileEdit.oldText params) pieces
    /\ FileEdit.fileEdit (S (length fullText)) cwd workspaceFolders cfg
                         choice applies files params
       = Some (match pieces with
               | [_] =>
                   (Throw (lit "oldText not found in "
                           ++ FileEdit.path params), files)
               | _ =>
                   (Normal {| FileEdit.ok := applies;
                              FileEdit.replacements := length pieces - 1 |},
                    if applies
                    then <[uri := join (FileEdit.newText params) pieces]>
                           files
                    else files)
               end).
Proof.
  intros Hp Hro Hconf Huri Hfile.
  destruct (FileEditFacts.findRanges_terminates
              fullText (FileEdit.oldText params) Hp
              (S (length fullText)) 0 [])
    as [result Hr]; [lia|].
  destruct (FileEditFacts.findRanges_scanned
              fullText (FileEdit.oldText params) Hp _ _ _ _ Hr)
    as [found [-> Hs]].
  destruct (FileFacts.scanned_cut
              fullText (FileEdit.oldText params) (FileEdit.newText params)
              Hp 0 found Hs)
    as [pieces [Hcut [Hlen Hrep]]].
  rewrite drop_0 in Hcut.
  exists pieces. split; [exact Hcut|].
  split; [exact (proj1 (FileFacts.cut_join _ _ _ Hcut))|].
  unfold FileEdit.fileEdit. rewrite Hro.
  replace (FileEdit.confirmWrites cfg && negb _) with false.
  2:{ symmetry. unfold FileTerms.confirmed in Hconf.
      destruct (FileEdit.confirmWrites cfg); [|reflexivity].
      rewrite (Hconf eq_refl). reflexivity. }
  rewrite Huri, Hfile, Hr. cbn [app].
  destruct found as [|range found].
  - destruct pieces as [|p [|q pieces]]; try discriminate. reflexivity.
  - destruct pieces as [|p [|q pieces]]; try discriminate.
    rewrite Hrep. cbn [length] in *.
    replace (S (S (length pieces)) - 1) with (S (length found)) by lia.
    reflexivity.
Qed.

Lemma fileEdit_cuts_and_joins_witness :
  exists pieces,
    lit "hello" = join (lit "l") pieces
    /\ FileEdit.fileEdit
         6 (lit "/") [lit "/w"]
         {| FileEdit.readOnly := false; FileEdit.confirmWrites := false |}
         FileEdit.Dismissed true {[ lit "/w/a.txt" := lit "hello" ]}
         {| FileEdit.path := lit "a.txt"; FileEdit.oldText := lit "l";
            FileEdit.newText := lit "L" |}
       = Some (match pieces with
               | [_] => (Throw (lit "oldText not found in " ++ lit "a.txt"),
                         {[ lit "/w/a.txt" := lit "hello" ]})
               | _ =>
                   (Normal {| FileEdit.ok := true;
                              FileEdit.replacements := length pieces - 1 |},
                    <[ lit "/w/a.txt" := join (lit "L") pieces ]>
                      {[ lit "/w/a.txt" := lit "hello" ]})
               end).
Proof.
  destruct (fileEdit_cuts_and_joins
              (lit "/") [lit "/w"]
              {| FileEdit.readOnly := false; FileEdit.confirmWrites := false |}
              FileEdit.Dismissed true {[ lit "/w/a.txt" := lit "hello" ]}
              {| FileEdit.path := lit "a.txt"; FileEdit.oldText := lit "l";
                 FileEdit.newText := lit "L" |}
              (lit "/w/a.txt") (lit "hello"))
    as [pieces [_ [Hjoin Hedit]]].
  - discriminate.
  - reflexivity.
  - intros H. discriminate.
  - vm_compute. reflexivity.
  - apply lookup_singleton_eq.
  - exists pieces. split; [exact Hjoin | exact Hedit].
Defined.
